(** * CTroll3D frame streaming: block differencer, mode selector and wire
      protocol of [GRenderWindow::processFrameData]
      (src/citra_qt/bootmanager.cpp, lines 444-673).

    The C++ code works on raw [unsigned char] buffers through pointers.  A
    pointer is modelled as a buffer (a [list Z] of byte values) together with
    a [nat] offset into it; the pointer bumps of the source ([ptr += 3],
    [ptr += rowStride - 8 * 3]) are kept as they are written.  Reading outside
    a buffer is undefined in C++; the model reads 0 there and a store outside
    the buffer is dropped, and the statements about whole frames carry the
    size hypotheses under which every access is in range. *)

From Stdlib Require Import ZArith Lia ZifyNat Bool.
From stdpp Require Import base numbers list gmap.

#[local] Ltac Zify.zify_post_hook ::= Z.to_euclidean_division_equations.

(** ** Buffers and loops *)

Definition peek (buf : list Z) (p : nat) : Z := default 0%Z (buf !! p).

Definition poke (buf : list Z) (p : nat) (v : Z) : list Z := <[p := v]> buf.

(** Result of running a loop body that may execute [return]: either the
    function returned [r] (the registers at that moment are kept), or control
    reached the end of the body with registers [s]. *)
Inductive flow (R S : Type) : Type :=
| Returned (r : R) (s : S)
| Running (s : S).
Arguments Returned {R S} r s.
Arguments Running {R S} s.

(** [for (k = 0; k < n; k++) body], where the body does not read [k]. *)
Fixpoint for_loop {R S : Type} (n : nat) (body : S -> flow R S) (s : S) : flow R S :=
  match n with
  | O => Running s
  | S n' =>
      match body s with
      | Returned r s' => Returned r s'
      | Running s' => for_loop n' body s'
      end
  end.

(** ** squareDiff (lines 485-503) *)

Definition MIN_SQDIFF : Z := 8 * 8 * 3.

(** Local variables of [squareDiff]: the two cursors and the running sum. *)
Record sq_regs : Type := SqRegs { ptr1 : nat; ptr2 : nat; diff : Z }.

(** Body of the inner loop: three channel differences are added, then the
    threshold test, then both cursors move to the next pixel. *)
Definition sq_pixel (b1 b2 : list Z) (s : sq_regs) : flow Z sq_regs :=
  let d := (diff s + Z.abs (peek b1 (ptr1 s) - peek b2 (ptr2 s)))%Z in
  let d := (d + Z.abs (peek b1 (ptr1 s + 1) - peek b2 (ptr2 s + 1)))%Z in
  let d := (d + Z.abs (peek b1 (ptr1 s + 2) - peek b2 (ptr2 s + 2)))%Z in
  if (d >? MIN_SQDIFF)%Z then Returned 1%Z (SqRegs (ptr1 s) (ptr2 s) d)
  else Running (SqRegs (ptr1 s + 3) (ptr2 s + 3) d).

(** Body of the outer loop: eight pixels, then the cursors skip to the next
    raster line. *)
Definition sq_row (rowStride : nat) (b1 b2 : list Z) (s : sq_regs) : flow Z sq_regs :=
  match for_loop 8 (sq_pixel b1 b2) s with
  | Returned r s' => Returned r s'
  | Running s' =>
      Running (SqRegs (ptr1 s' + (rowStride - 8 * 3)) (ptr2 s' + (rowStride - 8 * 3)) (diff s'))
  end.

Definition squareDiff_run (b1 : list Z) (o1 : nat) (b2 : list Z) (o2 : nat)
    (rowStride : nat) : flow Z sq_regs :=
  for_loop 8 (sq_row rowStride b1 b2) (SqRegs o1 o2 0).

Definition squareDiff (b1 : list Z) (o1 : nat) (b2 : list Z) (o2 : nat)
    (rowStride : nat) : Z :=
  match squareDiff_run b1 o1 b2 o2 rowStride with
  | Returned r _ => r
  | Running _ => 0%Z
  end.

(** ** copySquare and putSquare (lines 505-537) *)

(** Local variables of the two copy routines: the destination buffer with
    the cursor into it, and the cursor into the source. *)
Record cp_regs : Type := CpRegs { cp_mem : list Z; dstp : nat; srcp : nat }.

(** Body of the inner loop, the same in both routines: three byte stores,
    then both cursors move one pixel on. *)
Definition cp_pixel (src : list Z) (s : cp_regs) : cp_regs :=
  let m := poke (cp_mem s) (dstp s) (peek src (srcp s)) in
  let m := poke m (dstp s + 1) (peek src (srcp s + 1)) in
  let m := poke m (dstp s + 2) (peek src (srcp s + 2)) in
  CpRegs m (dstp s + 3) (srcp s + 3).

(** One raster line of a block: eight pixels, then the end-of-line bumps. *)
Definition cp_line (dskip sskip : nat) (src : list Z) (s : cp_regs) : cp_regs :=
  let s' := Nat.iter 8 (cp_pixel src) s in
  CpRegs (cp_mem s') (dstp s' + dskip) (srcp s' + sskip).

(** [copySquare(dst, src, rowStride)]: both cursors skip to the next raster
    line of a frame.  The result is the destination buffer after the call. *)
Definition copySquare (dst : list Z) (d : nat) (src : list Z) (s : nat)
    (rowStride : nat) : list Z :=
  cp_mem (Nat.iter 8 (cp_line (rowStride - 8 * 3) (rowStride - 8 * 3) src) (CpRegs dst d s)).

(** [putSquare(dst, src, rowStride)]: only the source cursor skips, the
    destination is filled contiguously. *)
Definition putSquare (dst : list Z) (d : nat) (src : list Z) (s : nat)
    (rowStride : nat) : list Z :=
  cp_mem (Nat.iter 8 (cp_line 0 (rowStride - 8 * 3) src) (CpRegs dst d s)).

(** ** imageDiff (lines 539-570) *)

(** Store into an [unsigned char]. *)
Definition to_uchar (z : Z) : Z := (z mod 256)%Z.

(** The three global buffers [imageDiff] works on (the contents of
    [lastImage], [diffBuf], [diffMap]) and its local variables.  [numSqDiff]
    is an [int16_t] in the source; it counts blocks, see
    [imageDiff_count_le] for its range. *)
Record id_regs : Type := IdRegs {
  id_last : list Z;
  id_buf : list Z;
  id_map : list Z;
  numSqDiff : nat;
  mapPos : nat;
  mapMask : Z;
  lPtr : nat;
  cPtr : nat }.

(** Body of the inner loop: one block. *)
Definition id_block (cur : list Z) (rowStride : nat) (s : id_regs) : id_regs :=
  let sDiff := squareDiff (id_last s) (lPtr s) cur (cPtr s) rowStride in
  let old := peek (id_map s) (mapPos s) in
  let s1 :=
    if negb (sDiff =? 0)%Z then
      IdRegs (copySquare (id_last s) (lPtr s) cur (cPtr s) rowStride)
             (putSquare (id_buf s) (8 * 8 * 3 * numSqDiff s) cur (cPtr s) rowStride)
             (poke (id_map s) (mapPos s) (to_uchar (Z.lor old (mapMask s))))
             (S (numSqDiff s)) (mapPos s) (mapMask s) (lPtr s) (cPtr s)
    else
      IdRegs (id_last s) (id_buf s)
             (poke (id_map s) (mapPos s) (to_uchar (Z.land old (Z.lnot (mapMask s)))))
             (numSqDiff s) (mapPos s) (mapMask s) (lPtr s) (cPtr s) in
  let s2 :=
    if (mapMask s1 =? 128)%Z then
      IdRegs (id_last s1) (id_buf s1) (id_map s1) (numSqDiff s1)
             (mapPos s1 + 1) 1%Z (lPtr s1) (cPtr s1)
    else
      IdRegs (id_last s1) (id_buf s1) (id_map s1) (numSqDiff s1)
             (mapPos s1) (Z.shiftl (mapMask s1) 1) (lPtr s1) (cPtr s1) in
  IdRegs (id_last s2) (id_buf s2) (id_map s2) (numSqDiff s2)
         (mapPos s2) (mapMask s2) (lPtr s2 + 8 * 3) (cPtr s2 + 8 * 3).

(** Body of the outer loop: one row of blocks ([j = 0, 8, ... < width]),
    then both cursors move down to the next row of blocks. *)
Definition id_row (cur : list Z) (width rowStride : nat) (s : id_regs) : id_regs :=
  let s' := Nat.iter ((width + 7) / 8) (id_block cur rowStride) s in
  IdRegs (id_last s') (id_buf s') (id_map s') (numSqDiff s')
         (mapPos s') (mapMask s')
         (lPtr s' + (8 * rowStride - rowStride)) (cPtr s' + (8 * rowStride - rowStride)).

(** [imageDiff(currentImage, width, height)] run on the given contents of
    [lastImage], [diffBuf] and [diffMap]; the returned count is [numSqDiff]
    of the result, the three buffers of the result are the globals after the
    call. *)
Definition imageDiff_run (last buf map cur : list Z) (width height : nat) : id_regs :=
  Nat.iter ((height + 7) / 8) (id_row cur width (width * 3))
           (IdRegs last buf map 0 0 1%Z 0 0).

Definition imageDiff (last buf map cur : list Z) (width height : nat) : nat :=
  numSqDiff (imageDiff_run last buf map cur width height).


(** ** Transport (lines 444-466) *)

(** What a call does to the outside world, in program order. *)
Inductive event : Type :=
| EvConnect                                         (* connectToHost, waitForConnected(1000) *)
| EvCompress (data : list Z) (width height : nat) (quality : Z)  (* jpegCompress *)
| EvWrite (bytes : list Z).                         (* sock.write, waitForBytesWritten *)

(** The [QTcpSocket]: whether it is in [ConnectedState], and the bytes
    received from the peer and not read yet. *)
Record socket : Type := Socket { connected : bool; inbox : list Z }.

(** What the network does around one call: whether a connection attempt made
    by this call succeeds, whether an established connection is still up when
    the call starts, and the bytes that arrive from the peer. *)
Record env : Type := Env { connect_ok : bool; still_up : bool; arriving : list Z }.

(** [socketSend(sock, data, sz)]: the events and the returned [int]. *)
Definition socketSend (sock : socket) (data : list Z) (sz : nat) : list event * Z :=
  if negb (connected sock) then ([], 0%Z)
  else ([EvWrite (take sz data)], 1%Z).

(** [readConfirmation(sock)]: the socket afterwards and the returned byte. *)
Definition readConfirmation (e : env) (sock : socket) : socket * Z :=
  let avail := if connected sock then inbox sock ++ arriving e else inbox sock in
  match avail with
  | b :: rest => (Socket (connected sock) rest, to_uchar b)
  | [] => (Socket (connected sock) [], 0%Z)
  end.

(** ** jpegCompress (lines 468-481) *)

(** Qt's JPEG writer, [QImage::save(&buffer, "JPG", quality)] on an RGB888
    image of the given size; it is not part of this repository. *)
Definition encoder : Type := list Z -> nat -> nat -> Z -> list Z.

(** [jpegCompress(data, width, height, quality, outBuf, outSize)]: the image
    is the first [width * height * 3] bytes at [data]; the result is the
    contents of [outBuf], whose length is [outSize]. *)
Definition jpegCompress (jpeg : encoder) (data : list Z) (width height : nat)
    (quality : Z) : list Z :=
  jpeg (take (width * height * 3) data) width height quality.

(** ** processFrameData (lines 572-673) *)

Definition FM_NONE : Z := 0.
Definition FM_FULL : Z := 1.
Definition FM_DIFF : Z := 2.
Definition FM_CHECKER : Z := 3.
Definition FM_CHECKER_COMPL : Z := 4.

Definition PORT : Z := 6543.

(** The two bytes of a [uint16_t] object as they are passed to [socketSend]
    (low byte first, on the little-endian hosts the program runs on). *)
Definition le16 (v : Z) : list Z := [(v mod 256)%Z; (v / 256 mod 256)%Z].

(** Conversion to [uint16_t]. *)
Definition to_u16 (z : Z) : Z := (z mod 65536)%Z.

(** [!x] on an [int]. *)
Definition c_not (z : Z) : Z := if (z =? 0)%Z then 1%Z else 0%Z.

(** Local variables of the checkerboard loop (lines 643-660).  [ck_out]
    holds the bytes stored through [out] so far: [buf] is a fresh array that
    is filled from its start, three bytes at a time. *)
Record ck_regs : Type := CkRegs { ck_out : list Z; ck_in : nat; ck_skip : Z }.

Definition ck_pixel (frame : list Z) (s : ck_regs) : ck_regs :=
  let out :=
    if (c_not (ck_skip s) =? 0)%Z then ck_out s
    else ck_out s ++ [peek frame (ck_in s); peek frame (ck_in s + 1); peek frame (ck_in s + 2)] in
  CkRegs out (ck_in s + 3) (c_not (ck_skip s)).

Definition ck_line (frame : list Z) (width : nat) (s : ck_regs) : ck_regs :=
  let s' := Nat.iter width (ck_pixel frame) s in
  CkRegs (ck_out s') (ck_in s') (c_not (ck_skip s')).

(** The contents of [buf] after the two loops. *)
Definition checker_sample (frame : list Z) (width height : nat) (checker : Z) : list Z :=
  ck_out (Nat.iter height (ck_line frame width) (CkRegs [] 0 checker)).

Record layout : Type := Layout { width : nat; height : nat }.

(** The state that survives between calls: the globals [lastImage] ([None]
    is the null pointer), [diffBuf], [diffMap], and the function's statics.
    [outBuf], [outSize], [outDiffBuf] and [outDiffSize] are written before
    they are read in every call, so they carry nothing from call to call. *)
Record pump : Type := Pump {
  lastImage : option (list Z);
  diffBuf : list Z;
  diffMap : list Z;
  forceFrameCount : Z;
  checker : Z;
  lastFrameMode : Z;
  waitConnection : nat;
  sock : socket }.

(** The state at program start. *)
Definition pump_init : pump :=
  Pump None (replicate (240 * 320 * 3) 0%Z) (replicate (240 / 8 * (320 / 8) / 8) 0%Z)
       0 0 FM_NONE 0 (Socket false []).

Record outcome : Type := Outcome { out_state : pump; out_ack : Z; out_events : list event }.

(** Lines 590-597: connection upkeep; the socket, the wait counter and the
    events afterwards. *)
Record upkeep : Type := Upkeep { up_sock : socket; up_wait : nat; up_events : list event }.

Definition maintain (e : env) (s : pump) : upkeep :=
  if negb (connected (sock s) && still_up e) then
    if (waitConnection s =? 0) then
      Upkeep (Socket (connect_ok e) (inbox (sock s))) 300 [EvConnect]
    else Upkeep (Socket false (inbox (sock s))) (waitConnection s - 1) []
  else Upkeep (sock s) (waitConnection s) [].

(** Lines 606-620: the mode, the dirty-block count and the three buffers
    afterwards. *)
Record selection : Type := Selection {
  sel_mode : Z;
  sel_numSq : nat;
  sel_last : option (list Z);
  sel_buf : list Z;
  sel_map : list Z }.

Definition select_mode (lay : layout) (frame : list Z) (s : pump) : selection :=
  let frameMode :=
    if (forceFrameCount s >? 100)%Z then FM_FULL
    else if (lastFrameMode s =? FM_CHECKER)%Z then FM_CHECKER_COMPL
    else FM_NONE in
  match lastImage s with
  | None =>
      Selection FM_FULL 0 (Some (take (width lay * height lay * 3) frame))
                (diffBuf s) (diffMap s)
  | Some last =>
      if negb (frameMode =? FM_FULL)%Z && negb (frameMode =? FM_CHECKER_COMPL)%Z then
        let r := imageDiff_run last (diffBuf s) (diffMap s) frame (width lay) (height lay) in
        let numSq := numSqDiff r in
        let frameMode :=
          if 240 / 8 * (320 / 8) / 3 <? numSq then FM_CHECKER
          else if 0 <? numSq then FM_DIFF
          else FM_NONE in
        Selection frameMode numSq (Some (id_last r)) (id_buf r) (id_map r)
      else Selection frameMode 0 (Some last) (diffBuf s) (diffMap s)
  end.

(** Lines 623-670: what is done for the chosen mode (the events), and the
    new values of [forceFrameCount] and [checker]. *)
Record sending : Type := Sending { tx_events : list event; tx_force : Z; tx_checker : Z }.

Definition transmit (jpeg : encoder) (lay : layout) (frame : list Z) (sk : socket)
    (sel : selection) (force chk : Z) : sending :=
  let frameMode := sel_mode sel in
  if (frameMode =? FM_NONE)%Z then
    Sending (fst (socketSend sk (le16 frameMode) 2)) (force + 1)%Z chk
  else if (frameMode =? FM_FULL)%Z then
    let jpgBuf := jpegCompress jpeg frame (width lay) (height lay) 70 in
    let dataSize := to_u16 (Z.of_nat (length jpgBuf)) in
    Sending ([EvCompress frame (width lay) (height lay) 70]
               ++ fst (socketSend sk (le16 frameMode) 2)
               ++ fst (socketSend sk (le16 dataSize) 2)
               ++ fst (socketSend sk jpgBuf (Z.to_nat dataSize)))
            0%Z chk
  else if (frameMode =? FM_DIFF)%Z then
    let jpgDiffBuf := jpegCompress jpeg (sel_buf sel) 8 (8 * sel_numSq sel) 70 in
    let dataSize := to_u16 (Z.of_nat (length jpgDiffBuf)) in
    Sending ([EvCompress (sel_buf sel) 8 (8 * sel_numSq sel) 70]
               ++ fst (socketSend sk (le16 frameMode) 2)
               ++ fst (socketSend sk (le16 dataSize) 2)
               ++ fst (socketSend sk (sel_map sel) (240 / 8 * (320 / 8) / 8))
               ++ fst (socketSend sk jpgDiffBuf (Z.to_nat dataSize)))
            (force + 5)%Z chk
  else if (frameMode =? FM_CHECKER)%Z || (frameMode =? FM_CHECKER_COMPL)%Z then
    let buf := checker_sample frame (width lay) (height lay) chk in
    let jpgBuf := jpegCompress jpeg buf (width lay / 2) (height lay) 70 in
    let dataType := to_u16 (3 + chk) in
    let dataSize := to_u16 (Z.of_nat (length jpgBuf)) in
    Sending ([EvCompress buf (width lay / 2) (height lay) 70]
               ++ fst (socketSend sk (le16 dataType) 2)
               ++ fst (socketSend sk (le16 dataSize) 2)
               ++ fst (socketSend sk jpgBuf (Z.to_nat dataSize)))
            (force + 3)%Z (Z.land (chk + 1) 1)
  else Sending [] force chk.

(** One call [processFrameData(layout, frameData, address)]; [frameData] is
    [None] for the null pointer.  The address is only handed to
    [connectToHost]; whether that succeeds is in [e]. *)
Definition processFrameData (jpeg : encoder) (lay : layout) (frameData : option (list Z))
    (e : env) (s : pump) : outcome :=
  let up := maintain e s in
  match frameData with
  | None =>
      let rc := readConfirmation e (up_sock up) in
      Outcome (Pump (lastImage s) (diffBuf s) (diffMap s) (forceFrameCount s) (checker s)
                    (lastFrameMode s) (up_wait up) (fst rc))
              (snd rc) (up_events up)
  | Some frame =>
      let sel := select_mode lay frame s in
      let tx := transmit jpeg lay frame (up_sock up) sel (forceFrameCount s) (checker s) in
      let rc := readConfirmation e (up_sock up) in
      Outcome (Pump (sel_last sel) (sel_buf sel) (sel_map sel) (tx_force tx) (tx_checker tx)
                    (sel_mode sel) (up_wait up) (fst rc))
              (snd rc) (up_events up ++ tx_events tx)
  end.

(** A call as the presentation path makes it. *)
Record call : Type := Call { c_frame : option (list Z); c_env : env }.

(** A session: the calls one after the other; the outcome of each. *)
Fixpoint run (jpeg : encoder) (lay : layout) (calls : list call) (s : pump) : list outcome :=
  match calls with
  | [] => []
  | c :: rest =>
      let o := processFrameData jpeg lay (c_frame c) (c_env c) s in
      o :: run jpeg lay rest (out_state o)
  end.

(** The state a session ends in. *)
Fixpoint run_state (jpeg : encoder) (lay : layout) (calls : list call) (s : pump) : pump :=
  match calls with
  | [] => s
  | c :: rest =>
      run_state jpeg lay rest (out_state (processFrameData jpeg lay (c_frame c) (c_env c) s))
  end.

(** The modes chosen by the frame-supplying calls of a session, in order. *)
Fixpoint frame_modes (jpeg : encoder) (lay : layout) (calls : list call) (s : pump) : list Z :=
  match calls with
  | [] => []
  | c :: rest =>
      let s' := out_state (processFrameData jpeg lay (c_frame c) (c_env c) s) in
      match c_frame c with
      | Some _ => lastFrameMode s' :: frame_modes jpeg lay rest s'
      | None => frame_modes jpeg lay rest s'
      end
  end.

(** * The request slots of the renderer (src/video_core/video_core.cpp,
      lines 34-42 and 76-98) and the first-frame flag of the render window
      (src/citra_qt/bootmanager.cpp, lines 228-233 and 396-399)

    [data] pointers and callbacks are only stored by this code, so they are
    handles ([nat]).  The address string is duplicated on the C heap: the heap
    is a finite map from block numbers to the bytes of the block, [strdup]
    takes the next unused block number (it is assumed to succeed) and [free]
    of a block that is not live is recorded in [h_bad_free]. *)

Record heap := Heap {
  h_live : gmap nat (list Z);
  h_next : nat;
  h_bad_free : bool }.

Definition strdup (s : list Z) (h : heap) : nat * heap :=
  (h_next h, Heap (<[h_next h := s]> (h_live h)) (S (h_next h)) (h_bad_free h)).

Definition free (p : nat) (h : heap) : heap :=
  match h_live h !! p with
  | Some _ => Heap (delete p (h_live h)) (h_next h) (h_bad_free h)
  | None => Heap (h_live h) (h_next h) true
  end.

(** The globals of video_core.cpp that the two request functions touch; the
    null [char*] is [None]. *)
Record video_core := VideoCore {
  g_renderer_screenshot_requested : bool;
  g_screenshot_bits : nat;
  g_screenshot_complete_callback : nat;
  g_screenshot_framebuffer_layout : layout;
  g_ctroll3d_bits : nat;
  g_ctroll3d_complete_callback : nat;
  g_ctroll3d_framebuffer_layout : layout;
  g_ctroll3d_addr : option nat;
  vc_heap : heap }.

Definition RequestScreenshot (data callback : nat) (lay : layout) (v : video_core)
  : video_core :=
  if g_renderer_screenshot_requested v then v
  else VideoCore true data callback lay
         (g_ctroll3d_bits v) (g_ctroll3d_complete_callback v)
         (g_ctroll3d_framebuffer_layout v) (g_ctroll3d_addr v) (vc_heap v).

Definition RequestCTroll3D (data callback : nat) (address : list Z) (lay : layout)
    (v : video_core) : video_core :=
  let h1 := match g_ctroll3d_addr v with
            | Some p => free p (vc_heap v)
            | None => vc_heap v
            end in
  let '(p, h2) := strdup address h1 in
  VideoCore (g_renderer_screenshot_requested v) (g_screenshot_bits v)
    (g_screenshot_complete_callback v) (g_screenshot_framebuffer_layout v)
    data callback lay (Some p) h2.

(** The arguments of one call of each request function, and a run of calls. *)
Record shot_request := ShotRequest {
  sr_data : nat; sr_callback : nat; sr_layout : layout }.

Record ctroll_request := CtrollRequest {
  cr_data : nat; cr_callback : nat; cr_address : list Z; cr_layout : layout }.

Definition shot (v : video_core) (r : shot_request) : video_core :=
  RequestScreenshot (sr_data r) (sr_callback r) (sr_layout r) v.

Definition ctroll (v : video_core) (r : ctroll_request) : video_core :=
  RequestCTroll3D (cr_data r) (cr_callback r) (cr_address r) (cr_layout r) v.

(** [GRenderWindow::PollEvents] and the store to [first_frame] of
    [GRenderWindow::InitRenderTarget] (the rest of that function builds Qt
    widgets and is not modelled).  The window is its [first_frame] flag; the
    result lists the signals emitted. *)
Inductive signal := FirstFrameDisplayed.

Definition PollEvents (first_frame : bool) : bool * list signal :=
  if negb first_frame then (true, [FirstFrameDisplayed]) else (first_frame, []).

Definition InitRenderTarget (first_frame : bool) : bool * list signal := (false, []).

Inductive window_op := OpPollEvents | OpInitRenderTarget.

Definition window_step (op : window_op) (first_frame : bool) : bool * list signal :=
  match op with
  | OpPollEvents => PollEvents first_frame
  | OpInitRenderTarget => InitRenderTarget first_frame
  end.

Fixpoint window_run (ops : list window_op) (first_frame : bool) : bool * list signal :=
  match ops with
  | [] => (first_frame, [])
  | op :: rest =>
      let '(f, out) := window_step op first_frame in
      let '(f', out') := window_run rest f in
      (f', out ++ out')
  end.
(** *** What the scan computes *)

(** Address of byte [3 * j] of raster line [i] of the block that starts at
    [base]. *)
Definition cell (rowStride base i j : nat) : nat := base + i * rowStride + 3 * j.

(** Address of pixel number [p] (0..63, line by line) of that block. *)
Definition px_addr (rowStride base p : nat) : nat := cell rowStride base (p / 8) (p mod 8).

(** Sum of the absolute differences of the three channels of one pixel. *)
Definition px_diff (b1 b2 : list Z) (a1 a2 : nat) : Z :=
  (Z.abs (peek b1 a1 - peek b2 a2)
   + Z.abs (peek b1 (a1 + 1) - peek b2 (a2 + 1))
   + Z.abs (peek b1 (a1 + 2) - peek b2 (a2 + 2)))%Z.

(** Sum over the first [n] pixels of the two blocks. *)
Fixpoint running_sum (b1 : list Z) (o1 : nat) (b2 : list Z) (o2 : nat)
    (rowStride n : nat) : Z :=
  match n with
  | O => 0%Z
  | S k =>
      (running_sum b1 o1 b2 o2 rowStride k
       + px_diff b1 b2 (px_addr rowStride o1 k) (px_addr rowStride o2 k))%Z
  end.

(** The scan stops at pixel [p]: no earlier pixel pushed the running sum over
    the threshold, pixel [p] does. *)
Definition first_over (b1 : list Z) (o1 : nat) (b2 : list Z) (o2 : nat)
    (rowStride p : nat) : Prop :=
  (forall q, q < p -> (running_sum b1 o1 b2 o2 rowStride (S q) <= MIN_SQDIFF)%Z)
  /\ (MIN_SQDIFF < running_sum b1 o1 b2 o2 rowStride (S p))%Z.

(** Registers of [squareDiff] when it is looking at pixel [p]. *)
Definition sq_at (b1 : list Z) (o1 : nat) (b2 : list Z) (o2 : nat)
    (rowStride p : nat) : sq_regs :=
  SqRegs (px_addr rowStride o1 p) (px_addr rowStride o2 p)
         (running_sum b1 o1 b2 o2 rowStride (S p)).

(** Byte offset of block ([r], [c]) of a frame [width] pixels wide. *)
Definition block_off (width r c : nat) : nat := (8 * r * width + 8 * c) * 3.

(** The 192 bytes of the block that starts at [o], raster line after raster
    line. *)
Definition block_bytes (buf : list Z) (o rowStride : nat) : list Z :=
  map (fun k => peek buf (o + (k / 24) * rowStride + k mod 24)) (seq 0 192).

(** *** What the differencer computes *)

(** Block ([r], [c]) of [cur] differs from the same block of [prev] beyond
    the threshold. *)
Definition dirty (prev cur : list Z) (width r c : nat) : bool :=
  negb (squareDiff prev (block_off width r c) cur (block_off width r c) (width * 3) =? 0)%Z.

(** Block ([r'], [c']) comes before block ([r], [c]) in the scan. *)
Definition before (r' c' r c : nat) : bool := (r' <? r) || ((r' =? r) && (c' <? c)).

(** The blocks scanned before block ([r], [c]), in scan order (row after
    row, [bw] blocks a row). *)
Definition done_blocks (bw r c : nat) : list (nat * nat) :=
  flat_map (fun r' => map (pair r') (seq 0 bw)) (seq 0 r) ++ map (pair r) (seq 0 c).

(** All blocks of a frame of [bw] by [bh] blocks, in scan order. *)
Definition all_blocks (bw bh : nat) : list (nat * nat) := done_blocks bw bh 0.

Definition dirty_among (prev cur : list Z) (width : nat) (l : list (nat * nat))
    : list (nat * nat) :=
  List.filter (fun b => dirty prev cur width (fst b) (snd b)) l.

(** The pixels of the listed blocks of [cur], packed block after block. *)
Definition packed (cur : list Z) (width : nat) (l : list (nat * nat)) : list Z :=
  flat_map (fun b => block_bytes cur (block_off width (fst b) (snd b)) (width * 3)) l.

(** Bit number [idx] of the bitmap: bit [idx mod 8] of byte [idx / 8]. *)
Definition map_bit (map : list Z) (idx : nat) : bool :=
  Z.testbit (peek map (idx / 8)) (Z.of_nat (idx mod 8)).

(** State of the scan when it is about to look at block ([r], [c]). *)
Record scan_inv (prev buf0 map0 cur : list Z) (bw r c : nat) (s : id_regs) : Prop := ScanInv {
  inv_lptr : lPtr s = block_off (8 * bw) r c;
  inv_cptr : cPtr s = block_off (8 * bw) r c;
  inv_last_len : length (id_last s) = length prev;
  inv_buf_len : length (id_buf s) = length buf0;
  inv_map_len : length (id_map s) = length map0;
  inv_count : numSqDiff s = length (dirty_among prev cur (8 * bw) (done_blocks bw r c));
  inv_pos : mapPos s = (r * bw + c) / 8;
  inv_mask : mapMask s = (2 ^ Z.of_nat ((r * bw + c) mod 8))%Z;
  inv_last : forall r' c' i t, c' < bw -> i < 8 -> t < 24 ->
    peek (id_last s) (block_off (8 * bw) r' c' + i * (8 * bw * 3) + t)
    = if before r' c' r c && dirty prev cur (8 * bw) r' c'
      then peek cur (block_off (8 * bw) r' c' + i * (8 * bw * 3) + t)
      else peek prev (block_off (8 * bw) r' c' + i * (8 * bw * 3) + t);
  inv_buf : take (192 * numSqDiff s) (id_buf s) = packed cur (8 * bw) (dirty_among prev cur (8 * bw) (done_blocks bw r c));
  inv_bits : forall r' c', c' < bw -> before r' c' r c = true ->
    map_bit (id_map s) (r' * bw + c') = dirty prev cur (8 * bw) r' c' }.


(** Phase [c] of the checkerboard takes the pixel in row [j], column [i]. *)
Definition sampled (c j i : nat) : bool := Nat.even (c + j + i).

(** The three bytes of the pixel in row [j], column [i] of a frame that is
    [width] pixels wide. *)
Definition pixel_at (frame : list Z) (width j i : nat) : list Z :=
  [peek frame (3 * (j * width + i));
   peek frame (3 * (j * width + i) + 1);
   peek frame (3 * (j * width + i) + 2)].

(** The columns phase [c] takes among the first [n] columns of row [j]. *)
Definition sampled_cols (c j n : nat) : list nat := List.filter (sampled c j) (seq 0 n).

(** The positions (row, column) phase [c] takes in a frame, in the order in
    which they are taken. *)
Definition sampled_positions (c width height : nat) : list (nat * nat) :=
  flat_map (fun j => map (pair j) (sampled_cols c j width)) (seq 0 height).

(** The pixels of [frame] at the listed positions, one after the other. *)
Definition pixels_at (frame : list Z) (width : nat) (l : list (nat * nat)) : list Z :=
  flat_map (fun p => pixel_at frame width (fst p) (snd p)) l.

(** The [int] value of [skip] after an even or odd number of toggles from 0. *)
Definition skip_of (n : nat) : Z := if Nat.even n then 0%Z else 1%Z.

(** The bytes handed to the socket, in order. *)
Definition wire (evs : list event) : list Z :=
  flat_map (fun ev => match ev with EvWrite b => b | _ => [] end) evs.

(** The call tried to connect. *)
Definition attempts (evs : list event) : bool :=
  existsb (fun ev => match ev with EvConnect => true | _ => false end) evs.

(** The call wrote to the socket. *)
Definition writes (evs : list event) : bool :=
  existsb (fun ev => match ev with EvWrite _ => true | _ => false end) evs.

(** Every window of [n] consecutive entries of [modes] holds [FM_FULL]. *)
Definition full_in_every_window (n : nat) (modes : list Z) : Prop :=
  forall i, i + n <= length modes ->
    exists k, i <= k < i + n /\ modes !! k = Some FM_FULL.

(** Every element of the buffer is the value of an [unsigned char]. *)
Definition bytes (buf : list Z) : Prop := Forall (fun b => (0 <= b <= 255)%Z) buf.

(** The registers of [squareDiff] with the roles of the two blocks exchanged. *)
Definition sq_swap (s : sq_regs) : sq_regs := SqRegs (ptr2 s) (ptr1 s) (diff s).

Definition flow_swap (f : flow Z sq_regs) : flow Z sq_regs :=
  match f with
  | Returned r s => Returned r (sq_swap s)
  | Running s => Running (sq_swap s)
  end.

(** The part of [diffBuf] behind the packed blocks is as it was in [buf0]. *)
Definition rest_kept (buf0 : list Z) (s : id_regs) : Prop :=
  drop (192 * numSqDiff s) (id_buf s) = drop (192 * numSqDiff s) buf0.

(** The number of bits set among the first [idx] bits of the bitmap. *)
Definition bits_before (map : list Z) (idx : nat) : nat :=
  length (List.filter (map_bit map) (seq 0 idx)).

(** Block number [idx] of the scan, as (row, column). *)
Definition block_at (bw idx : nat) : nat * nat := (idx / bw, idx mod bw).

(** What every state of a session satisfies: the counters stay in a small
    range and the two global arrays keep their size. *)
Definition pump_ok (s : pump) : Prop :=
  (0 <= forceFrameCount s <= 105)%Z
  /\ (checker s = 0 \/ checker s = 1)%Z
  /\ (0 <= lastFrameMode s <= 4)%Z
  /\ waitConnection s <= 300
  /\ length (diffMap s) = 240 / 8 * (320 / 8) / 8
  /\ length (diffBuf s) = 240 * 320 * 3.

(** Two modes that follow each other: CHECKER_COMPL comes only after
    CHECKER, and after CHECKER comes CHECKER_COMPL or FULL. *)
Definition may_follow (a b : Z) : Prop :=
  (b = FM_CHECKER_COMPL -> a = FM_CHECKER)
  /\ (a = FM_CHECKER -> b = FM_CHECKER_COMPL \/ b = FM_FULL).

(** The value of a [uint16_t] read back from its two bytes. *)
Definition le16_value (l : list Z) : Z :=
  match l with
  | [b0; b1] => (b0 + 256 * b1)%Z
  | _ => (-1)%Z
  end.

(** The calls of a session that brings the same frame every time. *)
Definition same_frame_calls (frame : list Z) (envs : list env) : list call :=
  map (fun e => Call (Some frame) e) envs.

(** The mode of call number [k] (from 0) of a session that brings the same
    frame every time: a FULL every 102 calls, NONE in between. *)
Definition same_frame_mode (k : nat) : Z := if k mod 102 =? 0 then FM_FULL else FM_NONE.

(** ** Request slots *)

(** Every live block was handed out earlier, and the stored address, if any,
    is a live block. *)
Definition heap_ok (v : video_core) : Prop :=
  (forall k, is_Some (h_live (vc_heap v) !! k) -> k < h_next (vc_heap v))
  /\ (forall p, g_ctroll3d_addr v = Some p -> is_Some (h_live (vc_heap v) !! p)).

(** The live blocks that do not belong to the CTroll3D slot. *)
Definition others (v : video_core) : gmap nat (list Z) :=
  match g_ctroll3d_addr v with
  | Some p => delete p (h_live (vc_heap v))
  | None => h_live (vc_heap v)
  end.

Definition vc_init : video_core :=
  VideoCore false 0 0 (Layout 0 0) 0 0 (Layout 0 0) None (Heap empty 0 false).

Fixpoint count_inits (ops : list window_op) : nat :=
  match ops with
  | [] => 0
  | OpInitRenderTarget :: rest => S (count_inits rest)
  | OpPollEvents :: rest => count_inits rest
  end.

(** The state between two calls of a session that brings [frame] every time,
    [k] calls after the one that set up the previous-frame buffer. *)
Definition settled (bw bh : nat) (frame : list Z) (k : nat) (s : pump) : Prop :=
  lastImage s = Some frame
  /\ lastFrameMode s <> FM_CHECKER
  /\ forceFrameCount s = Z.of_nat (k mod 102)
  /\ 8 * 8 * 3 * (bh * bw) <= length (diffBuf s)
  /\ bh * bw <= 8 * length (diffMap s).

(** ** The checker phase over a session *)

Definition is_checker_mode (m : Z) : bool :=
  (m =? FM_CHECKER)%Z || (m =? FM_CHECKER_COMPL)%Z.

(** The number of checker-mode transmissions among the modes of a session. *)
Definition checker_sends (modes : list Z) : nat :=
  length (List.filter is_checker_mode modes).

(** The state between two calls on a connected socket, with the two global
    arrays at their declared sizes. *)
Definition at_state (img : list Z) (force chk mode : Z) (s : pump) : Prop :=
  lastImage s = Some img
  /\ forceFrameCount s = force
  /\ checker s = chk
  /\ lastFrameMode s = mode
  /\ connected (sock s) = true
  /\ length (diffBuf s) = 240 * 320 * 3
  /\ length (diffMap s) = 240 / 8 * (320 / 8) / 8.

(** The layout of [ConnectCTroll3D] (line 676); a frame of that size with
    every byte [v]; a network that connects, stays up and sends nothing; a
    call that brings such a frame on such a network; an encoder that returns
    no bytes. *)
Definition screen : layout := Layout 240 320.

Definition plain (v : Z) : list Z := replicate (240 * 320 * 3) v.

Definition online : env := Env true true [].

Definition show (v : Z) : call := Call (Some (plain v)) online.

Definition silent : encoder := fun _ _ _ _ => [].

(** 98 calls with the frame the session already shows (NONE each, a count of
    98 after a FULL) and one call with a frame that differs everywhere: a
    CHECKER that lifts the count to 101, so that the refresh is due before
    the second half of the pair. *)
Definition lead (v w : Z) : list call := replicate 98 (show v) ++ [show w].

(** A session from program start up to the first half of a checker pair that
    the refresh will cut. *)
Definition pair_cut_once : list call := show 0 :: lead 0 255.

(** The same session continued: the forced FULL, and once more up to the
    first half of a pair that the refresh will cut. *)
Definition pair_cut_twice : list call := pair_cut_once ++ show 255 :: lead 255 0.
Section SquareDiff.
Variables (b1 b2 : list Z) (o1 o2 rowStride : nat).
Hypothesis stride_ok : 8 * 3 <= rowStride.

#[local] Abbreviation RS := (running_sum b1 o1 b2 o2 rowStride).

Lemma px_diff_nonneg a1 a2 : (0 <= px_diff b1 b2 a1 a2)%Z.
Proof. unfold px_diff. lia. Qed.

Lemma running_sum_mono n m : n <= m -> (RS n <= RS m)%Z.
Proof.
  induction 1 as [|m _ IH]; [lia|].
  cbn [running_sum]. pose proof (px_diff_nonneg (px_addr rowStride o1 m) (px_addr rowStride o2 m)).
  lia.
Qed.

Lemma running_sum_nonneg n : (0 <= RS n)%Z.
Proof. apply (running_sum_mono 0 n). lia. Qed.

#[local] Abbreviation first_over := (first_over b1 o1 b2 o2 rowStride).

Lemma first_over_unique p p' : first_over p -> first_over p' -> p = p'.
Proof.
  intros [Hlo Hhi] [Hlo' Hhi'].
  destruct (Nat.lt_trichotomy p p') as [H|[H|H]]; [|assumption|].
  - specialize (Hlo' _ H). lia.
  - specialize (Hlo _ H). lia.
Qed.

Lemma sq_pixels_loop i n : forall j, j + n = 8 ->
  (forall q, q < 8 * i + j -> (RS (S q) <= MIN_SQDIFF)%Z) ->
  match for_loop n (sq_pixel b1 b2)
          (SqRegs (cell rowStride o1 i j) (cell rowStride o2 i j) (RS (8 * i + j))) with
  | Returned r s =>
      r = 1%Z /\ exists p, p < 8 * i + 8 /\ first_over p /\ s = sq_at b1 o1 b2 o2 rowStride p
  | Running s =>
      (forall q, q < 8 * i + 8 -> (RS (S q) <= MIN_SQDIFF)%Z)
      /\ s = SqRegs (cell rowStride o1 i 8) (cell rowStride o2 i 8) (RS (8 * i + 8))
  end.
Proof.
  induction n as [|n IH]; intros j Hj Hlow.
  - assert (j = 8) by lia. subst j. cbn [for_loop]. split; [exact Hlow|reflexivity].
  - cbn [for_loop]. unfold sq_pixel. cbn [ptr1 ptr2 diff].
    assert (Hp : px_addr rowStride o1 (8 * i + j) = cell rowStride o1 i j
                 /\ px_addr rowStride o2 (8 * i + j) = cell rowStride o2 i j).
    { unfold px_addr.
      replace ((8 * i + j) / 8) with i by lia.
      replace ((8 * i + j) mod 8) with j by lia. split; reflexivity. }
    destruct Hp as [Hp1 Hp2].
    assert (Hstep : (RS (8 * i + j)
              + Z.abs (peek b1 (cell rowStride o1 i j) - peek b2 (cell rowStride o2 i j))
              + Z.abs (peek b1 (cell rowStride o1 i j + 1) - peek b2 (cell rowStride o2 i j + 1))
              + Z.abs (peek b1 (cell rowStride o1 i j + 2) - peek b2 (cell rowStride o2 i j + 2))
              = RS (S (8 * i + j)))%Z).
    { cbn [running_sum]. unfold px_diff. rewrite Hp1, Hp2. lia. }
    rewrite Hstep.
    destruct (Z.gtb_spec (RS (S (8 * i + j))) MIN_SQDIFF) as [Hgt|Hle].
    + split; [reflexivity|]. exists (8 * i + j). split; [lia|]. split.
      * split; [exact Hlow|lia].
      * unfold sq_at. rewrite Hp1, Hp2. reflexivity.
    + replace (cell rowStride o1 i j + 3) with (cell rowStride o1 i (S j)) by (unfold cell; lia).
      replace (cell rowStride o2 i j + 3) with (cell rowStride o2 i (S j)) by (unfold cell; lia).
      replace (S (8 * i + j)) with (8 * i + S j) by lia.
      apply IH; [lia|].
      intros q Hq. destruct (Nat.eq_dec q (8 * i + j)) as [->|Hne].
      * exact Hle.
      * apply Hlow. lia.
Qed.

Lemma sq_rows_loop m : forall i, i + m = 8 ->
  (forall q, q < 8 * i -> (RS (S q) <= MIN_SQDIFF)%Z) ->
  match for_loop m (sq_row rowStride b1 b2)
          (SqRegs (cell rowStride o1 i 0) (cell rowStride o2 i 0) (RS (8 * i))) with
  | Returned r s =>
      r = 1%Z /\ exists p, p < 64 /\ first_over p /\ s = sq_at b1 o1 b2 o2 rowStride p
  | Running s =>
      (forall q, q < 64 -> (RS (S q) <= MIN_SQDIFF)%Z)
      /\ s = SqRegs (cell rowStride o1 8 0) (cell rowStride o2 8 0) (RS 64)
  end.
Proof.
  induction m as [|m IH]; intros i Hi Hlow.
  - assert (i = 8) by lia. subst i. cbn [for_loop]. split; [exact Hlow|reflexivity].
  - cbn [for_loop]. unfold sq_row.
    pose proof (sq_pixels_loop i 8 0 eq_refl) as Hrow.
    replace (8 * i + 0) with (8 * i) in Hrow by lia.
    specialize (Hrow Hlow).
    destruct (for_loop 8 (sq_pixel b1 b2) _) as [r s|s].
    + destruct Hrow as [-> (p & Hp & Hfirst & ->)].
      split; [reflexivity|]. exists p. split; [lia|]. split; [exact Hfirst|reflexivity].
    + destruct Hrow as [Hlow' ->]. cbn [ptr1 ptr2 diff].
      replace (cell rowStride o1 i 8 + (rowStride - 8 * 3)) with (cell rowStride o1 (S i) 0)
        by (unfold cell; lia).
      replace (cell rowStride o2 i 8 + (rowStride - 8 * 3)) with (cell rowStride o2 (S i) 0)
        by (unfold cell; lia).
      replace (8 * i + 8) with (8 * S i) in * by lia.
      apply IH; [lia|exact Hlow'].
Qed.

(** Outcome of the whole scan. *)
Lemma squareDiff_run_spec :
  match squareDiff_run b1 o1 b2 o2 rowStride with
  | Returned r s =>
      r = 1%Z /\ exists p, p < 64 /\ first_over p /\ s = sq_at b1 o1 b2 o2 rowStride p
  | Running s =>
      (forall q, q < 64 -> (RS (S q) <= MIN_SQDIFF)%Z)
      /\ s = SqRegs (o1 + 8 * rowStride) (o2 + 8 * rowStride) (RS 64)
  end.
Proof.
  unfold squareDiff_run.
  pose proof (sq_rows_loop 8 0 eq_refl) as H.
  replace (cell rowStride o1 0 0) with o1 in H by (unfold cell; lia).
  replace (cell rowStride o2 0 0) with o2 in H by (unfold cell; lia).
  replace (cell rowStride o1 8 0) with (o1 + 8 * rowStride) in H by (unfold cell; lia).
  replace (cell rowStride o2 8 0) with (o2 + 8 * rowStride) in H by (unfold cell; lia).
  apply H. intros q Hq. lia.
Qed.

Lemma squareDiff_one_iff :
  squareDiff b1 o1 b2 o2 rowStride = 1%Z <-> (MIN_SQDIFF < RS 64)%Z.
Proof.
  unfold squareDiff. pose proof squareDiff_run_spec as H.
  destruct (squareDiff_run b1 o1 b2 o2 rowStride) as [r s|s].
  - destruct H as [-> (p & Hp & [_ Hhi] & _)]. split; [intros _|reflexivity].
    pose proof (running_sum_mono (S p) 64 ltac:(lia)). lia.
  - destruct H as [Hlow _]. split; [discriminate|].
    intros Hgt. specialize (Hlow 63 ltac:(lia)). lia.
Qed.

Lemma squareDiff_zero_or_one :
  squareDiff b1 o1 b2 o2 rowStride = 0%Z \/ squareDiff b1 o1 b2 o2 rowStride = 1%Z.
Proof.
  unfold squareDiff. pose proof squareDiff_run_spec as H.
  destruct (squareDiff_run b1 o1 b2 o2 rowStride) as [r s|s]; [right; tauto|left; reflexivity].
Qed.

Lemma squareDiff_zero_iff :
  squareDiff b1 o1 b2 o2 rowStride = 0%Z <-> (RS 64 <= MIN_SQDIFF)%Z.
Proof.
  pose proof squareDiff_one_iff as H1. pose proof squareDiff_zero_or_one as H01.
  split; intros H.
  - destruct (Z_lt_le_dec MIN_SQDIFF (RS 64)) as [Hgt|Hle]; [|exact Hle].
    apply H1 in Hgt. congruence.
  - destruct H01 as [H0|H1']; [exact H0|]. apply H1 in H1'. lia.
Qed.

Lemma squareDiff_early_exit p :
  p < 64 -> first_over p ->
  squareDiff_run b1 o1 b2 o2 rowStride = Returned 1%Z (sq_at b1 o1 b2 o2 rowStride p).
Proof.
  intros Hp Hfirst. pose proof squareDiff_run_spec as H.
  destruct (squareDiff_run b1 o1 b2 o2 rowStride) as [r s|s].
  - destruct H as [-> (p' & _ & Hfirst' & ->)].
    rewrite (first_over_unique _ _ Hfirst Hfirst'). reflexivity.
  - destruct H as [Hlow _]. destruct Hfirst as [_ Hhi]. specialize (Hlow p Hp). lia.
Qed.

Lemma squareDiff_full_scan :
  (RS 64 <= MIN_SQDIFF)%Z ->
  squareDiff_run b1 o1 b2 o2 rowStride
  = Running (SqRegs (o1 + 8 * rowStride) (o2 + 8 * rowStride) (RS 64)).
Proof.
  intros Hle. pose proof squareDiff_run_spec as H.
  destruct (squareDiff_run b1 o1 b2 o2 rowStride) as [r s|s].
  - destruct H as [_ (p & Hp & [_ Hhi] & _)].
    pose proof (running_sum_mono (S p) 64 ltac:(lia)). lia.
  - destruct H as [_ ->]. reflexivity.
Qed.
End SquareDiff.

Lemma peek_lookup (buf : list Z) (p : nat) :
  p < length buf -> buf !! p = Some (peek buf p).
Proof.
  intros H. unfold peek. destruct (lookup_lt_is_Some_2 buf p H) as [v ->]. reflexivity.
Qed.

Lemma peek_ge (buf : list Z) (p : nat) : length buf <= p -> peek buf p = 0%Z.
Proof. intros H. unfold peek. rewrite (lookup_ge_None_2 buf p H). reflexivity. Qed.

Lemma peek_poke_eq (buf : list Z) (p : nat) (v : Z) :
  p < length buf -> peek (poke buf p v) p = v.
Proof. intros H. unfold peek, poke. rewrite list_lookup_insert_eq by exact H. reflexivity. Qed.

Lemma peek_poke_ne (buf : list Z) (p q : nat) (v : Z) :
  p <> q -> peek (poke buf p v) q = peek buf q.
Proof. intros H. unfold peek, poke. rewrite list_lookup_insert_ne by exact H. reflexivity. Qed.

Lemma length_poke (buf : list Z) (p : nat) (v : Z) : length (poke buf p v) = length buf.
Proof. apply length_insert. Qed.

Section Copy.
Variable src : list Z.

Lemma cp_pixels_spec n : forall m d s,
  d + 3 * n <= length m ->
  let r := Nat.iter n (cp_pixel src) (CpRegs m d s) in
  dstp r = d + 3 * n /\ srcp r = s + 3 * n /\ length (cp_mem r) = length m
  /\ (forall t, t < 3 * n -> peek (cp_mem r) (d + t) = peek src (s + t))
  /\ (forall k, k < d \/ d + 3 * n <= k -> peek (cp_mem r) k = peek m k).
Proof.
  induction n as [|n IH]; intros m d s Hlen; cbn zeta.
  - cbn [Nat.iter nat_rect dstp srcp cp_mem].
    split; [lia|]. split; [lia|]. split; [reflexivity|].
    split; intros; [lia|reflexivity].
  - rewrite Nat.iter_succ. destruct (IH m d s ltac:(lia)) as (Hd & Hs & Hl & Hin & Hout).
    set (r := Nat.iter n (cp_pixel src) (CpRegs m d s)) in *.
    unfold cp_pixel. cbn [dstp srcp cp_mem]. rewrite Hd, Hs.
    split; [lia|]. split; [lia|]. split; [rewrite !length_poke; exact Hl|].
    split.
    + intros t Ht.
      destruct (Nat.eq_dec t (3 * n + 2)) as [->|H2].
      { replace (d + (3 * n + 2)) with (d + 3 * n + 2) by lia.
        rewrite peek_poke_eq by (rewrite !length_poke; lia). f_equal. lia. }
      rewrite peek_poke_ne by lia.
      destruct (Nat.eq_dec t (3 * n + 1)) as [->|H1].
      { replace (d + (3 * n + 1)) with (d + 3 * n + 1) by lia.
        rewrite peek_poke_eq by (rewrite !length_poke; lia). f_equal. lia. }
      rewrite peek_poke_ne by lia.
      destruct (Nat.eq_dec t (3 * n)) as [->|H0].
      { rewrite peek_poke_eq by lia. reflexivity. }
      rewrite peek_poke_ne by lia. apply Hin. lia.
    + intros k Hk. rewrite !peek_poke_ne by lia. apply Hout. lia.
Qed.

Lemma cp_pixels_from n st :
  dstp st + 3 * n <= length (cp_mem st) ->
  dstp (Nat.iter n (cp_pixel src) st) = dstp st + 3 * n
  /\ srcp (Nat.iter n (cp_pixel src) st) = srcp st + 3 * n
  /\ length (cp_mem (Nat.iter n (cp_pixel src) st)) = length (cp_mem st)
  /\ (forall t, t < 3 * n ->
        peek (cp_mem (Nat.iter n (cp_pixel src) st)) (dstp st + t) = peek src (srcp st + t))
  /\ (forall k, k < dstp st \/ dstp st + 3 * n <= k ->
        peek (cp_mem (Nat.iter n (cp_pixel src) st)) k = peek (cp_mem st) k).
Proof. destruct st as [m d s]. apply cp_pixels_spec. Qed.

(** After [n] raster lines copied with destination pitch [24 + dskip] and
    source pitch [24 + sskip]. *)
Lemma cp_lines_spec dskip sskip n : forall m d s,
  (n = 0 \/ d + (n - 1) * (24 + dskip) + 24 <= length m) ->
  let r := Nat.iter n (cp_line dskip sskip src) (CpRegs m d s) in
  dstp r = d + n * (24 + dskip) /\ srcp r = s + n * (24 + sskip)
  /\ length (cp_mem r) = length m
  /\ (forall i t, i < n -> t < 24 ->
        peek (cp_mem r) (d + i * (24 + dskip) + t) = peek src (s + i * (24 + sskip) + t))
  /\ (forall k, (forall i t, i < n -> t < 24 -> k <> d + i * (24 + dskip) + t) ->
        peek (cp_mem r) k = peek m k).
Proof.
  induction n as [|n IH]; intros m d s Hlen; cbn zeta.
  - cbn [Nat.iter nat_rect dstp srcp cp_mem].
    split; [lia|]. split; [lia|]. split; [reflexivity|].
    split; intros; [lia|reflexivity].
  - rewrite Nat.iter_succ.
    assert (Hlen' : n = 0 \/ d + (n - 1) * (24 + dskip) + 24 <= length m).
    { destruct n; [left; reflexivity|right]. destruct Hlen as [?|Hlen]; [lia|]. nia. }
    specialize (IH m d s Hlen'). cbn zeta in IH.
    generalize dependent (Nat.iter n (cp_line dskip sskip src) (CpRegs m d s)).
    intros r (Hd & Hs & Hl & Hin & Hout).
    unfold cp_line.
    assert (Hfit : dstp r + 3 * 8 <= length (cp_mem r)).
    { rewrite Hd, Hl. destruct Hlen as [?|Hlen]; [lia|].
      replace (S n - 1) with n in Hlen by lia. lia. }
    pose proof (cp_pixels_from 8 r Hfit) as Hpx.
    generalize dependent (Nat.iter 8 (cp_pixel src) r).
    intros r' (Hd' & Hs' & Hl' & Hin' & Hout').
    cbn [dstp srcp cp_mem].
    split; [lia|]. split; [lia|]. split; [lia|]. split.
    + intros i t Hi Ht. destruct (Nat.eq_dec i n) as [->|Hne].
      * rewrite <- Hd, <- Hs. apply Hin'. lia.
      * rewrite Hout'; [apply Hin; lia|]. rewrite Hd. left.
        pose proof (Nat.mul_le_mono_r (S i) n (24 + dskip) ltac:(lia)). lia.
    + intros k Hk. rewrite Hout'.
      * apply Hout. intros i t Hi Ht. apply Hk; lia.
      * rewrite Hd.
        destruct (Nat.lt_ge_cases k (d + n * (24 + dskip))) as [Hlt|Hge]; [left; exact Hlt|].
        right.
        destruct (Nat.lt_ge_cases k (d + n * (24 + dskip) + 3 * 8)) as [Hlt'|Hge'];
          [|exact Hge'].
        exfalso. apply (Hk n (k - (d + n * (24 + dskip)))); lia.
Qed.
End Copy.

Lemma length_block_bytes buf o rowStride : length (block_bytes buf o rowStride) = 192.
Proof. unfold block_bytes. rewrite length_map, length_seq. reflexivity. Qed.

Lemma lookup_block_bytes buf o rowStride k :
  k < 192 ->
  block_bytes buf o rowStride !! k = Some (peek buf (o + (k / 24) * rowStride + k mod 24)).
Proof.
  intros Hk. unfold block_bytes. rewrite list_lookup_fmap.
  rewrite lookup_seq_lt by exact Hk. reflexivity.
Qed.

Section Squares.
Variables (dst : list Z) (d : nat) (src : list Z) (s rowStride : nat).
Hypothesis stride_ok : 8 * 3 <= rowStride.

Lemma copySquare_spec :
  d + 7 * rowStride + 24 <= length dst ->
  length (copySquare dst d src s rowStride) = length dst
  /\ (forall i t, i < 8 -> t < 24 ->
        peek (copySquare dst d src s rowStride) (d + i * rowStride + t)
        = peek src (s + i * rowStride + t))
  /\ (forall k, (forall i t, i < 8 -> t < 24 -> k <> d + i * rowStride + t) ->
        peek (copySquare dst d src s rowStride) k = peek dst k).
Proof.
  intros Hlen. unfold copySquare.
  destruct (cp_lines_spec src (rowStride - 8 * 3) (rowStride - 8 * 3) 8 dst d s)
    as (_ & _ & Hl & Hin & Hout).
  { right. lia. }
  replace (24 + (rowStride - 8 * 3)) with rowStride in * by lia.
  split; [exact Hl|]. split; [exact Hin|exact Hout].
Qed.

Lemma putSquare_spec :
  d + 192 <= length dst ->
  length (putSquare dst d src s rowStride) = length dst
  /\ (forall i t, i < 8 -> t < 24 ->
        peek (putSquare dst d src s rowStride) (d + 24 * i + t)
        = peek src (s + i * rowStride + t))
  /\ (forall k, k < d \/ d + 192 <= k ->
        peek (putSquare dst d src s rowStride) k = peek dst k).
Proof.
  intros Hlen. unfold putSquare.
  destruct (cp_lines_spec src 0 (rowStride - 8 * 3) 8 dst d s)
    as (_ & _ & Hl & Hin & Hout).
  { right. lia. }
  replace (24 + (rowStride - 8 * 3)) with rowStride in * by lia.
  split; [exact Hl|]. split.
  - intros i t Hi Ht. specialize (Hin i t Hi Ht).
    replace (d + i * (24 + 0) + t) with (d + 24 * i + t) in Hin by lia. exact Hin.
  - intros k Hk. apply Hout. intros i t Hi Ht. lia.
Qed.

(** The packed destination as a list: the block is spliced in at [d]. *)
Lemma putSquare_splice :
  d + 192 <= length dst ->
  putSquare dst d src s rowStride
  = take d dst ++ block_bytes src s rowStride ++ drop (d + 192) dst.
Proof.
  intros Hlen. destruct (putSquare_spec Hlen) as (Hl & Hin & Hout).
  apply list_eq. intros k.
  destruct (Nat.lt_ge_cases k (length dst)) as [Hk|Hk].
  - rewrite peek_lookup by lia.
    destruct (Nat.lt_ge_cases k d) as [Hkd|Hkd].
    + rewrite lookup_app_l by (rewrite length_take; lia).
      rewrite lookup_take, decide_True by lia.
      rewrite Hout by lia. symmetry. apply peek_lookup. lia.
    + rewrite lookup_app_r by (rewrite length_take; lia).
      rewrite length_take, Nat.min_l by lia.
      destruct (Nat.lt_ge_cases k (d + 192)) as [Hkb|Hkb].
      * rewrite lookup_app_l by (rewrite length_block_bytes; lia).
        rewrite lookup_block_bytes by lia.
        replace k with (d + 24 * ((k - d) / 24) + (k - d) mod 24) at 1 by lia.
        rewrite Hin by lia. reflexivity.
      * rewrite lookup_app_r by (rewrite length_block_bytes; lia).
        rewrite length_block_bytes, lookup_drop.
        replace (d + 192 + (k - d - 192)) with k by lia.
        rewrite Hout by lia. symmetry. apply peek_lookup. lia.
  - rewrite lookup_ge_None_2 by lia. symmetry. apply lookup_ge_None_2.
    rewrite !length_app, length_take, length_block_bytes, length_drop. lia.
Qed.
End Squares.

(** [squareDiff] looks at nothing but the 192 bytes of each block. *)
Lemma running_sum_ext b1 b1' o1 b2 b2' o2 rowStride n :
  n <= 64 ->
  (forall i t, i < 8 -> t < 24 ->
     peek b1 (o1 + i * rowStride + t) = peek b1' (o1 + i * rowStride + t)) ->
  (forall i t, i < 8 -> t < 24 ->
     peek b2 (o2 + i * rowStride + t) = peek b2' (o2 + i * rowStride + t)) ->
  running_sum b1 o1 b2 o2 rowStride n = running_sum b1' o1 b2' o2 rowStride n.
Proof.
  intros Hn H1 H2. induction n as [|n IH]; [reflexivity|].
  cbn [running_sum]. rewrite IH by lia. f_equal.
  unfold px_diff, px_addr, cell.
  assert (Hq : n / 8 < 8) by lia. assert (Hr : n mod 8 < 8) by lia.
  pose proof (H1 (n / 8) (3 * (n mod 8)) Hq ltac:(lia)) as A0.
  pose proof (H1 (n / 8) (3 * (n mod 8) + 1) Hq ltac:(lia)) as A1.
  pose proof (H1 (n / 8) (3 * (n mod 8) + 2) Hq ltac:(lia)) as A2.
  pose proof (H2 (n / 8) (3 * (n mod 8)) Hq ltac:(lia)) as B0.
  pose proof (H2 (n / 8) (3 * (n mod 8) + 1) Hq ltac:(lia)) as B1.
  pose proof (H2 (n / 8) (3 * (n mod 8) + 2) Hq ltac:(lia)) as B2.
  rewrite !Nat.add_assoc in *. rewrite A0, A1, A2, B0, B1, B2. reflexivity.
Qed.

Lemma squareDiff_ext b1 b1' o1 b2 b2' o2 rowStride :
  8 * 3 <= rowStride ->
  (forall i t, i < 8 -> t < 24 ->
     peek b1 (o1 + i * rowStride + t) = peek b1' (o1 + i * rowStride + t)) ->
  (forall i t, i < 8 -> t < 24 ->
     peek b2 (o2 + i * rowStride + t) = peek b2' (o2 + i * rowStride + t)) ->
  squareDiff b1 o1 b2 o2 rowStride = squareDiff b1' o1 b2' o2 rowStride.
Proof.
  intros Hrs H1 H2.
  pose proof (running_sum_ext b1 b1' o1 b2 b2' o2 rowStride 64 (le_n _) H1 H2) as Hsum.
  pose proof (squareDiff_one_iff b1 b2 o1 o2 rowStride Hrs) as Ha.
  pose proof (squareDiff_one_iff b1' b2' o1 o2 rowStride Hrs) as Hb.
  destruct (squareDiff_zero_or_one b1 b2 o1 o2 rowStride Hrs) as [E|E];
    destruct (squareDiff_zero_or_one b1' b2' o1 o2 rowStride Hrs) as [E'|E'];
    rewrite E, E'; try reflexivity; exfalso.
  - apply Hb in E'. rewrite <- Hsum in E'. apply Ha in E'. congruence.
  - apply Ha in E. rewrite Hsum in E. apply Hb in E. congruence.
Qed.

Lemma done_blocks_snoc bw r c :
  done_blocks bw r (S c) = done_blocks bw r c ++ [(r, c)].
Proof.
  unfold done_blocks. rewrite seq_S, map_app, app_assoc. reflexivity.
Qed.

Lemma done_blocks_row bw r : done_blocks bw (S r) 0 = done_blocks bw r bw.
Proof.
  unfold done_blocks. rewrite seq_S, flat_map_app. cbn [flat_map map seq Nat.add].
  rewrite !app_nil_r. reflexivity.
Qed.

Lemma length_done_blocks bw r c : length (done_blocks bw r c) = r * bw + c.
Proof.
  unfold done_blocks. rewrite length_app, length_map, length_seq. f_equal.
  induction r as [|r IH]; [reflexivity|].
  rewrite seq_S, flat_map_app, length_app, IH. cbn [flat_map Nat.add].
  rewrite app_nil_r, length_map, length_seq. lia.
Qed.

Lemma length_packed cur width l : length (packed cur width l) = 192 * length l.
Proof.
  unfold packed. induction l as [|b l IH]; [reflexivity|].
  cbn [flat_map]. rewrite length_app, length_block_bytes, IH. cbn [length]. lia.
Qed.

Lemma length_dirty_among prev cur width l :
  length (dirty_among prev cur width l) <= length l.
Proof. unfold dirty_among. apply List.filter_length_le. Qed.

Lemma mul_add_inj bw x1 c1 x2 c2 :
  c1 < bw -> c2 < bw -> x1 * bw + c1 = x2 * bw + c2 -> x1 = x2 /\ c1 = c2.
Proof.
  intros H1 H2 H. destruct (Nat.lt_trichotomy x1 x2) as [Hlt|[Heq|Hgt]]; [nia| |nia].
  subst x2. split; [reflexivity|lia].
Qed.

Lemma lin_index_lt bw bh r c : r < bh -> c < bw -> r * bw + c < bh * bw.
Proof. intros Hr Hc. nia. Qed.

Lemma before_index bw r' c' r c :
  c' < bw -> before r' c' r c = true -> r' * bw + c' < r * bw + c.
Proof.
  unfold before. intros Hc H.
  apply orb_true_iff in H as [H|H].
  - apply Nat.ltb_lt in H. nia.
  - apply andb_true_iff in H as [H1 H2].
    apply Nat.eqb_eq in H1. apply Nat.ltb_lt in H2. subst. lia.
Qed.

Lemma bit_set x m k :
  m < 8 -> k < 8 ->
  Z.testbit (to_uchar (Z.lor x (2 ^ Z.of_nat m))) (Z.of_nat k)
  = Z.testbit x (Z.of_nat k) || (k =? m).
Proof.
  intros Hm Hk. unfold to_uchar. change 256%Z with (2 ^ 8)%Z.
  rewrite Z.mod_pow2_bits_low by lia.
  rewrite Z.lor_spec, Z.pow2_bits_eqb by lia. f_equal.
  destruct (Nat.eqb_spec k m) as [->|Hne]; [apply Z.eqb_refl|]. apply Z.eqb_neq. lia.
Qed.

Lemma bit_clear x m k :
  m < 8 -> k < 8 ->
  Z.testbit (to_uchar (Z.land x (Z.lnot (2 ^ Z.of_nat m)))) (Z.of_nat k)
  = Z.testbit x (Z.of_nat k) && negb (k =? m).
Proof.
  intros Hm Hk. unfold to_uchar. change 256%Z with (2 ^ 8)%Z.
  rewrite Z.mod_pow2_bits_low by lia.
  rewrite Z.land_spec, Z.lnot_spec, Z.pow2_bits_eqb by lia. do 2 f_equal.
  destruct (Nat.eqb_spec k m) as [->|Hne]; [apply Z.eqb_refl|]. apply Z.eqb_neq. lia.
Qed.

Section ImageDiff.
Variables (prev buf0 map0 cur : list Z) (bw bh : nat).

#[local] Abbreviation width := (8 * bw).
#[local] Abbreviation rs := (8 * bw * 3).
#[local] Abbreviation off := (block_off (8 * bw)).
#[local] Abbreviation dirty_done r c :=
  (dirty_among prev cur (8 * bw) (done_blocks bw r c)).

Hypothesis bw_pos : 0 < bw.
Hypothesis prev_size : length prev = 8 * bw * (8 * bh) * 3.
Hypothesis buf_size : 8 * 8 * 3 * (bh * bw) <= length buf0.
Hypothesis map_size : bh * bw <= 8 * length map0.

#[local] Abbreviation scan_inv := (scan_inv prev buf0 map0 cur bw).

Lemma block_addr_inj r1 c1 i1 t1 r2 c2 i2 t2 :
  c1 < bw -> c2 < bw -> i1 < 8 -> i2 < 8 -> t1 < 24 -> t2 < 24 ->
  off r1 c1 + i1 * rs + t1 = off r2 c2 + i2 * rs + t2 ->
  r1 = r2 /\ c1 = c2 /\ i1 = i2 /\ t1 = t2.
Proof.
  unfold block_off. intros Hc1 Hc2 Hi1 Hi2 Ht1 Ht2 H.
  assert (Hx : (8 * r1 + i1) * bw + c1 = (8 * r2 + i2) * bw + c2) by lia.
  apply mul_add_inj in Hx as [Hx Hc]; [|assumption|assumption]. lia.
Qed.

Lemma scan_inv_init : scan_inv 0 0 (IdRegs prev buf0 map0 0 0 1%Z 0 0).
Proof.
  constructor; cbn [lPtr cPtr id_last id_buf id_map numSqDiff mapPos mapMask];
    try reflexivity.
  - intros r' c' i t _ _ _. unfold before.
    replace (r' <? 0) with false by (symmetry; apply Nat.ltb_ge; lia).
    replace (c' <? 0) with false by (symmetry; apply Nat.ltb_ge; lia).
    rewrite andb_false_r. reflexivity.
  - intros r' c' _ H. unfold before in H.
    replace (r' <? 0) with false in H by (symmetry; apply Nat.ltb_ge; lia).
    replace (c' <? 0) with false in H by (symmetry; apply Nat.ltb_ge; lia).
    rewrite andb_false_r in H. discriminate.
Qed.

Lemma before_succ r' c' r c :
  before r' c' r (S c) = before r' c' r c || ((r' =? r) && (c' =? c)).
Proof.
  unfold before.
  destruct (Nat.ltb_spec r' r), (Nat.eqb_spec r' r), (Nat.ltb_spec c' (S c)),
    (Nat.ltb_spec c' c), (Nat.eqb_spec c' c); cbn; try reflexivity; lia.
Qed.

Lemma before_row r' c' r :
  c' < bw -> before r' c' (S r) 0 = before r' c' r bw.
Proof.
  intros Hc. unfold before.
  destruct (Nat.ltb_spec r' (S r)), (Nat.eqb_spec r' (S r)), (Nat.ltb_spec c' 0),
    (Nat.ltb_spec r' r), (Nat.eqb_spec r' r), (Nat.ltb_spec c' bw); cbn;
    try reflexivity; lia.
Qed.

Lemma before_irrefl r c : before r c r c = false.
Proof.
  unfold before. rewrite !Nat.ltb_irrefl, andb_false_r. reflexivity.
Qed.

(** The block under the cursors has not been touched yet, so the test made
    on the working copy of [lastImage] is the test on [prev]. *)
Lemma scan_inv_squareDiff r c s :
  scan_inv r c s -> c < bw ->
  negb (squareDiff (id_last s) (lPtr s) cur (cPtr s) rs =? 0)%Z = dirty prev cur width r c.
Proof.
  intros I Hc. unfold dirty. rewrite (inv_lptr _ _ _ _ _ _ _ _ I), (inv_cptr _ _ _ _ _ _ _ _ I).
  f_equal. f_equal. apply squareDiff_ext; [lia| |reflexivity].
  intros i t Hi Ht. rewrite (inv_last _ _ _ _ _ _ _ _ I) by assumption.
  rewrite before_irrefl. reflexivity.
Qed.

Lemma mask_step idx :
  (if (2 ^ Z.of_nat (idx mod 8) =? 128)%Z then idx / 8 + 1 else idx / 8) = S idx / 8
  /\ (if (2 ^ Z.of_nat (idx mod 8) =? 128)%Z then 1%Z
      else Z.shiftl (2 ^ Z.of_nat (idx mod 8)) 1) = (2 ^ Z.of_nat (S idx mod 8))%Z.
Proof.
  assert (Hm : idx mod 8 < 8) by lia.
  assert (Hq : S idx / 8 = if idx mod 8 =? 7 then idx / 8 + 1 else idx / 8)
    by (destruct (Nat.eqb_spec (idx mod 8) 7); lia).
  assert (Hr : S idx mod 8 = if idx mod 8 =? 7 then 0 else S (idx mod 8))
    by (destruct (Nat.eqb_spec (idx mod 8) 7); lia).
  rewrite Hq, Hr. generalize dependent (idx mod 8). intros m Hm _ _.
  do 8 (destruct m as [|m]; [split; reflexivity|]). lia.
Qed.

Lemma id_block_eq s :
  let d := negb (squareDiff (id_last s) (lPtr s) cur (cPtr s) rs =? 0)%Z in
  let old := peek (id_map s) (mapPos s) in
  id_block cur rs s
  = IdRegs (if d then copySquare (id_last s) (lPtr s) cur (cPtr s) rs else id_last s)
           (if d then putSquare (id_buf s) (8 * 8 * 3 * numSqDiff s) cur (cPtr s) rs
            else id_buf s)
           (poke (id_map s) (mapPos s)
                 (to_uchar (if d then Z.lor old (mapMask s)
                            else Z.land old (Z.lnot (mapMask s)))))
           (if d then S (numSqDiff s) else numSqDiff s)
           (if (mapMask s =? 128)%Z then mapPos s + 1 else mapPos s)
           (if (mapMask s =? 128)%Z then 1%Z else Z.shiftl (mapMask s) 1)
           (lPtr s + 8 * 3) (cPtr s + 8 * 3).
Proof.
  cbn zeta. unfold id_block.
  destruct (negb (squareDiff (id_last s) (lPtr s) cur (cPtr s) rs =? 0)%Z);
    cbn [id_last id_buf id_map numSqDiff mapPos mapMask lPtr cPtr];
    destruct (mapMask s =? 128)%Z; reflexivity.
Qed.

Lemma dirty_done_snoc r c :
  dirty_done r (S c)
  = dirty_done r c ++ (if dirty prev cur width r c then [(r, c)] else []).
Proof.
  unfold dirty_among. rewrite done_blocks_snoc, List.filter_app.
  cbn [List.filter fst snd]. destruct (dirty prev cur width r c); reflexivity.
Qed.

Section Step.
Variables (r c : nat) (s : id_regs).
Hypothesis I : scan_inv r c s.
Hypothesis Hr : r < bh.
Hypothesis Hc : c < bw.

Lemma step_index : r * bw + c < bh * bw /\ r * bw + bw <= bh * bw.
Proof. split; nia. Qed.

Lemma step_count : numSqDiff s <= r * bw + c.
Proof.
  rewrite (inv_count _ _ _ _ _ _ _ _ I), <- (length_done_blocks bw r c).
  apply length_dirty_among.
Qed.

Lemma step_block_fits : off r c + 7 * rs + 24 <= length (id_last s).
Proof.
  rewrite (inv_last_len _ _ _ _ _ _ _ _ I), prev_size. unfold block_off.
  destruct step_index as [_ H]. lia.
Qed.

Lemma step_pack_fits : 8 * 8 * 3 * numSqDiff s + 192 <= length (id_buf s).
Proof.
  rewrite (inv_buf_len _ _ _ _ _ _ _ _ I). pose proof step_count as Hn.
  destruct step_index as [H _]. lia.
Qed.

Lemma step_last r' c' i t :
  c' < bw -> i < 8 -> t < 24 ->
  peek (if dirty prev cur width r c
        then copySquare (id_last s) (off r c) cur (off r c) rs else id_last s)
       (off r' c' + i * rs + t)
  = if before r' c' r (S c) && dirty prev cur width r' c'
    then peek cur (off r' c' + i * rs + t)
    else peek prev (off r' c' + i * rs + t).
Proof.
  intros Hc' Hi Ht. rewrite before_succ.
  destruct (copySquare_spec (id_last s) (off r c) cur (off r c) rs ltac:(lia) step_block_fits)
    as (_ & Hin & Hout).
  destruct (Nat.eqb_spec r' r) as [->|Hnr]; [destruct (Nat.eqb_spec c' c) as [->|Hnc]|].
  - rewrite before_irrefl. cbn [orb andb].
    destruct (dirty prev cur width r c).
    + apply Hin; assumption.
    + rewrite (inv_last _ _ _ _ _ _ _ _ I) by assumption. rewrite before_irrefl. reflexivity.
  - cbn [andb]. rewrite orb_false_r.
    rewrite <- (inv_last _ _ _ _ _ _ _ _ I) by assumption.
    destruct (dirty prev cur width r c); [|reflexivity].
    apply Hout. intros i2 t2 Hi2 Ht2 E.
    apply block_addr_inj in E; try assumption. lia.
  - cbn [andb]. rewrite orb_false_r.
    rewrite <- (inv_last _ _ _ _ _ _ _ _ I) by assumption.
    destruct (dirty prev cur width r c); [|reflexivity].
    apply Hout. intros i2 t2 Hi2 Ht2 E.
    apply block_addr_inj in E; try assumption. lia.
Qed.

Lemma step_buf :
  let d := dirty prev cur width r c in
  take (192 * (if d then S (numSqDiff s) else numSqDiff s))
       (if d then putSquare (id_buf s) (8 * 8 * 3 * numSqDiff s) cur (off r c) rs
        else id_buf s)
  = packed cur width (dirty_done r (S c)).
Proof.
  cbn zeta. rewrite dirty_done_snoc. unfold packed. rewrite flat_map_app.
  fold (packed cur width (dirty_done r c)). rewrite <- (inv_buf _ _ _ _ _ _ _ _ I).
  destruct (dirty prev cur width r c).
  - cbn [flat_map fst snd]. rewrite app_nil_r.
    rewrite putSquare_splice by (try apply step_pack_fits; lia).
    rewrite app_assoc. apply take_app_length'.
    rewrite length_app, length_take, length_block_bytes.
    pose proof step_pack_fits. lia.
  - cbn [flat_map]. rewrite app_nil_r. reflexivity.
Qed.

Lemma step_bits r' c' :
  let d := dirty prev cur width r c in
  c' < bw -> before r' c' r (S c) = true ->
  map_bit (poke (id_map s) (mapPos s)
                (to_uchar (if d then Z.lor (peek (id_map s) (mapPos s)) (mapMask s)
                           else Z.land (peek (id_map s) (mapPos s)) (Z.lnot (mapMask s)))))
          (r' * bw + c')
  = dirty prev cur width r' c'.
Proof.
  cbn zeta. intros Hc' Hb. rewrite before_succ in Hb.
  rewrite (inv_pos _ _ _ _ _ _ _ _ I), (inv_mask _ _ _ _ _ _ _ _ I).
  assert (Hpos : (r * bw + c) / 8 < length (id_map s)).
  { rewrite (inv_map_len _ _ _ _ _ _ _ _ I). destruct step_index as [H _]. lia. }
  assert (Hm : (r * bw + c) mod 8 < 8) by lia.
  assert (Hm' : (r' * bw + c') mod 8 < 8) by lia.
  unfold map_bit.
  destruct (before r' c' r c) eqn:Eb.
  - pose proof (before_index bw _ _ _ _ Hc' Eb) as Hlt.
    rewrite <- (inv_bits _ _ _ _ _ _ _ _ I r' c' Hc' Eb). unfold map_bit.
    destruct (Nat.eq_dec ((r' * bw + c') / 8) ((r * bw + c) / 8)) as [E|E].
    + rewrite E, peek_poke_eq by exact Hpos.
      assert (Hne : ((r' * bw + c') mod 8 =? (r * bw + c) mod 8) = false)
        by (apply Nat.eqb_neq; lia).
      destruct (dirty prev cur width r c).
      * rewrite bit_set by assumption. rewrite Hne, orb_false_r. reflexivity.
      * rewrite bit_clear by assumption. rewrite Hne, andb_true_r. reflexivity.
    + rewrite peek_poke_ne by (intros E'; apply E; symmetry; exact E'). reflexivity.
  - cbn [orb] in Hb. apply andb_true_iff in Hb as [Hb1 Hb2].
    apply Nat.eqb_eq in Hb1. apply Nat.eqb_eq in Hb2. subst r' c'.
    rewrite peek_poke_eq by exact Hpos.
    destruct (dirty prev cur width r c).
    + rewrite bit_set by assumption. rewrite Nat.eqb_refl, orb_true_r. reflexivity.
    + rewrite bit_clear by assumption. rewrite Nat.eqb_refl, andb_false_r. reflexivity.
Qed.

Lemma scan_inv_step : scan_inv r (S c) (id_block cur rs s).
Proof.
  pose proof (id_block_eq s) as E. cbn zeta in E.
  rewrite (scan_inv_squareDiff r c s I Hc) in E. rewrite E. clear E.
  rewrite (inv_lptr _ _ _ _ _ _ _ _ I), (inv_cptr _ _ _ _ _ _ _ _ I).
  destruct (mask_step (r * bw + c)) as [Hp Hm].
  constructor; cbn [lPtr cPtr id_last id_buf id_map numSqDiff mapPos mapMask].
  - unfold block_off. lia.
  - unfold block_off. lia.
  - destruct (dirty prev cur width r c); [|apply (inv_last_len _ _ _ _ _ _ _ _ I)].
    rewrite <- (inv_last_len _ _ _ _ _ _ _ _ I).
    apply copySquare_spec; [lia|apply step_block_fits].
  - destruct (dirty prev cur width r c); [|apply (inv_buf_len _ _ _ _ _ _ _ _ I)].
    rewrite <- (inv_buf_len _ _ _ _ _ _ _ _ I).
    apply putSquare_spec; [lia|apply step_pack_fits].
  - rewrite length_poke. apply (inv_map_len _ _ _ _ _ _ _ _ I).
  - rewrite dirty_done_snoc, length_app, <- (inv_count _ _ _ _ _ _ _ _ I).
    destruct (dirty prev cur width r c); cbn [length]; lia.
  - rewrite (inv_mask _ _ _ _ _ _ _ _ I), (inv_pos _ _ _ _ _ _ _ _ I).
    replace (r * bw + S c) with (S (r * bw + c)) by lia. exact Hp.
  - rewrite (inv_mask _ _ _ _ _ _ _ _ I).
    replace (r * bw + S c) with (S (r * bw + c)) by lia. exact Hm.
  - apply step_last.
  - apply step_buf.
  - apply step_bits.
Qed.
End Step.

Lemma scan_blocks r s n :
  r < bh -> n <= bw -> scan_inv r 0 s ->
  scan_inv r n (Nat.iter n (id_block cur rs) s).
Proof.
  intros Hr Hn I0. induction n as [|n IH]; [exact I0|].
  rewrite Nat.iter_succ. apply scan_inv_step; [apply IH; lia|exact Hr|lia].
Qed.

Lemma scan_row r s :
  r < bh -> scan_inv r 0 s -> scan_inv (S r) 0 (id_row cur width rs s).
Proof.
  intros Hr I0. unfold id_row.
  replace ((width + 7) / 8) with bw by lia.
  pose proof (scan_blocks r s bw Hr (le_n _) I0) as I.
  set (s' := Nat.iter bw (id_block cur rs) s) in *.
  constructor; cbn [lPtr cPtr id_last id_buf id_map numSqDiff mapPos mapMask].
  - rewrite (inv_lptr _ _ _ _ _ _ _ _ I). unfold block_off. lia.
  - rewrite (inv_cptr _ _ _ _ _ _ _ _ I). unfold block_off. lia.
  - apply (inv_last_len _ _ _ _ _ _ _ _ I).
  - apply (inv_buf_len _ _ _ _ _ _ _ _ I).
  - apply (inv_map_len _ _ _ _ _ _ _ _ I).
  - rewrite done_blocks_row. apply (inv_count _ _ _ _ _ _ _ _ I).
  - rewrite (inv_pos _ _ _ _ _ _ _ _ I). f_equal. lia.
  - rewrite (inv_mask _ _ _ _ _ _ _ _ I). do 3 f_equal. lia.
  - intros r' c' i t Hc' Hi Ht. rewrite before_row by exact Hc'.
    apply (inv_last _ _ _ _ _ _ _ _ I); assumption.
  - rewrite done_blocks_row. apply (inv_buf _ _ _ _ _ _ _ _ I).
  - intros r' c' Hc' Hb. rewrite before_row in Hb by exact Hc'.
    apply (inv_bits _ _ _ _ _ _ _ _ I); assumption.
Qed.

Lemma scan_rows m :
  m <= bh ->
  scan_inv m 0 (Nat.iter m (id_row cur width rs) (IdRegs prev buf0 map0 0 0 1%Z 0 0)).
Proof.
  intros Hm. induction m as [|m IH]; [apply scan_inv_init|].
  rewrite Nat.iter_succ. apply scan_row; [lia|apply IH; lia].
Qed.

Lemma imageDiff_run_inv :
  scan_inv bh 0 (imageDiff_run prev buf0 map0 cur width (8 * bh)).
Proof.
  unfold imageDiff_run. replace ((8 * bh + 7) / 8) with bh by lia.
  apply scan_rows. apply le_n.
Qed.

Lemma before_end r c : r < bh -> before r c bh 0 = true.
Proof.
  intros Hr. unfold before. apply orb_true_iff. left. apply Nat.ltb_lt. exact Hr.
Qed.
End ImageDiff.

(** The count returned by [imageDiff] never exceeds the number of blocks,
    so for the 1200 blocks of the fixed resolution it stays far inside the
    range of the [int16_t] that holds it in the source. *)
Lemma imageDiff_count_le prev buf map cur bw bh :
  0 < bw -> length prev = 8 * bw * (8 * bh) * 3 ->
  8 * 8 * 3 * (bh * bw) <= length buf -> bh * bw <= 8 * length map ->
  imageDiff prev buf map cur (8 * bw) (8 * bh) <= bh * bw.
Proof.
  intros Hbw Hp Hb Hm.
  pose proof (imageDiff_run_inv prev buf map cur bw bh Hbw Hp Hb Hm) as I.
  unfold imageDiff. rewrite (inv_count _ _ _ _ _ _ _ _ I).
  etransitivity; [apply length_dirty_among|].
  rewrite length_done_blocks. lia.
Qed.


(** ** The checkerboard loop *)

Lemma c_not_skip_of n : c_not (skip_of n) = skip_of (S n).
Proof.
  unfold skip_of, c_not. rewrite Nat.even_succ, <- Nat.negb_even.
  destruct (Nat.even n); reflexivity.
Qed.

Lemma skip_of_zero_iff n : (c_not (skip_of n) =? 0)%Z = negb (Nat.even n).
Proof. unfold skip_of, c_not. destruct (Nat.even n); reflexivity. Qed.

Lemma sampled_cols_succ c j n :
  sampled_cols c j (S n) = sampled_cols c j n ++ (if sampled c j n then [n] else []).
Proof.
  unfold sampled_cols. rewrite seq_S, List.filter_app. cbn [List.filter Nat.add].
  destruct (sampled c j n); reflexivity.
Qed.

Lemma pixels_at_app frame width l1 l2 :
  pixels_at frame width (l1 ++ l2) = pixels_at frame width l1 ++ pixels_at frame width l2.
Proof. unfold pixels_at. apply flat_map_app. Qed.

Lemma ck_pixels_spec frame width c j n out :
  Nat.iter n (ck_pixel frame) (CkRegs out (3 * (j * width)) (skip_of (c + j)))
  = CkRegs (out ++ pixels_at frame width (map (pair j) (sampled_cols c j n)))
           (3 * (j * width) + 3 * n) (skip_of (c + j + n)).
Proof.
  induction n as [|n IH].
  - cbn [Nat.iter nat_rect]. unfold sampled_cols. cbn [seq List.filter map pixels_at flat_map].
    rewrite app_nil_r. f_equal; [lia|f_equal; lia].
  - rewrite Nat.iter_succ, IH. unfold ck_pixel. cbn [ck_out ck_in ck_skip].
    rewrite skip_of_zero_iff, c_not_skip_of, sampled_cols_succ, map_app, pixels_at_app.
    fold (sampled c j n).
    replace (S (c + j + n)) with (c + j + S n) by lia.
    replace (3 * (j * width) + 3 * n + 3) with (3 * (j * width) + 3 * S n) by lia.
    destruct (sampled c j n); cbn [negb].
    + f_equal. rewrite <- app_assoc. f_equal. f_equal.
      cbn [map pixels_at flat_map fst snd]. rewrite app_nil_r. unfold pixel_at.
      replace (3 * (j * width + n)) with (3 * (j * width) + 3 * n) by lia. reflexivity.
    + cbn [map pixels_at flat_map]. rewrite app_nil_r. reflexivity.
Qed.

Lemma skip_of_even_shift n w : Nat.even w = true -> skip_of (n + w) = skip_of n.
Proof.
  intros H. unfold skip_of. rewrite Nat.even_add, H. destruct (Nat.even n); reflexivity.
Qed.

Lemma sampled_positions_succ c width m :
  sampled_positions c width (S m)
  = sampled_positions c width m ++ map (pair m) (sampled_cols c m width).
Proof.
  unfold sampled_positions. rewrite seq_S, flat_map_app. cbn [flat_map Nat.add].
  rewrite app_nil_r. reflexivity.
Qed.

Lemma ck_lines_spec frame width c m :
  Nat.even width = true ->
  Nat.iter m (ck_line frame width) (CkRegs [] 0 (skip_of c))
  = CkRegs (pixels_at frame width (sampled_positions c width m))
           (3 * (m * width)) (skip_of (c + m)).
Proof.
  intros Hw. induction m as [|m IH].
  - cbn [Nat.iter nat_rect]. replace (c + 0) with c by lia. reflexivity.
  - rewrite Nat.iter_succ, IH. unfold ck_line.
    rewrite ck_pixels_spec. cbn [ck_out ck_in ck_skip].
    rewrite c_not_skip_of, sampled_positions_succ, pixels_at_app.
    f_equal; [lia|].
    replace (S (c + m + width)) with (c + S m + width) by lia.
    apply skip_of_even_shift. exact Hw.
Qed.

Lemma checker_sample_spec frame width height c :
  Nat.even width = true ->
  checker_sample frame width height (skip_of c)
  = pixels_at frame width (sampled_positions c width height).
Proof. intros Hw. unfold checker_sample. rewrite ck_lines_spec by exact Hw. reflexivity. Qed.

Lemma sampled_flip c j i : sampled (S c) j i = negb (sampled c j i).
Proof. unfold sampled. cbn [Nat.add]. rewrite Nat.even_succ, <- Nat.negb_even. reflexivity. Qed.

Lemma sampled_next c j i : sampled c j (S i) = negb (sampled c j i).
Proof.
  unfold sampled. replace (c + j + S i) with (S (c + j + i)) by lia.
  rewrite Nat.even_succ, <- Nat.negb_even. reflexivity.
Qed.

Lemma length_sampled_cols c j n : length (sampled_cols c j (2 * n)) = n.
Proof.
  induction n as [|n IH]; [reflexivity|].
  replace (2 * S n) with (S (S (2 * n))) by lia.
  rewrite !sampled_cols_succ, !length_app, IH, sampled_next.
  destruct (sampled c j (2 * n)); cbn [negb length]; lia.
Qed.

Lemma elem_of_sampled_cols c j n i :
  In i (sampled_cols c j n) <-> i < n /\ sampled c j i = true.
Proof.
  unfold sampled_cols. rewrite List.filter_In, in_seq. split; intros [H1 H2]; split; auto; lia.
Qed.

Lemma elem_of_sampled_positions c width height j i :
  In (j, i) (sampled_positions c width height)
  <-> j < height /\ i < width /\ sampled c j i = true.
Proof.
  unfold sampled_positions. rewrite in_flat_map. split.
  - intros (j' & Hj & Hin). apply in_map_iff in Hin as (i' & E & Hi).
    inversion E; subst. apply in_seq in Hj. apply elem_of_sampled_cols in Hi as [Hi Hs].
    split; [lia|]. split; assumption.
  - intros (Hj & Hi & Hs). exists j. split; [apply in_seq; lia|].
    apply in_map. apply elem_of_sampled_cols. split; assumption.
Qed.

Lemma NoDup_sampled_cols c j n : List.NoDup (sampled_cols c j n).
Proof. unfold sampled_cols. apply List.NoDup_filter, seq_NoDup. Qed.

Lemma NoDup_sampled_positions c width height : List.NoDup (sampled_positions c width height).
Proof.
  induction height as [|m IH]; [constructor|].
  rewrite sampled_positions_succ. apply List.NoDup_app; [exact IH| |].
  - apply List.NoDup_map_inv with (f := snd). rewrite List.map_map. cbn [snd].
    rewrite List.map_id. apply NoDup_sampled_cols.
  - intros [j i] Hin Hin'. apply elem_of_sampled_positions in Hin.
    apply in_map_iff in Hin' as (i' & E & _). inversion E; subst. lia.
Qed.

(** ** One call of processFrameData *)

Lemma select_mode_eq lay frame s :
  select_mode lay frame s
  = match lastImage s with
    | None =>
        Selection FM_FULL 0 (Some (take (width lay * height lay * 3) frame))
                  (diffBuf s) (diffMap s)
    | Some last =>
        if (forceFrameCount s >? 100)%Z then
          Selection FM_FULL 0 (Some last) (diffBuf s) (diffMap s)
        else if (lastFrameMode s =? FM_CHECKER)%Z then
          Selection FM_CHECKER_COMPL 0 (Some last) (diffBuf s) (diffMap s)
        else
          let r := imageDiff_run last (diffBuf s) (diffMap s) frame (width lay) (height lay) in
          Selection (if 400 <? numSqDiff r then FM_CHECKER
                     else if 0 <? numSqDiff r then FM_DIFF else FM_NONE)
                    (numSqDiff r) (Some (id_last r)) (id_buf r) (id_map r)
    end.
Proof.
  unfold select_mode. destruct (lastImage s) as [last|]; [|reflexivity].
  destruct (forceFrameCount s >? 100)%Z; [reflexivity|].
  destruct (lastFrameMode s =? FM_CHECKER)%Z; reflexivity.
Qed.

Lemma sel_mode_range lay frame s :
  let m := sel_mode (select_mode lay frame s) in
  m = FM_NONE \/ m = FM_FULL \/ m = FM_DIFF \/ m = FM_CHECKER \/ m = FM_CHECKER_COMPL.
Proof.
  cbn zeta. rewrite select_mode_eq.
  destruct (lastImage s) as [last|]; [|tauto].
  destruct (forceFrameCount s >? 100)%Z; [tauto|].
  destruct (lastFrameMode s =? FM_CHECKER)%Z; [tauto|].
  cbn zeta. cbn [sel_mode].
  destruct (400 <? _); [tauto|]. destruct (0 <? _); tauto.
Qed.

(** After a call the program has a previous-frame buffer. *)
Lemma sel_last_some lay frame s : exists img, sel_last (select_mode lay frame s) = Some img.
Proof.
  rewrite select_mode_eq. destruct (lastImage s) as [last|]; [|eexists; reflexivity].
  destruct (forceFrameCount s >? 100)%Z; [eexists; reflexivity|].
  destruct (lastFrameMode s =? FM_CHECKER)%Z; eexists; reflexivity.
Qed.

Lemma transmit_force jpeg lay frame sk sel force chk :
  tx_force (transmit jpeg lay frame sk sel force chk)
  = (if (sel_mode sel =? FM_NONE)%Z then force + 1
     else if (sel_mode sel =? FM_FULL)%Z then 0
     else if (sel_mode sel =? FM_DIFF)%Z then force + 5
     else if (sel_mode sel =? FM_CHECKER)%Z || (sel_mode sel =? FM_CHECKER_COMPL)%Z
          then force + 3
     else force)%Z.
Proof.
  unfold transmit. destruct (sel_mode sel =? FM_NONE)%Z; [reflexivity|].
  destruct (sel_mode sel =? FM_FULL)%Z; [reflexivity|].
  destruct (sel_mode sel =? FM_DIFF)%Z; [reflexivity|].
  destruct ((sel_mode sel =? FM_CHECKER)%Z || (sel_mode sel =? FM_CHECKER_COMPL)%Z);
    reflexivity.
Qed.

Lemma transmit_checker jpeg lay frame sk sel force chk :
  tx_checker (transmit jpeg lay frame sk sel force chk)
  = if (sel_mode sel =? FM_NONE)%Z || (sel_mode sel =? FM_FULL)%Z
       || (sel_mode sel =? FM_DIFF)%Z
    then chk
    else if (sel_mode sel =? FM_CHECKER)%Z || (sel_mode sel =? FM_CHECKER_COMPL)%Z
         then Z.land (chk + 1) 1
    else chk.
Proof.
  unfold transmit. destruct (sel_mode sel =? FM_NONE)%Z; [reflexivity|].
  destruct (sel_mode sel =? FM_FULL)%Z; [reflexivity|].
  destruct (sel_mode sel =? FM_DIFF)%Z; [reflexivity|].
  destruct ((sel_mode sel =? FM_CHECKER)%Z || (sel_mode sel =? FM_CHECKER_COMPL)%Z);
    reflexivity.
Qed.

Lemma connected_readConfirmation e sk :
  connected (fst (readConfirmation e sk)) = connected sk.
Proof.
  unfold readConfirmation.
  destruct (if connected sk then inbox sk ++ arriving e else inbox sk); reflexivity.
Qed.

Lemma connected_after jpeg lay frameData e s :
  connected (sock (out_state (processFrameData jpeg lay frameData e s)))
  = connected (up_sock (maintain e s)).
Proof.
  unfold processFrameData. destruct frameData; cbn [out_state sock];
    apply connected_readConfirmation.
Qed.

Lemma socketSend_off sk data sz : connected sk = false -> socketSend sk data sz = ([], 0%Z).
Proof. intros H. unfold socketSend. rewrite H. reflexivity. Qed.

Lemma socketSend_on sk data sz :
  connected sk = true -> socketSend sk data sz = ([EvWrite (take sz data)], 1%Z).
Proof. intros H. unfold socketSend. rewrite H. reflexivity. Qed.

(** The stores into [diffMap] never change its size. *)
Lemma length_id_map_block cur rowStride s :
  length (id_map (id_block cur rowStride s)) = length (id_map s).
Proof.
  unfold id_block.
  destruct (negb (squareDiff (id_last s) (lPtr s) cur (cPtr s) rowStride =? 0)%Z);
    cbn [id_last id_buf id_map numSqDiff mapPos mapMask lPtr cPtr];
    destruct (mapMask s =? 128)%Z; cbn [id_map]; apply length_poke.
Qed.

Lemma length_id_map_row cur w rowStride s :
  length (id_map (id_row cur w rowStride s)) = length (id_map s).
Proof.
  unfold id_row. cbn [id_map]. generalize ((w + 7) / 8). intros n.
  induction n as [|n IH]; [reflexivity|].
  rewrite Nat.iter_succ, length_id_map_block. exact IH.
Qed.

Lemma length_id_map_run last buf map cur w h :
  length (id_map (imageDiff_run last buf map cur w h)) = length map.
Proof.
  unfold imageDiff_run. generalize ((h + 7) / 8). intros n.
  induction n as [|n IH]; [reflexivity|].
  rewrite Nat.iter_succ, length_id_map_row. exact IH.
Qed.

Lemma length_sel_map lay frame s :
  length (sel_map (select_mode lay frame s)) = length (diffMap s).
Proof.
  rewrite select_mode_eq. destruct (lastImage s) as [last|]; [|reflexivity].
  destruct (forceFrameCount s >? 100)%Z; [reflexivity|].
  destruct (lastFrameMode s =? FM_CHECKER)%Z; [reflexivity|].
  cbn zeta. cbn [sel_map]. apply length_id_map_run.
Qed.

Lemma transmit_diff_events jpeg lay frame sk sel force chk :
  sel_mode sel = FM_DIFF -> connected sk = true ->
  let jpg := jpeg (take (8 * (8 * sel_numSq sel) * 3) (sel_buf sel)) 8 (8 * sel_numSq sel) 70%Z in
  let size := (Z.of_nat (length jpg) mod 65536)%Z in
  tx_events (transmit jpeg lay frame sk sel force chk)
  = [EvCompress (sel_buf sel) 8 (8 * sel_numSq sel) 70; EvWrite (le16 2);
     EvWrite (le16 size); EvWrite (take 150 (sel_map sel));
     EvWrite (take (Z.to_nat size) jpg)].
Proof.
  intros Hm Hc. cbn zeta. unfold transmit. rewrite Hm, !socketSend_on by exact Hc.
  reflexivity.
Qed.

Lemma transmit_checker_events jpeg lay frame sk sel force chk :
  sel_mode sel = FM_CHECKER \/ sel_mode sel = FM_CHECKER_COMPL -> connected sk = true ->
  let buf := checker_sample frame (width lay) (height lay) chk in
  let jpg := jpeg (take (width lay / 2 * height lay * 3) buf) (width lay / 2) (height lay) 70%Z in
  let size := (Z.of_nat (length jpg) mod 65536)%Z in
  tx_events (transmit jpeg lay frame sk sel force chk)
  = [EvCompress buf (width lay / 2) (height lay) 70; EvWrite (le16 (to_u16 (3 + chk)));
     EvWrite (le16 size); EvWrite (take (Z.to_nat size) jpg)].
Proof.
  intros Hm Hc. cbn zeta. unfold transmit.
  destruct Hm as [Hm|Hm]; rewrite Hm, !socketSend_on by exact Hc; reflexivity.
Qed.

Lemma transmit_off jpeg lay frame sk sel force chk :
  connected sk = false -> writes (tx_events (transmit jpeg lay frame sk sel force chk)) = false
  /\ attempts (tx_events (transmit jpeg lay frame sk sel force chk)) = false
  /\ wire (tx_events (transmit jpeg lay frame sk sel force chk)) = [].
Proof.
  intros Hc. unfold transmit. rewrite !socketSend_off by exact Hc.
  destruct (sel_mode sel =? FM_NONE)%Z; [repeat split|].
  destruct (sel_mode sel =? FM_FULL)%Z; [repeat split|].
  destruct (sel_mode sel =? FM_DIFF)%Z; [repeat split|].
  destruct ((sel_mode sel =? FM_CHECKER)%Z || (sel_mode sel =? FM_CHECKER_COMPL)%Z);
    repeat split.
Qed.

Lemma transmit_no_attempt jpeg lay frame sk sel force chk :
  attempts (tx_events (transmit jpeg lay frame sk sel force chk)) = false.
Proof.
  unfold transmit, socketSend. destruct (negb (connected sk)).
  - destruct (sel_mode sel =? FM_NONE)%Z; [reflexivity|].
    destruct (sel_mode sel =? FM_FULL)%Z; [reflexivity|].
    destruct (sel_mode sel =? FM_DIFF)%Z; [reflexivity|].
    destruct ((sel_mode sel =? FM_CHECKER)%Z || (sel_mode sel =? FM_CHECKER_COMPL)%Z);
      reflexivity.
  - destruct (sel_mode sel =? FM_NONE)%Z; [reflexivity|].
    destruct (sel_mode sel =? FM_FULL)%Z; [reflexivity|].
    destruct (sel_mode sel =? FM_DIFF)%Z; [reflexivity|].
    destruct ((sel_mode sel =? FM_CHECKER)%Z || (sel_mode sel =? FM_CHECKER_COMPL)%Z);
      reflexivity.
Qed.

Lemma wire_app l1 l2 : wire (l1 ++ l2) = wire l1 ++ wire l2.
Proof. unfold wire. apply flat_map_app. Qed.

Lemma writes_app l1 l2 : writes (l1 ++ l2) = writes l1 || writes l2.
Proof. unfold writes. apply existsb_app. Qed.

Lemma attempts_app l1 l2 : attempts (l1 ++ l2) = attempts l1 || attempts l2.
Proof. unfold attempts. apply existsb_app. Qed.

Lemma maintain_quiet e s :
  wire (up_events (maintain e s)) = [] /\ writes (up_events (maintain e s)) = false.
Proof.
  unfold maintain. destruct (negb (connected (sock s) && still_up e)); [|split; reflexivity].
  destruct (waitConnection s =? 0); split; reflexivity.
Qed.

(** What one call does while the socket is not in [ConnectedState] when the
    call starts. *)
Lemma maintain_down e s :
  connected (sock s) && still_up e = false ->
  attempts (up_events (maintain e s)) = (waitConnection s =? 0)
  /\ up_wait (maintain e s) = (if waitConnection s =? 0 then 300 else waitConnection s - 1)
  /\ connected (up_sock (maintain e s))
     = (if waitConnection s =? 0 then connect_ok e else false).
Proof.
  intros H. unfold maintain. rewrite H. cbn [negb].
  destruct (waitConnection s =? 0); repeat split.
Qed.

Lemma maintain_up e s :
  connected (sock s) && still_up e = true ->
  maintain e s = Upkeep (sock s) (waitConnection s) [].
Proof. intros H. unfold maintain. rewrite H. reflexivity. Qed.

Lemma process_events jpeg lay frameData e s :
  out_events (processFrameData jpeg lay frameData e s)
  = up_events (maintain e s)
    ++ match frameData with
       | None => []
       | Some frame =>
           tx_events (transmit jpeg lay frame (up_sock (maintain e s))
                        (select_mode lay frame s) (forceFrameCount s) (checker s))
       end.
Proof.
  unfold processFrameData. destruct frameData; cbn [out_events]; [reflexivity|].
  rewrite app_nil_r. reflexivity.
Qed.

Lemma process_wait jpeg lay frameData e s :
  waitConnection (out_state (processFrameData jpeg lay frameData e s)) = up_wait (maintain e s).
Proof. unfold processFrameData. destruct frameData; reflexivity. Qed.

(** While the wait counter runs down and the socket stays down, no call
    tries to connect and no call writes. *)
Lemma quiet_countdown jpeg lay calls : forall s,
  connected (sock s) = false ->
  length calls <= waitConnection s ->
  Forall (fun o => attempts (out_events o) = false /\ writes (out_events o) = false)
         (run jpeg lay calls s)
  /\ waitConnection (run_state jpeg lay calls s) = waitConnection s - length calls
  /\ connected (sock (run_state jpeg lay calls s)) = false.
Proof.
  induction calls as [|c calls IH]; intros s Hc Hlen.
  - cbn [run run_state length]. split; [constructor|]. split; [lia|exact Hc].
  - cbn [length] in Hlen. cbn [run run_state length].
    assert (Hdown : connected (sock s) && still_up (c_env c) = false) by (rewrite Hc; reflexivity).
    destruct (maintain_down (c_env c) s Hdown) as (Ha & Hw & Hk).
    assert (Hnz : (waitConnection s =? 0) = false) by (apply Nat.eqb_neq; lia).
    rewrite Hnz in Ha, Hw, Hk.
    set (o := processFrameData jpeg lay (c_frame c) (c_env c) s).
    assert (Hc' : connected (sock (out_state o)) = false).
    { unfold o. rewrite connected_after. exact Hk. }
    assert (Hw' : waitConnection (out_state o) = waitConnection s - 1).
    { unfold o. rewrite process_wait. exact Hw. }
    destruct (IH (out_state o) Hc' ltac:(lia)) as (IH1 & IH2 & IH3).
    split; [|split; [lia|exact IH3]].
    constructor; [|exact IH1].
    unfold o. rewrite process_events, attempts_app, writes_app, Ha.
    destruct (maintain_quiet (c_env c) s) as [_ ->].
    destruct (c_frame c) as [frame|]; [|split; reflexivity].
    destruct (transmit_off jpeg lay frame (up_sock (maintain (c_env c) s))
                (select_mode lay frame s) (forceFrameCount s) (checker s) Hk) as (-> & -> & _).
    split; reflexivity.
Qed.

(** ** Sessions *)

Lemma checker_kept jpeg lay calls : forall s,
  Forall (fun o => lastFrameMode (out_state o) <> FM_CHECKER
                   /\ lastFrameMode (out_state o) <> FM_CHECKER_COMPL)
         (run jpeg lay calls s) ->
  checker (run_state jpeg lay calls s) = checker s.
Proof.
  induction calls as [|c calls IH]; intros s H; [reflexivity|].
  cbn [run run_state] in *. inversion H as [|o os [H3 H4] Hrest]; subst.
  rewrite (IH _ Hrest). clear IH Hrest H.
  unfold processFrameData in *. destruct (c_frame c) as [frame|]; [|reflexivity].
  cbn [out_state checker lastFrameMode] in *. rewrite transmit_checker.
  destruct (sel_mode_range lay frame s) as [R|[R|[R|[R|R]]]];
    cbn zeta in R; rewrite R in *; try reflexivity; congruence.
Qed.

(** [forceFrameCount] never goes below 0, and a call that brings a frame and
    does not send FULL found it at 100 or less and leaves it higher. *)
Lemma force_step jpeg lay frame e s :
  (0 <= forceFrameCount s)%Z ->
  let s' := out_state (processFrameData jpeg lay (Some frame) e s) in
  (0 <= forceFrameCount s')%Z
  /\ (lastFrameMode s' <> FM_FULL ->
        (forceFrameCount s <= 100)%Z /\ (forceFrameCount s + 1 <= forceFrameCount s')%Z).
Proof.
  intros H0. cbn zeta. unfold processFrameData.
  cbn [out_state forceFrameCount lastFrameMode]. rewrite transmit_force.
  assert (Hfull : (100 < forceFrameCount s)%Z ->
                  sel_mode (select_mode lay frame s) = FM_FULL).
  { intros H. rewrite select_mode_eq. destruct (lastImage s); [|reflexivity].
    destruct (Z.gtb_spec (forceFrameCount s) 100); [reflexivity|lia]. }
  destruct (sel_mode_range lay frame s) as [R|[R|[R|[R|R]]]]; cbn zeta in R; rewrite R in *;
    cbn; (split; [lia|]); intros Hne;
    try (exfalso; apply Hne; reflexivity);
    (destruct (Z_lt_le_dec 100 (forceFrameCount s)) as [Hgt|Hle];
       [apply Hfull in Hgt; discriminate Hgt|lia]).
Qed.

Lemma force_poll jpeg lay e s :
  forceFrameCount (out_state (processFrameData jpeg lay None e s)) = forceFrameCount s.
Proof. reflexivity. Qed.

(** A stretch of [n >= 1] frame-supplying calls without FULL that starts with
    [forceFrameCount >= c] has [c + n <= 101]. *)
Lemma no_full_stretch jpeg lay calls : forall s (c : Z) n,
  (0 <= forceFrameCount s)%Z -> (c <= forceFrameCount s)%Z ->
  1 <= n -> n <= length (frame_modes jpeg lay calls s) ->
  (forall k, k < n -> frame_modes jpeg lay calls s !! k <> Some FM_FULL) ->
  (c + Z.of_nat n <= 101)%Z.
Proof.
  induction calls as [|cl calls IH]; intros s c n H0 Hc Hn Hlen Hno.
  - cbn [frame_modes length] in Hlen. lia.
  - cbn [frame_modes] in Hlen, Hno.
    destruct (c_frame cl) as [frame|] eqn:Ef.
    + destruct (force_step jpeg lay frame (c_env cl) s H0) as [H0' Hstep]. cbn zeta in *.
      set (s' := out_state (processFrameData jpeg lay (Some frame) (c_env cl) s)) in *.
      assert (Hm : lastFrameMode s' <> FM_FULL).
      { intros E. apply (Hno 0); [lia|]. rewrite <- E. reflexivity. }
      destruct (Hstep Hm) as [Hle Hinc].
      destruct n as [|[|n]]; [lia|lia|].
      cbn [length] in Hlen.
      assert (IHn := IH s' (c + 1)%Z (S n) H0' ltac:(lia) ltac:(lia) ltac:(lia)).
      assert (Hno' : forall k, k < S n -> frame_modes jpeg lay calls s' !! k <> Some FM_FULL).
      { intros k Hk. apply (Hno (S k)). lia. }
      specialize (IHn Hno'). lia.
    + apply (IH (out_state (processFrameData jpeg lay None (c_env cl) s)) c n);
        try assumption; rewrite force_poll; assumption.
Qed.

(** The modes from the [i]-th frame-supplying call on are the modes of a
    session that starts in a state with [forceFrameCount >= 0]. *)
Lemma frame_modes_drop jpeg lay calls : forall s i,
  (0 <= forceFrameCount s)%Z ->
  exists s' calls', (0 <= forceFrameCount s')%Z
    /\ drop i (frame_modes jpeg lay calls s) = frame_modes jpeg lay calls' s'.
Proof.
  induction calls as [|cl calls IH]; intros s i H0.
  - exists s, []. split; [exact H0|]. cbn [frame_modes]. apply drop_nil.
  - destruct i as [|i].
    { exists s, (cl :: calls). split; [exact H0|reflexivity]. }
    cbn [frame_modes]. destruct (c_frame cl) as [frame|].
    + destruct (force_step jpeg lay frame (c_env cl) s H0) as [H0' _]. cbn zeta in H0'.
      cbn [drop]. apply IH. exact H0'.
    + apply (IH _ (S i)). rewrite force_poll. exact H0.
Qed.

Lemma window_search (modes : list Z) (i n : nat) :
  (exists k, i <= k < i + n /\ modes !! k = Some FM_FULL)
  \/ (forall k, i <= k < i + n -> modes !! k <> Some FM_FULL).
Proof.
  induction n as [|n [(k & Hk & E)|IH]].
  - right. intros k Hk. lia.
  - left. exists k. split; [lia|exact E].
  - destruct (decide (modes !! (i + n) = Some FM_FULL)) as [E|E].
    + left. exists (i + n). split; [lia|exact E].
    + right. intros k Hk. destruct (Nat.eq_dec k (i + n)) as [->|Hne]; [exact E|].
      apply IH. lia.
Qed.

(** From any state with [forceFrameCount >= 0], every 102 frame-supplying
    calls in a row hold a FULL. *)
Lemma full_in_102 jpeg lay calls s :
  (0 <= forceFrameCount s)%Z ->
  full_in_every_window 102 (frame_modes jpeg lay calls s).
Proof.
  intros H0 i Hlen.
  destruct (window_search (frame_modes jpeg lay calls s) i 102) as [H|H]; [exact H|].
  exfalso.
  destruct (frame_modes_drop jpeg lay calls s i H0) as (s' & calls' & H0' & E).
  assert (Hlen' : 102 <= length (frame_modes jpeg lay calls' s')).
  { rewrite <- E, length_drop. lia. }
  pose proof (no_full_stretch jpeg lay calls' s' 0%Z 102 H0' H0' ltac:(lia) Hlen') as Hs.
  assert (Hno : forall k, k < 102 -> frame_modes jpeg lay calls' s' !! k <> Some FM_FULL).
  { intros k Hk. rewrite <- E, lookup_drop. apply H. lia. }
  specialize (Hs Hno). lia.
Qed.

Lemma last_mode_kept jpeg lay calls : forall s,
  lastFrameMode s <> FM_CHECKER ->
  Forall (fun o => lastFrameMode (out_state o) <> FM_CHECKER
                   /\ lastFrameMode (out_state o) <> FM_CHECKER_COMPL)
         (run jpeg lay calls s) ->
  lastFrameMode (run_state jpeg lay calls s) <> FM_CHECKER.
Proof.
  induction calls as [|c calls IH]; intros s Hs H; [exact Hs|].
  cbn [run run_state] in *. inversion H as [|o os [H3 _] Hrest]; subst.
  apply IH; assumption.
Qed.

(** ** More on squareDiff *)

Lemma abs_sub_swap (x y : Z) : Z.abs (x - y) = Z.abs (y - x).
Proof. lia. Qed.

Lemma sq_pixel_swap b1 b2 s :
  sq_pixel b2 b1 (sq_swap s) = flow_swap (sq_pixel b1 b2 s).
Proof.
  unfold sq_pixel, sq_swap. cbn [ptr1 ptr2 diff].
  rewrite (abs_sub_swap (peek b2 (ptr2 s))), (abs_sub_swap (peek b2 (ptr2 s + 1))),
    (abs_sub_swap (peek b2 (ptr2 s + 2))).
  destruct (_ >? MIN_SQDIFF)%Z; reflexivity.
Qed.

Lemma sq_pixels_swap b1 b2 n : forall s,
  for_loop n (sq_pixel b2 b1) (sq_swap s) = flow_swap (for_loop n (sq_pixel b1 b2) s).
Proof.
  induction n as [|n IH]; intros s; [reflexivity|].
  cbn [for_loop]. rewrite sq_pixel_swap.
  destruct (sq_pixel b1 b2 s) as [r s'|s']; cbn [flow_swap]; [reflexivity|apply IH].
Qed.

Lemma sq_row_swap rowStride b1 b2 s :
  sq_row rowStride b2 b1 (sq_swap s) = flow_swap (sq_row rowStride b1 b2 s).
Proof.
  unfold sq_row. rewrite sq_pixels_swap.
  destruct (for_loop 8 (sq_pixel b1 b2) s) as [r s'|s']; reflexivity.
Qed.

Lemma sq_rows_swap rowStride b1 b2 n : forall s,
  for_loop n (sq_row rowStride b2 b1) (sq_swap s)
  = flow_swap (for_loop n (sq_row rowStride b1 b2) s).
Proof.
  induction n as [|n IH]; intros s; [reflexivity|].
  cbn [for_loop]. rewrite sq_row_swap.
  destruct (sq_row rowStride b1 b2 s) as [r s'|s']; cbn [flow_swap]; [reflexivity|apply IH].
Qed.

Lemma peek_bytes buf p : bytes buf -> (0 <= peek buf p <= 255)%Z.
Proof.
  intros H. unfold peek. destruct (buf !! p) as [v|] eqn:E; cbn [default]; [|lia].
  apply (proj1 (Forall_lookup _ _) H p v E).
Qed.

Lemma px_diff_le b1 b2 a1 a2 :
  bytes b1 -> bytes b2 -> (px_diff b1 b2 a1 a2 <= 765)%Z.
Proof.
  intros H1 H2. unfold px_diff.
  pose proof (peek_bytes b1 a1 H1). pose proof (peek_bytes b2 a2 H2).
  pose proof (peek_bytes b1 (a1 + 1) H1). pose proof (peek_bytes b2 (a2 + 1) H2).
  pose proof (peek_bytes b1 (a1 + 2) H1). pose proof (peek_bytes b2 (a2 + 2) H2).
  lia.
Qed.

Lemma running_sum_same b o1 rowStride n : running_sum b o1 b o1 rowStride n = 0%Z.
Proof.
  induction n as [|n IH]; [reflexivity|].
  cbn [running_sum]. rewrite IH. unfold px_diff. rewrite !Z.sub_diag. reflexivity.
Qed.

Lemma squareDiff_same b o rowStride :
  8 * 3 <= rowStride -> squareDiff b o b o rowStride = 0%Z.
Proof.
  intros Hs. apply squareDiff_zero_iff; [exact Hs|].
  rewrite running_sum_same. unfold MIN_SQDIFF. lia.
Qed.

(** ** More on imageDiff *)

Lemma in_done_blocks bw r c r' c' :
  In (r', c') (done_blocks bw r c) <-> (r' < r /\ c' < bw) \/ (r' = r /\ c' < c).
Proof.
  unfold done_blocks. rewrite in_app_iff, in_flat_map. split.
  - intros [(x & Hx & Hin)|Hin].
    + apply in_map_iff in Hin as (y & E & Hy). inversion E; subst.
      apply in_seq in Hx. apply in_seq in Hy. left. lia.
    + apply in_map_iff in Hin as (y & E & Hy). inversion E; subst.
      apply in_seq in Hy. right. lia.
  - intros [[Hr Hc]|[-> Hc]].
    + left. exists r'. split; [apply in_seq; lia|]. apply in_map. apply in_seq. lia.
    + right. apply in_map. apply in_seq. lia.
Qed.

Lemma in_all_blocks bw bh r c : In (r, c) (all_blocks bw bh) <-> r < bh /\ c < bw.
Proof. unfold all_blocks. rewrite in_done_blocks. lia. Qed.

(** Every byte of a frame of [bw] by [bh] blocks lies in exactly one raster
    line of one block. *)
Lemma block_cover bw bh k :
  0 < bw -> k < 8 * bw * (8 * bh) * 3 ->
  exists r c i t, r < bh /\ c < bw /\ i < 8 /\ t < 24
    /\ k = block_off (8 * bw) r c + i * (8 * bw * 3) + t.
Proof.
  intros Hbw Hk.
  pose proof (Nat.div_mod_eq (k / 24) bw) as Hq.
  pose proof (Nat.mod_upper_bound (k / 24) bw ltac:(lia)) as Hc.
  assert (Hrow : k / 24 / bw < 8 * bh).
  { apply Nat.Div0.div_lt_upper_bound. lia. }
  exists (k / 24 / bw / 8), ((k / 24) mod bw), ((k / 24 / bw) mod 8), (k mod 24).
  split; [lia|]. split; [exact Hc|]. split; [lia|]. split; [lia|].
  unfold block_off.
  assert (Hr : k / 24 / bw = 8 * (k / 24 / bw / 8) + (k / 24 / bw) mod 8) by lia.
  set (row := k / 24 / bw) in *. set (c := (k / 24) mod bw) in *.
  set (r := row / 8) in *. set (i := row mod 8) in *.
  rewrite Hr in Hq. lia.
Qed.

Lemma dirty_same p w r c : 8 <= w -> dirty p p w r c = false.
Proof. intros Hw. unfold dirty. rewrite squareDiff_same by lia. reflexivity. Qed.

Lemma dirty_among_none prev cur w l :
  (forall b, In b l -> dirty prev cur w (fst b) (snd b) = false) ->
  dirty_among prev cur w l = [].
Proof.
  intros H. unfold dirty_among. induction l as [|b l IH]; [reflexivity|].
  cbn [List.filter]. rewrite (H b (or_introl eq_refl)). apply IH.
  intros b' Hb'. apply H. right. exact Hb'.
Qed.

Section ImageDiffMore.
Variables (prev buf0 map0 cur : list Z) (bw bh : nat).
Hypothesis bw_pos : 0 < bw.
Hypothesis prev_size : length prev = 8 * bw * (8 * bh) * 3.
Hypothesis buf_size : 8 * 8 * 3 * (bh * bw) <= length buf0.
Hypothesis map_size : bh * bw <= 8 * length map0.

#[local] Abbreviation rest_kept := (rest_kept buf0).

Lemma rest_kept_step r c s :
  scan_inv prev buf0 map0 cur bw r c s -> r < bh -> c < bw ->
  rest_kept s -> rest_kept (id_block cur (8 * bw * 3) s).
Proof.
  intros I Hr Hc Hrest. unfold rest_kept in *.
  pose proof (id_block_eq cur bw s) as E. cbn zeta in E.
  rewrite (scan_inv_squareDiff prev buf0 map0 cur bw bh bw_pos prev_size buf_size map_size
             r c s I Hc) in E. rewrite E. clear E.
  cbn [numSqDiff id_buf].
  destruct (dirty prev cur (8 * bw) r c); [|exact Hrest].
  pose proof (step_pack_fits prev buf0 map0 cur bw bh bw_pos prev_size buf_size map_size
                r c s I Hr Hc) as Hfit.
  rewrite putSquare_splice by (try exact Hfit; lia).
  rewrite app_assoc, drop_app_length'.
  2:{ rewrite length_app, length_take, length_block_bytes. lia. }
  replace (8 * 8 * 3 * numSqDiff s + 192) with (192 * numSqDiff s + 192) by lia.
  replace (192 * S (numSqDiff s)) with (192 * numSqDiff s + 192) by lia.
  rewrite <- !drop_drop, Hrest. reflexivity.
Qed.

Lemma rest_kept_blocks r s n :
  r < bh -> n <= bw -> scan_inv prev buf0 map0 cur bw r 0 s -> rest_kept s ->
  rest_kept (Nat.iter n (id_block cur (8 * bw * 3)) s).
Proof.
  intros Hr Hn I0 H0. induction n as [|n IH]; [exact H0|].
  rewrite Nat.iter_succ. apply (rest_kept_step r n); [|exact Hr|lia|apply IH; lia].
  apply (scan_blocks prev buf0 map0 cur bw bh bw_pos prev_size buf_size map_size);
    [exact Hr|lia|exact I0].
Qed.

Lemma rest_kept_rows m :
  m <= bh ->
  rest_kept (Nat.iter m (id_row cur (8 * bw) (8 * bw * 3)) (IdRegs prev buf0 map0 0 0 1%Z 0 0)).
Proof.
  intros Hm. induction m as [|m IH]; [reflexivity|].
  rewrite Nat.iter_succ. unfold id_row at 1.
  replace ((8 * bw + 7) / 8) with bw by lia.
  unfold rest_kept. cbn [numSqDiff id_buf].
  apply (rest_kept_blocks m); [lia|lia| |apply IH; lia].
  apply (scan_rows prev buf0 map0 cur bw bh bw_pos prev_size buf_size map_size). lia.
Qed.

(** [diffBuf] after the run: the packed dirty blocks, then what was there
    before. *)
Lemma imageDiff_run_buf :
  let s := imageDiff_run prev buf0 map0 cur (8 * bw) (8 * bh) in
  id_buf s = packed cur (8 * bw) (dirty_among prev cur (8 * bw) (all_blocks bw bh))
             ++ drop (192 * numSqDiff s) buf0.
Proof.
  cbn zeta.
  pose proof (imageDiff_run_inv prev buf0 map0 cur bw bh bw_pos prev_size buf_size map_size) as I.
  pose proof (rest_kept_rows bh (le_n _)) as R.
  unfold imageDiff_run in *. replace ((8 * bh + 7) / 8) with bh in * by lia.
  replace (8 * bw * 3) with (8 * bw * 3) in * by lia.
  set (s := Nat.iter bh (id_row cur (8 * bw) (8 * bw * 3)) (IdRegs prev buf0 map0 0 0 1%Z 0 0))
    in *.
  unfold rest_kept in R. rewrite <- R.
  unfold all_blocks. rewrite <- (inv_buf _ _ _ _ _ _ _ _ I).
  symmetry. apply take_drop.
Qed.

(** The previous-frame buffer after the run is [prev] when no block is
    dirty. *)
Lemma imageDiff_run_last_clean :
  (forall r c, r < bh -> c < bw -> dirty prev cur (8 * bw) r c = false) ->
  id_last (imageDiff_run prev buf0 map0 cur (8 * bw) (8 * bh)) = prev.
Proof.
  intros Hclean.
  pose proof (imageDiff_run_inv prev buf0 map0 cur bw bh bw_pos prev_size buf_size map_size) as I.
  set (s := imageDiff_run prev buf0 map0 cur (8 * bw) (8 * bh)) in *.
  pose proof (inv_last_len _ _ _ _ _ _ _ _ I) as Hlen.
  apply list_eq. intros k.
  destruct (Nat.lt_ge_cases k (length prev)) as [Hk|Hk].
  - rewrite !peek_lookup by lia. f_equal.
    destruct (block_cover bw bh k bw_pos ltac:(lia)) as (r & c & i & t & Hr & Hc & Hi & Ht & ->).
    rewrite (inv_last _ _ _ _ _ _ _ _ I) by assumption.
    rewrite (Hclean r c Hr Hc), andb_false_r. reflexivity.
  - rewrite !lookup_ge_None_2 by lia. reflexivity.
Qed.

(** A run that finds no dirty block. *)
Lemma imageDiff_run_clean :
  (forall r c, r < bh -> c < bw -> dirty prev cur (8 * bw) r c = false) ->
  let s := imageDiff_run prev buf0 map0 cur (8 * bw) (8 * bh) in
  numSqDiff s = 0 /\ id_last s = prev /\ id_buf s = buf0
  /\ length (id_map s) = length map0
  /\ (forall r c, r < bh -> c < bw -> map_bit (id_map s) (r * bw + c) = false).
Proof.
  intros Hclean. cbn zeta.
  pose proof (imageDiff_run_inv prev buf0 map0 cur bw bh bw_pos prev_size buf_size map_size) as I.
  assert (Hnone : dirty_among prev cur (8 * bw) (all_blocks bw bh) = []).
  { apply dirty_among_none. intros [r c] Hin. apply in_all_blocks in Hin as [Hr Hc].
    apply Hclean; assumption. }
  assert (Hn : numSqDiff (imageDiff_run prev buf0 map0 cur (8 * bw) (8 * bh)) = 0).
  { rewrite (inv_count _ _ _ _ _ _ _ _ I). fold (all_blocks bw bh). rewrite Hnone. reflexivity. }
  split; [exact Hn|]. split; [apply imageDiff_run_last_clean; exact Hclean|].
  split.
  { pose proof imageDiff_run_buf as Hb. cbn zeta in Hb. rewrite Hb, Hnone, Hn. reflexivity. }
  split; [apply (inv_map_len _ _ _ _ _ _ _ _ I)|].
  intros r c Hr Hc.
  rewrite (inv_bits _ _ _ _ _ _ _ _ I r c Hc (before_end bh r c Hr)).
  apply Hclean; assumption.
Qed.

(** The block of the previous-frame buffer after the run, as a list. *)
Lemma imageDiff_run_block r c :
  r < bh -> c < bw ->
  block_bytes (id_last (imageDiff_run prev buf0 map0 cur (8 * bw) (8 * bh)))
              (block_off (8 * bw) r c) (8 * bw * 3)
  = if dirty prev cur (8 * bw) r c
    then block_bytes cur (block_off (8 * bw) r c) (8 * bw * 3)
    else block_bytes prev (block_off (8 * bw) r c) (8 * bw * 3).
Proof.
  intros Hr Hc.
  pose proof (imageDiff_run_inv prev buf0 map0 cur bw bh bw_pos prev_size buf_size map_size) as I.
  assert (E : forall buf, block_bytes buf (block_off (8 * bw) r c) (8 * bw * 3)
              = map (fun k => peek buf (block_off (8 * bw) r c + (k / 24) * (8 * bw * 3) + k mod 24))
                    (seq 0 192)) by reflexivity.
  rewrite E. transitivity
    (map (fun k => if dirty prev cur (8 * bw) r c
                   then peek cur (block_off (8 * bw) r c + (k / 24) * (8 * bw * 3) + k mod 24)
                   else peek prev (block_off (8 * bw) r c + (k / 24) * (8 * bw * 3) + k mod 24))
         (seq 0 192)).
  - apply map_ext_in. intros k Hk. apply in_seq in Hk.
    rewrite (inv_last _ _ _ _ _ _ _ _ I) by (try assumption; lia).
    rewrite (before_end bh r c Hr). reflexivity.
  - destruct (dirty prev cur (8 * bw) r c); rewrite E; reflexivity.
Qed.

Lemma done_blocks_linear r c :
  c <= bw -> done_blocks bw r c = map (block_at bw) (seq 0 (r * bw + c)).
Proof.
  revert c. induction r as [|r IHr]; intros c Hc.
  - induction c as [|c IHc]; [reflexivity|].
    rewrite done_blocks_snoc, IHc by lia.
    replace (0 * bw + S c) with (S (0 * bw + c)) by lia.
    rewrite seq_S, map_app. cbn [map Nat.add]. do 2 f_equal. unfold block_at.
    rewrite Nat.div_small, Nat.mod_small by lia. reflexivity.
  - induction c as [|c IHc].
    + rewrite done_blocks_row, IHr by lia. do 2 f_equal. lia.
    + rewrite done_blocks_snoc, IHc by lia.
      replace (S r * bw + S c) with (S (S r * bw + c)) by lia.
      rewrite seq_S, map_app. cbn [map Nat.add]. do 2 f_equal. unfold block_at.
      rewrite Nat.add_comm, Nat.div_add, Nat.Div0.mod_add by lia.
      rewrite Nat.div_small, Nat.mod_small by lia. reflexivity.
Qed.

Lemma block_at_index idx :
  fst (block_at bw idx) * bw + snd (block_at bw idx) = idx /\ snd (block_at bw idx) < bw.
Proof.
  unfold block_at. cbn [fst snd]. pose proof (Nat.div_mod_eq idx bw).
  pose proof (Nat.mod_upper_bound idx bw ltac:(lia)). lia.
Qed.

(** The number of dirty blocks among the first [n] can be read off the
    bitmap. *)
Lemma bits_before_linear n :
  n <= bh * bw ->
  bits_before (id_map (imageDiff_run prev buf0 map0 cur (8 * bw) (8 * bh))) n
  = length (dirty_among prev cur (8 * bw) (map (block_at bw) (seq 0 n))).
Proof.
  intros Hn.
  pose proof (imageDiff_run_inv prev buf0 map0 cur bw bh bw_pos prev_size buf_size map_size) as I.
  unfold bits_before, dirty_among.
  induction n as [|n IH]; [reflexivity|].
  rewrite seq_S, map_app, !List.filter_app, !length_app, IH by lia.
  f_equal. cbn [map List.filter Nat.add].
  destruct (block_at_index n) as [Hidx Hcol].
  assert (Hrow : fst (block_at bw n) < bh).
  { unfold block_at. cbn [fst]. apply Nat.Div0.div_lt_upper_bound. lia. }
  rewrite <- (inv_bits _ _ _ _ _ _ _ _ I _ _ Hcol (before_end bh _ _ Hrow)), Hidx.
  destruct (map_bit _ n); reflexivity.
Qed.

Lemma bits_before_rank r c :
  r < bh -> c < bw ->
  bits_before (id_map (imageDiff_run prev buf0 map0 cur (8 * bw) (8 * bh))) (r * bw + c)
  = length (dirty_among prev cur (8 * bw) (done_blocks bw r c)).
Proof.
  intros Hr Hc. rewrite done_blocks_linear by lia. apply bits_before_linear.
  pose proof (lin_index_lt bw bh r c Hr Hc). lia.
Qed.

Lemma bits_before_total :
  bits_before (id_map (imageDiff_run prev buf0 map0 cur (8 * bw) (8 * bh))) (bh * bw)
  = numSqDiff (imageDiff_run prev buf0 map0 cur (8 * bw) (8 * bh)).
Proof.
  pose proof (imageDiff_run_inv prev buf0 map0 cur bw bh bw_pos prev_size buf_size map_size) as I.
  rewrite (inv_count _ _ _ _ _ _ _ _ I), done_blocks_linear by lia.
  replace (bh * bw + 0) with (bh * bw) by lia. apply bits_before_linear. lia.
Qed.

(** Where a dirty block sits in the packed buffer. *)
Lemma packed_chunk r c :
  r < bh -> c < bw -> dirty prev cur (8 * bw) r c = true ->
  let s := imageDiff_run prev buf0 map0 cur (8 * bw) (8 * bh) in
  let k := length (dirty_among prev cur (8 * bw) (done_blocks bw r c)) in
  k < numSqDiff s
  /\ take 192 (drop (192 * k) (id_buf s)) = block_bytes cur (block_off (8 * bw) r c) (8 * bw * 3).
Proof.
  intros Hr Hc Hd. cbn zeta.
  pose proof (imageDiff_run_inv prev buf0 map0 cur bw bh bw_pos prev_size buf_size map_size) as I.
  assert (Hsplit : exists rest, all_blocks bw bh = done_blocks bw r c ++ (r, c) :: rest).
  { unfold all_blocks. rewrite !done_blocks_linear by lia.
    pose proof (lin_index_lt bw bh r c Hr Hc) as Hlt.
    exists (map (block_at bw) (seq (S (r * bw + c)) (bh * bw - S (r * bw + c)))).
    replace (bh * bw + 0) with ((r * bw + c) + S (bh * bw - S (r * bw + c))) by lia.
    rewrite seq_app, map_app. f_equal. cbn [seq map Nat.add]. f_equal.
    unfold block_at. f_equal.
    - rewrite Nat.add_comm, Nat.div_add, Nat.div_small by lia. reflexivity.
    - rewrite Nat.add_comm, Nat.Div0.mod_add, Nat.mod_small by lia. reflexivity. }
  destruct Hsplit as (rest & Hsplit).
  pose proof imageDiff_run_buf as Hb. cbn zeta in Hb.
  rewrite (inv_count _ _ _ _ _ _ _ _ I). fold (all_blocks bw bh).
  assert (Hda : dirty_among prev cur (8 * bw) (done_blocks bw r c ++ (r, c) :: rest)
                = dirty_among prev cur (8 * bw) (done_blocks bw r c)
                  ++ (r, c) :: dirty_among prev cur (8 * bw) rest).
  { unfold dirty_among. rewrite List.filter_app. cbn [List.filter fst snd].
    rewrite Hd. reflexivity. }
  rewrite Hb, Hsplit, Hda.
  split; [rewrite length_app; cbn [length]; lia|].
  unfold packed at 1. rewrite flat_map_app. cbn [flat_map fst snd].
  fold (packed cur (8 * bw) (dirty_among prev cur (8 * bw) (done_blocks bw r c))).
  fold (packed cur (8 * bw) (dirty_among prev cur (8 * bw) rest)).
  rewrite <- !app_assoc.
  rewrite drop_app_length' by (rewrite length_packed; reflexivity).
  rewrite take_app_length' by (rewrite length_block_bytes; reflexivity).
  reflexivity.
Qed.
End ImageDiffMore.

(** ** More on sessions *)

Lemma length_cp_pixel src s : length (cp_mem (cp_pixel src s)) = length (cp_mem s).
Proof. unfold cp_pixel. cbn [cp_mem]. rewrite !length_poke. reflexivity. Qed.

Lemma length_cp_pixels src n s :
  length (cp_mem (Nat.iter n (cp_pixel src) s)) = length (cp_mem s).
Proof.
  induction n as [|n IH]; [reflexivity|]. rewrite Nat.iter_succ, length_cp_pixel. exact IH.
Qed.

Lemma cp_mem_mk m a b : cp_mem (CpRegs m a b) = m.
Proof. reflexivity. Qed.

Lemma length_cp_line dskip sskip src s :
  length (cp_mem (cp_line dskip sskip src s)) = length (cp_mem s).
Proof. unfold cp_line. cbv zeta. rewrite cp_mem_mk. apply (length_cp_pixels src 8 s). Qed.

Lemma length_cp_lines dskip sskip src n s :
  length (cp_mem (Nat.iter n (cp_line dskip sskip src) s)) = length (cp_mem s).
Proof.
  induction n as [|n IH]; [reflexivity|].
  rewrite Nat.iter_succ, length_cp_line. exact IH.
Qed.

Lemma length_putSquare dst d src s rowStride :
  length (putSquare dst d src s rowStride) = length dst.
Proof. unfold putSquare. apply length_cp_lines. Qed.

Lemma length_copySquare dst d src s rowStride :
  length (copySquare dst d src s rowStride) = length dst.
Proof. unfold copySquare. apply length_cp_lines. Qed.

Lemma length_id_buf_block cur rowStride s :
  length (id_buf (id_block cur rowStride s)) = length (id_buf s).
Proof.
  unfold id_block.
  destruct (negb (squareDiff (id_last s) (lPtr s) cur (cPtr s) rowStride =? 0)%Z);
    cbn [id_last id_buf id_map numSqDiff mapPos mapMask lPtr cPtr];
    destruct (mapMask s =? 128)%Z; cbn [id_buf]; try reflexivity; apply length_putSquare.
Qed.

Lemma length_id_buf_row cur w rowStride s :
  length (id_buf (id_row cur w rowStride s)) = length (id_buf s).
Proof.
  unfold id_row. cbn [id_buf]. generalize ((w + 7) / 8). intros n.
  induction n as [|n IH]; [reflexivity|].
  rewrite Nat.iter_succ, length_id_buf_block. exact IH.
Qed.

Lemma length_id_buf_run last buf map cur w h :
  length (id_buf (imageDiff_run last buf map cur w h)) = length buf.
Proof.
  unfold imageDiff_run. generalize ((h + 7) / 8). intros n.
  induction n as [|n IH]; [reflexivity|].
  rewrite Nat.iter_succ, length_id_buf_row. exact IH.
Qed.

Lemma length_sel_buf lay frame s :
  length (sel_buf (select_mode lay frame s)) = length (diffBuf s).
Proof.
  rewrite select_mode_eq. destruct (lastImage s) as [last|]; [|reflexivity].
  destruct (forceFrameCount s >? 100)%Z; [reflexivity|].
  destruct (lastFrameMode s =? FM_CHECKER)%Z; [reflexivity|].
  cbn zeta. cbn [sel_buf]. apply length_id_buf_run.
Qed.

Lemma maintain_wait e s : waitConnection s <= 300 -> up_wait (maintain e s) <= 300.
Proof.
  intros H. unfold maintain. destruct (negb (connected (sock s) && still_up e)); [|exact H].
  destruct (waitConnection s =? 0); cbn [up_wait]; lia.
Qed.

Lemma pump_ok_step jpeg lay frameData e s :
  pump_ok s -> pump_ok (out_state (processFrameData jpeg lay frameData e s)).
Proof.
  intros (Hf & Hc & Hm & Hw & Hmap & Hbuf).
  unfold pump_ok, processFrameData. destruct frameData as [frame|];
    cbn [out_state forceFrameCount checker lastFrameMode waitConnection diffMap diffBuf].
  - rewrite transmit_force, transmit_checker, length_sel_map, length_sel_buf.
    destruct (force_step jpeg lay frame e s ltac:(lia)) as [_ Hstep]. cbn zeta in Hstep.
    unfold processFrameData in Hstep. cbn [out_state forceFrameCount lastFrameMode] in Hstep.
    pose proof (maintain_wait e s Hw) as Hw'.
    split; [|split; [|split; [|split; [exact Hw'|split; assumption]]]]; clear Hmap Hbuf.
    + unfold FM_NONE, FM_FULL, FM_DIFF, FM_CHECKER, FM_CHECKER_COMPL in *.
      destruct (sel_mode_range lay frame s) as [R|[R|[R|[R|R]]]]; cbn zeta in R;
        unfold FM_NONE, FM_FULL, FM_DIFF, FM_CHECKER, FM_CHECKER_COMPL in R;
        rewrite R in *; cbn [Z.eqb Pos.eqb orb]; try lia;
        destruct Hstep as [Hle _]; try discriminate; lia.
    + unfold FM_NONE, FM_FULL, FM_DIFF, FM_CHECKER, FM_CHECKER_COMPL in *.
      destruct (sel_mode_range lay frame s) as [R|[R|[R|[R|R]]]]; cbn zeta in R;
        unfold FM_NONE, FM_FULL, FM_DIFF, FM_CHECKER, FM_CHECKER_COMPL in R;
        rewrite R; destruct Hc as [-> | ->]; cbn; tauto.
    + unfold FM_NONE, FM_FULL, FM_DIFF, FM_CHECKER, FM_CHECKER_COMPL in *.
      destruct (sel_mode_range lay frame s) as [R|[R|[R|[R|R]]]]; cbn zeta in R;
        unfold FM_NONE, FM_FULL, FM_DIFF, FM_CHECKER, FM_CHECKER_COMPL in R;
        rewrite R; lia.
  - split; [exact Hf|]. split; [exact Hc|]. split; [exact Hm|].
    split; [apply maintain_wait; exact Hw|]. split; assumption.
Qed.

Lemma pump_ok_init : pump_ok pump_init.
Proof.
  unfold pump_ok, pump_init. cbn [forceFrameCount checker lastFrameMode waitConnection
    diffMap diffBuf]. rewrite !length_replicate. unfold FM_NONE.
  split; [lia|]. split; [left; reflexivity|]. split; [lia|]. split; [lia|].
  split; reflexivity.
Qed.

Lemma pump_ok_run jpeg lay calls : forall s,
  pump_ok s -> pump_ok (run_state jpeg lay calls s).
Proof.
  induction calls as [|c calls IH]; intros s H; [exact H|].
  cbn [run_state]. apply IH, pump_ok_step, H.
Qed.

Lemma last_image_kept jpeg lay frameData e s :
  lastImage s <> None -> lastImage (out_state (processFrameData jpeg lay frameData e s)) <> None.
Proof.
  intros H. unfold processFrameData. destruct frameData as [frame|]; cbn [out_state lastImage];
    [|exact H].
  destruct (sel_last_some lay frame s) as [img ->]. discriminate.
Qed.

(** The mode of a frame-supplying call against the mode recorded before it. *)
Lemma mode_follows jpeg lay frame e s :
  may_follow (lastFrameMode s)
             (lastFrameMode (out_state (processFrameData jpeg lay (Some frame) e s))).
Proof.
  unfold may_follow, processFrameData. cbn [out_state lastFrameMode].
  rewrite select_mode_eq. unfold FM_CHECKER_COMPL, FM_CHECKER, FM_FULL, FM_DIFF, FM_NONE.
  destruct (lastImage s) as [last|]; [|cbn [sel_mode]; split; [discriminate|tauto]].
  destruct (forceFrameCount s >? 100)%Z; [cbn [sel_mode]; split; [discriminate|tauto]|].
  destruct (Z.eqb_spec (lastFrameMode s) 3) as [E|E]; [cbn [sel_mode]; split; tauto|].
  cbn zeta. cbn [sel_mode]. split; [|contradiction].
  destruct (400 <? _); [discriminate|]. destruct (0 <? _); discriminate.
Qed.

Lemma frame_modes_head jpeg lay calls : forall s b,
  frame_modes jpeg lay calls s !! 0 = Some b -> may_follow (lastFrameMode s) b.
Proof.
  induction calls as [|c calls IH]; intros s b H; [discriminate H|].
  cbn [frame_modes] in H. destruct (c_frame c) as [frame|] eqn:Ef.
  - injection H as <-. exact (mode_follows jpeg lay frame (c_env c) s).
  - exact (IH _ b H).
Qed.

Lemma frame_modes_adjacent jpeg lay calls : forall s k a b,
  frame_modes jpeg lay calls s !! k = Some a ->
  frame_modes jpeg lay calls s !! S k = Some b ->
  may_follow a b.
Proof.
  induction calls as [|c calls IH]; intros s k a b Ha Hb; [discriminate Ha|].
  cbn [frame_modes] in Ha, Hb. destruct (c_frame c) as [frame|] eqn:Ef.
  - set (s' := out_state (processFrameData jpeg lay (Some frame) (c_env c) s)) in *.
    destruct k as [|k].
    + injection Ha as <-.
      exact (frame_modes_head jpeg lay calls s' b Hb).
    + exact (IH s' k a b Ha Hb).
  - exact (IH _ k a b Ha Hb).
Qed.

Lemma last_image_run jpeg lay calls : forall s,
  lastImage s <> None -> lastImage (run_state jpeg lay calls s) <> None.
Proof.
  induction calls as [|c calls IH]; intros s H; [exact H|].
  cbn [run_state]. apply IH, last_image_kept, H.
Qed.

Lemma last_image_after_frame jpeg lay calls : forall s,
  (exists c, In c calls /\ c_frame c <> None) ->
  lastImage (run_state jpeg lay calls s) <> None.
Proof.
  induction calls as [|c calls IH]; intros s (c0 & Hin & Hf); [destruct Hin|].
  cbn [run_state]. destruct (c_frame c) as [frame|] eqn:Ef.
  - apply last_image_run. unfold processFrameData. cbn [out_state lastImage].
    destruct (sel_last_some lay frame s) as [img ->]. discriminate.
  - apply IH. destruct Hin as [->|Hin]; [congruence|]. exists c0. split; assumption.
Qed.

Lemma frame_modes_first jpeg lay calls : forall s m,
  lastImage s = None -> frame_modes jpeg lay calls s !! 0 = Some m -> m = FM_FULL.
Proof.
  induction calls as [|c calls IH]; intros s m Hs H; [discriminate H|].
  cbn [frame_modes] in H. destruct (c_frame c) as [frame|] eqn:Ef.
  - injection H as <-. unfold processFrameData. cbn [out_state lastFrameMode].
    rewrite select_mode_eq, Hs. reflexivity.
  - apply (IH _ m) in H; [exact H|]. exact Hs.
Qed.

Lemma transmit_none_events jpeg lay frame sk sel force chk :
  sel_mode sel = FM_NONE -> connected sk = true ->
  tx_events (transmit jpeg lay frame sk sel force chk) = [EvWrite [0; 0]%Z].
Proof.
  intros Hm Hc. unfold transmit. rewrite Hm, !socketSend_on by exact Hc. reflexivity.
Qed.

Lemma transmit_full_events jpeg lay frame sk sel force chk :
  sel_mode sel = FM_FULL -> connected sk = true ->
  let jpg := jpeg (take (width lay * height lay * 3) frame) (width lay) (height lay) 70%Z in
  let size := (Z.of_nat (length jpg) mod 65536)%Z in
  tx_events (transmit jpeg lay frame sk sel force chk)
  = [EvCompress frame (width lay) (height lay) 70; EvWrite [1; 0]%Z;
     EvWrite (le16 size); EvWrite (take (Z.to_nat size) jpg)].
Proof.
  intros Hm Hc. cbn zeta. unfold transmit. rewrite Hm, !socketSend_on by exact Hc.
  reflexivity.
Qed.

Lemma le16_value_le16 v : (0 <= v < 65536)%Z -> le16_value (le16 v) = v.
Proof. intros H. unfold le16, le16_value. lia. Qed.

Lemma length_take_mod (l : list Z) :
  Z.of_nat (length (take (Z.to_nat (Z.of_nat (length l) mod 65536)) l))
  = (Z.of_nat (length l) mod 65536)%Z.
Proof. rewrite length_take. lia. Qed.

Lemma length_pixels_at frame w l : length (pixels_at frame w l) = 3 * length l.
Proof.
  unfold pixels_at. induction l as [|p l IH]; [reflexivity|].
  cbn [flat_map]. rewrite length_app, IH. cbn [length pixel_at]. lia.
Qed.

Lemma length_sampled_positions c n h :
  length (sampled_positions c (2 * n) h) = h * n.
Proof.
  induction h as [|h IH]; [reflexivity|].
  rewrite sampled_positions_succ, length_app, IH, length_map, length_sampled_cols. lia.
Qed.

(** ** A session that brings the same frame every time *)

Section SameFrame.
Variables (jpeg : encoder) (bw bh : nat) (frame : list Z).
Hypothesis bw_pos : 0 < bw.
Hypothesis frame_size : length frame = 8 * bw * (8 * bh) * 3.

#[local] Abbreviation settled := (settled bw bh frame).

Lemma settled_step e s k :
  settled k s ->
  let s' := out_state (processFrameData jpeg (Layout (8 * bw) (8 * bh)) (Some frame) e s) in
  lastFrameMode s' = same_frame_mode (S k) /\ settled (S k) s'.
Proof.
  intros (Himg & Hmode & Hforce & Hbuf & Hmap). cbn zeta.
  unfold settled, processFrameData.
  cbn [out_state lastFrameMode lastImage forceFrameCount diffBuf diffMap].
  rewrite transmit_force, length_sel_buf, length_sel_map, select_mode_eq, Himg.
  unfold same_frame_mode.
  destruct (Z.gtb_spec (forceFrameCount s) 100) as [Hgt|Hle].
  - cbn [sel_mode sel_last]. cbn [Z.eqb Pos.eqb FM_FULL FM_NONE].
    assert (E : S k mod 102 = 0) by lia. rewrite E. cbn [Nat.eqb].
    repeat split; try assumption; try discriminate.
  - destruct (Z.eqb_spec (lastFrameMode s) FM_CHECKER) as [E|_]; [contradiction|].
    cbn zeta. cbn [width height].
    destruct (imageDiff_run_clean frame (diffBuf s) (diffMap s) frame bw bh bw_pos frame_size
                Hbuf Hmap) as (Hn & Hl & _).
    { intros r c _ _. apply dirty_same. lia. }
    rewrite Hn, Hl. cbn [sel_mode sel_last Nat.ltb Nat.leb Z.eqb FM_NONE FM_FULL].
    assert (E : (S k mod 102 =? 0) = false) by (apply Nat.eqb_neq; lia). rewrite E.
    repeat split; try assumption; try discriminate. lia.
Qed.

Lemma settled_session envs : forall s k,
  settled k s ->
  frame_modes jpeg (Layout (8 * bw) (8 * bh)) (same_frame_calls frame envs) s
  = map (fun j => same_frame_mode (S k + j)) (seq 0 (length envs))
  /\ settled (k + length envs)
             (run_state jpeg (Layout (8 * bw) (8 * bh)) (same_frame_calls frame envs) s).
Proof.
  induction envs as [|e envs IH]; intros s k Hs.
  - cbn [same_frame_calls map frame_modes run_state length seq].
    split; [reflexivity|]. replace (k + 0) with k by lia. exact Hs.
  - cbn [same_frame_calls map frame_modes run_state length c_frame c_env].
    destruct (settled_step e s k Hs) as [Hm Hs']. cbn zeta in Hm, Hs'.
    destruct (IH _ (S k) Hs') as [IH1 IH2].
    unfold same_frame_calls in *. rewrite IH1, Hm. split.
    + cbn [seq map]. replace (S k + 0) with (S k) by lia. f_equal.
      rewrite <- seq_shift, map_map. apply map_ext. intros j. f_equal. lia.
    + replace (k + S (length envs)) with (S k + length envs) by lia. exact IH2.
Qed.
End SameFrame.

(** ** Request slots *)

Lemma ctroll_step v r :
  heap_ok v ->
  heap_ok (ctroll v r)
  /\ others (ctroll v r) = others v
  /\ h_bad_free (vc_heap (ctroll v r)) = h_bad_free (vc_heap v)
  /\ (exists p, g_ctroll3d_addr (ctroll v r) = Some p
        /\ h_live (vc_heap (ctroll v r)) = <[p := cr_address r]> (others v)
        /\ others v !! p = None).
Proof.
  intros [Hfresh Hlive].
  assert (Hn : h_live (vc_heap v) !! h_next (vc_heap v) = None).
  { destruct (h_live (vc_heap v) !! h_next (vc_heap v)) eqn:E; [|reflexivity].
    pose proof (Hfresh _ (mk_is_Some _ _ E)). lia. }
  unfold ctroll, RequestCTroll3D, others, heap_ok.
  destruct (g_ctroll3d_addr v) as [q|] eqn:Hq.
  - destruct (Hlive q eq_refl) as [x Hx]. unfold free. rewrite Hx.
    cbn [strdup h_next h_live h_bad_free vc_heap g_ctroll3d_addr].
    assert (Hd : delete q (h_live (vc_heap v)) !! h_next (vc_heap v) = None).
    { apply lookup_delete_None. right. exact Hn. }
    split; [split|].
    + intros k Hk. apply lookup_insert_is_Some in Hk as [<-|[_ Hk]]; [lia|].
      destruct Hk as [y Hy]. apply lookup_delete_Some in Hy as [_ Hy].
      pose proof (Hfresh _ (mk_is_Some _ _ Hy)). lia.
    + intros p [= <-]. rewrite lookup_insert_eq. eauto.
    + split; [apply delete_insert_id, Hd|]. split; [reflexivity|].
      exists (h_next (vc_heap v)). auto.
  - cbn [strdup h_next h_live h_bad_free vc_heap g_ctroll3d_addr].
    split; [split|].
    + intros k Hk. apply lookup_insert_is_Some in Hk as [<-|[_ Hk]]; [lia|].
      pose proof (Hfresh _ Hk). lia.
    + intros p [= <-]. rewrite lookup_insert_eq. eauto.
    + split; [apply delete_insert_id, Hn|]. split; [reflexivity|].
      exists (h_next (vc_heap v)). auto.
Qed.

Lemma ctroll_run reqs : forall v,
  heap_ok v ->
  heap_ok (foldl ctroll v reqs)
  /\ others (foldl ctroll v reqs) = others v
  /\ h_bad_free (vc_heap (foldl ctroll v reqs)) = h_bad_free (vc_heap v).
Proof.
  induction reqs as [|r reqs IH]; intros v Hv; [auto|].
  cbn [foldl]. destruct (ctroll_step v r Hv) as (Hv' & Ho & Hb & _).
  destruct (IH _ Hv') as (H1 & H2 & H3). rewrite H2, H3. auto.
Qed.

Lemma ctroll_shot_fields v r :
  g_renderer_screenshot_requested (ctroll v r) = g_renderer_screenshot_requested v
  /\ g_screenshot_bits (ctroll v r) = g_screenshot_bits v
  /\ g_screenshot_complete_callback (ctroll v r) = g_screenshot_complete_callback v
  /\ g_screenshot_framebuffer_layout (ctroll v r) = g_screenshot_framebuffer_layout v.
Proof. unfold ctroll, RequestCTroll3D. cbn. auto. Qed.

Lemma ctroll_run_shot_fields reqs : forall v,
  g_renderer_screenshot_requested (foldl ctroll v reqs) = g_renderer_screenshot_requested v
  /\ g_screenshot_bits (foldl ctroll v reqs) = g_screenshot_bits v
  /\ g_screenshot_complete_callback (foldl ctroll v reqs) = g_screenshot_complete_callback v
  /\ g_screenshot_framebuffer_layout (foldl ctroll v reqs)
     = g_screenshot_framebuffer_layout v.
Proof.
  induction reqs as [|r reqs IH]; intros v; [auto|].
  cbn [foldl]. destruct (IH (ctroll v r)) as (-> & -> & -> & ->).
  apply ctroll_shot_fields.
Qed.

Lemma shot_pending reqs : forall v,
  g_renderer_screenshot_requested v = true -> foldl shot v reqs = v.
Proof.
  induction reqs as [|r reqs IH]; intros v Hv; [reflexivity|].
  cbn [foldl]. unfold shot at 2, RequestScreenshot. rewrite Hv. apply IH, Hv.
Qed.

(** ** The first-frame flag *)

Lemma window_run_app ops1 : forall ops2 b,
  window_run (ops1 ++ ops2) b
  = (fst (window_run ops2 (fst (window_run ops1 b))),
     snd (window_run ops1 b) ++ snd (window_run ops2 (fst (window_run ops1 b)))).
Proof.
  induction ops1 as [|op ops1 IH]; intros ops2 b.
  - cbn [app window_run fst snd]. destruct (window_run ops2 b); reflexivity.
  - cbn [app window_run]. destruct (window_step op b) as [f out].
    rewrite IH. destruct (window_run ops1 f) as [f1 out1]. cbn [fst snd].
    rewrite app_assoc. reflexivity.
Qed.

Lemma window_run_bound ops : forall b,
  length (snd (window_run ops b)) <= count_inits ops + (if b then 0 else 1).
Proof.
  induction ops as [|op ops IH]; intros b; [cbn; lia|].
  cbn [window_run]. destruct op; cbn [window_step count_inits].
  - unfold PollEvents. destruct b; cbn [negb].
    + specialize (IH true). destruct (window_run ops true). cbn [fst snd app] in *. lia.
    + specialize (IH true). destruct (window_run ops true).
      cbn [fst snd app length] in *. lia.
  - unfold InitRenderTarget. specialize (IH false). destruct (window_run ops false).
    cbn [fst snd app] in *. destruct b; lia.
Qed.

(** ** Frames that differ everywhere, and the phase over a session *)

Lemma dirty_among_all prev cur w l :
  (forall b, In b l -> dirty prev cur w (fst b) (snd b) = true) ->
  dirty_among prev cur w l = l.
Proof.
  intros H. unfold dirty_among. induction l as [|b l IH]; [reflexivity|].
  cbn [List.filter]. rewrite (H b (or_introl eq_refl)). f_equal. apply IH.
  intros b' Hb'. apply H. right. exact Hb'.
Qed.

Lemma peek_replicate n (v : Z) k : k < n -> peek (replicate n v) k = v.
Proof. intros H. unfold peek. rewrite lookup_replicate_2 by exact H. reflexivity. Qed.

(** Two frames of one colour each, far enough apart, differ in every block
    at the first pixel already. *)
Lemma dirty_replicate n a b w r c :
  8 <= w -> block_off w r c + 2 < n -> (192 < 3 * Z.abs (a - b))%Z ->
  dirty (replicate n a) (replicate n b) w r c = true.
Proof.
  intros Hw Hn Hab. unfold dirty.
  assert (Hs : 8 * 3 <= w * 3) by lia.
  assert (E : squareDiff (replicate n a) (block_off w r c) (replicate n b) (block_off w r c)
                (w * 3) = 1%Z).
  { apply (squareDiff_one_iff (replicate n a) (replicate n b) (block_off w r c)
             (block_off w r c) (w * 3) Hs).
    pose proof (running_sum_mono (replicate n a) (replicate n b) (block_off w r c)
                  (block_off w r c) (w * 3) Hs 1 64 ltac:(lia)) as Hm.
    assert (H1 : running_sum (replicate n a) (block_off w r c) (replicate n b)
                   (block_off w r c) (w * 3) 1
                 = (3 * Z.abs (a - b))%Z).
    { cbn [running_sum]. unfold px_diff, px_addr, cell.
      change (0 / 8) with 0. change (0 mod 8) with 0.
      rewrite !peek_replicate by lia. lia. }
    rewrite H1 in Hm. unfold MIN_SQDIFF. lia. }
  rewrite E. reflexivity.
Qed.

Section AllDirty.
Variables (prev buf0 map0 cur : list Z) (bw bh : nat).
Hypothesis bw_pos : 0 < bw.
Hypothesis prev_size : length prev = 8 * bw * (8 * bh) * 3.
Hypothesis buf_size : 8 * 8 * 3 * (bh * bw) <= length buf0.
Hypothesis map_size : bh * bw <= 8 * length map0.
Hypothesis cur_size : length cur = 8 * bw * (8 * bh) * 3.

(** A run that finds every block dirty: the count is the number of blocks
    and the previous-frame buffer becomes the current frame. *)
Lemma imageDiff_run_all_dirty :
  (forall r c, r < bh -> c < bw -> dirty prev cur (8 * bw) r c = true) ->
  let s := imageDiff_run prev buf0 map0 cur (8 * bw) (8 * bh) in
  numSqDiff s = bh * bw /\ id_last s = cur
  /\ length (id_buf s) = length buf0 /\ length (id_map s) = length map0.
Proof.
  intros Hall. cbn zeta.
  pose proof (imageDiff_run_inv prev buf0 map0 cur bw bh bw_pos prev_size buf_size map_size) as I.
  set (s := imageDiff_run prev buf0 map0 cur (8 * bw) (8 * bh)) in *.
  split.
  { rewrite (inv_count _ _ _ _ _ _ _ _ I). fold (all_blocks bw bh).
    rewrite dirty_among_all.
    - unfold all_blocks. rewrite length_done_blocks. lia.
    - intros [r c] Hin. apply in_all_blocks in Hin as [Hr Hc]. apply Hall; assumption. }
  split.
  { pose proof (inv_last_len _ _ _ _ _ _ _ _ I) as Hlen.
    apply list_eq. intros k.
    destruct (Nat.lt_ge_cases k (length prev)) as [Hk|Hk].
    - rewrite !peek_lookup by lia. f_equal.
      destruct (block_cover bw bh k bw_pos ltac:(lia))
        as (r & c & i & t & Hr & Hc & Hi & Ht & ->).
      rewrite (inv_last _ _ _ _ _ _ _ _ I) by assumption.
      rewrite (Hall r c Hr Hc), (before_end bh r c Hr). reflexivity.
    - rewrite !lookup_ge_None_2 by lia. reflexivity. }
  split; [apply (inv_buf_len _ _ _ _ _ _ _ _ I)|apply (inv_map_len _ _ _ _ _ _ _ _ I)].
Qed.
End AllDirty.

Lemma length_plain v : length (plain v) = 8 * 30 * (8 * 40) * 3.
Proof. unfold plain. rewrite length_replicate. lia. Qed.

Lemma dirty_plain a b r c :
  r < 40 -> c < 30 -> (192 < 3 * Z.abs (a - b))%Z ->
  dirty (plain a) (plain b) (8 * 30) r c = true.
Proof.
  intros Hr Hc Hab. apply dirty_replicate; [lia| |exact Hab].
  unfold block_off. lia.
Qed.

(** *** One call on a connected socket *)

Lemma online_call jpeg lay frame e s :
  connected (sock s) = true -> still_up e = true ->
  processFrameData jpeg lay (Some frame) e s
  = let sel := select_mode lay frame s in
    let tx := transmit jpeg lay frame (sock s) sel (forceFrameCount s) (checker s) in
    let rc := readConfirmation e (sock s) in
    Outcome (Pump (sel_last sel) (sel_buf sel) (sel_map sel) (tx_force tx) (tx_checker tx)
                  (sel_mode sel) (waitConnection s) (fst rc))
            (snd rc) (tx_events tx).
Proof.
  intros Hc Hu. unfold processFrameData.
  rewrite (maintain_up e s) by (rewrite Hc, Hu; reflexivity). reflexivity.
Qed.

Section OnScreen.
Variables (jpeg : encoder) (e : env).
Hypothesis e_up : still_up e = true.

#[local] Abbreviation call_on frame s := (processFrameData jpeg screen (Some frame) e s).

(** The refresh is due: FULL, whatever the frame. *)
Lemma step_full img f c m frame s :
  at_state img f c m s -> (100 < f)%Z ->
  at_state img 0 c FM_FULL (out_state (call_on frame s)).
Proof.
  intros (Hi & Hf & Hc & Hm & Hk & Hb & Hp) Hdue.
  rewrite (online_call jpeg screen frame e s Hk e_up). cbn zeta.
  unfold at_state. cbn [out_state lastImage forceFrameCount checker lastFrameMode sock
                         diffBuf diffMap].
  rewrite transmit_force, transmit_checker, connected_readConfirmation,
    length_sel_buf, length_sel_map, select_mode_eq, Hi.
  destruct (Z.gtb_spec (forceFrameCount s) 100) as [_|Hle]; [|lia].
  cbn [sel_mode sel_last]. cbn [Z.eqb Pos.eqb FM_FULL FM_NONE orb].
  auto 8.
Qed.

(** The frame is the one already shown: NONE. *)
Lemma step_none v f c m s :
  at_state (plain v) f c m s -> (f <= 100)%Z -> m <> FM_CHECKER ->
  at_state (plain v) (f + 1) c FM_NONE (out_state (call_on (plain v) s)).
Proof.
  intros (Hi & Hf & Hc & Hm & Hk & Hb & Hp) Hle Hnc.
  rewrite (online_call jpeg screen (plain v) e s Hk e_up). cbn zeta.
  unfold at_state. cbn [out_state lastImage forceFrameCount checker lastFrameMode sock
                         diffBuf diffMap].
  rewrite transmit_force, transmit_checker, connected_readConfirmation,
    length_sel_buf, length_sel_map, select_mode_eq, Hi.
  destruct (Z.gtb_spec (forceFrameCount s) 100) as [Hgt|_]; [lia|].
  destruct (Z.eqb_spec (lastFrameMode s) FM_CHECKER) as [E|_]; [congruence|].
  cbn zeta. change (width screen) with (8 * 30). change (height screen) with (8 * 40).
  destruct (imageDiff_run_clean (plain v) (diffBuf s) (diffMap s) (plain v) 30 40
              ltac:(lia) (length_plain v) ltac:(lia) ltac:(lia)) as (Hn & Hl & _).
  { intros r k _ _. apply dirty_same. lia. }
  rewrite Hn, Hl. cbn [sel_mode sel_last Nat.ltb Nat.leb Z.eqb FM_NONE FM_FULL orb].
  rewrite Hf. auto 8.
Qed.

(** The frame differs from the one shown in every block: CHECKER, written
    with the code [3 + checker]. *)
Lemma step_checker a b f c m s :
  at_state (plain a) f c m s -> (f <= 100)%Z -> m <> FM_CHECKER ->
  (c = 0 \/ c = 1)%Z -> (192 < 3 * Z.abs (a - b))%Z ->
  at_state (plain b) (f + 3) (1 - c) FM_CHECKER (out_state (call_on (plain b) s))
  /\ take 2 (wire (out_events (call_on (plain b) s))) = [(3 + c)%Z; 0%Z].
Proof.
  intros (Hi & Hf & Hc & Hm & Hk & Hb & Hp) Hle Hnc Hc01 Hab.
  rewrite (online_call jpeg screen (plain b) e s Hk e_up). cbn zeta.
  assert (Hsel : sel_mode (select_mode screen (plain b) s) = FM_CHECKER
                 /\ sel_last (select_mode screen (plain b) s) = Some (plain b)).
  { rewrite select_mode_eq, Hi.
    destruct (Z.gtb_spec (forceFrameCount s) 100) as [Hgt|_]; [lia|].
    destruct (Z.eqb_spec (lastFrameMode s) FM_CHECKER) as [E|_]; [congruence|].
    cbn zeta. change (width screen) with (8 * 30). change (height screen) with (8 * 40).
    destruct (imageDiff_run_all_dirty (plain a) (diffBuf s) (diffMap s) (plain b) 30 40
                ltac:(lia) (length_plain a) ltac:(lia) ltac:(lia) (length_plain b))
      as (Hn & Hl & _).
    { intros r k Hr Hk'. apply dirty_plain; assumption. }
    rewrite Hn, Hl. cbn [sel_mode sel_last]. split; reflexivity. }
  destruct Hsel as [Hsm Hsl].
  split.
  - unfold at_state. cbn [out_state lastImage forceFrameCount checker lastFrameMode sock
                           diffBuf diffMap].
    rewrite transmit_force, transmit_checker, connected_readConfirmation,
      length_sel_buf, length_sel_map, Hsm, Hsl.
    cbn [Z.eqb Pos.eqb FM_CHECKER FM_NONE FM_FULL FM_DIFF orb]. rewrite Hf, Hc.
    repeat split; try assumption.
    destruct Hc01 as [-> | ->]; reflexivity.
  - cbn [out_events].
    rewrite (transmit_checker_events jpeg screen (plain b) (sock s) _ _ _
               (or_introl Hsm) Hk).
    cbn zeta. cbn [wire flat_map app take]. rewrite Hc.
    destruct Hc01 as [-> | ->]; reflexivity.
Qed.

(** Calls with the frame already shown, as long as the refresh is not due. *)
Lemma run_none v c n : forall f m s,
  at_state (plain v) f c m s -> m <> FM_CHECKER -> (f + Z.of_nat n <= 101)%Z ->
  (exists m', m' <> FM_CHECKER
     /\ at_state (plain v) (f + Z.of_nat n) c m'
          (run_state jpeg screen (replicate n (Call (Some (plain v)) e)) s))
  /\ Forall (fun o => lastFrameMode (out_state o) <> FM_CHECKER
                      /\ lastFrameMode (out_state o) <> FM_CHECKER_COMPL)
       (run jpeg screen (replicate n (Call (Some (plain v)) e)) s).
Proof.
  induction n as [|n IH]; intros f m s Hs Hm Hf.
  - cbn [replicate run run_state]. split; [|constructor].
    exists m. split; [exact Hm|]. replace (f + Z.of_nat 0)%Z with f by lia. exact Hs.
  - cbn [replicate run run_state c_frame c_env].
    pose proof (step_none v f c m s Hs ltac:(lia) Hm) as H1.
    destruct (IH (f + 1)%Z FM_NONE _ H1 ltac:(discriminate) ltac:(lia)) as [IH1 IH2].
    split.
    + replace (f + Z.of_nat (S n))%Z with (f + 1 + Z.of_nat n)%Z by lia. exact IH1.
    + constructor; [|exact IH2].
      destruct H1 as (_ & _ & _ & -> & _). split; discriminate.
Qed.
End OnScreen.

(** The first call of a session on a network that connects. *)
Lemma step_first jpeg e v :
  connect_ok e = true ->
  at_state (plain v) 0 0 FM_FULL
    (out_state (processFrameData jpeg screen (Some (plain v)) e pump_init)).
Proof.
  intros Hok. unfold at_state, processFrameData.
  cbn [out_state lastImage forceFrameCount checker lastFrameMode sock diffBuf diffMap].
  rewrite transmit_force, transmit_checker, connected_readConfirmation,
    length_sel_buf, length_sel_map, select_mode_eq.
  cbn [pump_init lastImage sel_mode sel_last diffBuf diffMap forceFrameCount checker].
  cbn [Z.eqb Pos.eqb FM_FULL FM_NONE orb]. rewrite !length_replicate.
  split.
  { rewrite take_ge; [reflexivity|]. rewrite length_plain.
    change (width screen) with 240. change (height screen) with 320. lia. }
  split; [reflexivity|]. split; [reflexivity|]. split; [reflexivity|].
  split; [|split; reflexivity].
  unfold maintain. cbn [pump_init sock connected andb negb waitConnection Nat.eqb up_sock].
  exact Hok.
Qed.

Lemma run_state_app jpeg lay l1 : forall l2 s,
  run_state jpeg lay (l1 ++ l2) s = run_state jpeg lay l2 (run_state jpeg lay l1 s).
Proof. induction l1 as [|c l1 IH]; intros l2 s; [reflexivity|]. cbn [app run_state]. apply IH. Qed.

(** *** The phase counter is the parity of the checker transmissions *)

Lemma checker_step jpeg lay frame e s :
  (checker s = 0 \/ checker s = 1)%Z ->
  let s' := out_state (processFrameData jpeg lay (Some frame) e s) in
  checker s' = (if is_checker_mode (lastFrameMode s') then 1 - checker s else checker s)%Z.
Proof.
  intros Hc. cbn zeta. unfold processFrameData. cbn [out_state checker lastFrameMode].
  rewrite transmit_checker. unfold is_checker_mode.
  destruct (sel_mode_range lay frame s) as [R|[R|[R|[R|R]]]]; cbn zeta in R; rewrite R;
    cbn [Z.eqb Pos.eqb FM_NONE FM_FULL FM_DIFF FM_CHECKER FM_CHECKER_COMPL orb];
    try reflexivity; destruct Hc as [-> | ->]; reflexivity.
Qed.

Lemma checker_parity jpeg lay calls : forall s,
  (checker s = 0 \/ checker s = 1)%Z ->
  checker (run_state jpeg lay calls s)
  = ((checker s + Z.of_nat (checker_sends (frame_modes jpeg lay calls s))) mod 2)%Z.
Proof.
  induction calls as [|c calls IH]; intros s Hc.
  - cbn [run_state frame_modes]. unfold checker_sends. cbn [List.filter length].
    destruct Hc as [-> | ->]; reflexivity.
  - cbn [run_state frame_modes]. destruct (c_frame c) as [frame|].
    + pose proof (checker_step jpeg lay frame (c_env c) s Hc) as H1. cbn zeta in H1.
      set (s' := out_state (processFrameData jpeg lay (Some frame) (c_env c) s)) in *.
      assert (Hc' : (checker s' = 0 \/ checker s' = 1)%Z).
      { rewrite H1. destruct (is_checker_mode (lastFrameMode s')); lia. }
      rewrite (IH s' Hc'). unfold checker_sends. cbn [List.filter].
      rewrite H1. destruct (is_checker_mode (lastFrameMode s')); cbn [length]; lia.
    + rewrite IH by exact Hc. reflexivity.
Qed.

(** *** The two sessions with a pair that the refresh cuts *)

Lemma run_state_nil jpeg lay s : run_state jpeg lay [] s = s.
Proof. reflexivity. Qed.

Lemma run_state_show jpeg v l s :
  run_state jpeg screen (show v :: l) s
  = run_state jpeg screen l (out_state (processFrameData jpeg screen (Some (plain v)) online s)).
Proof. reflexivity. Qed.

Lemma at_lead jpeg a b c c' s :
  at_state (plain a) 0 c FM_FULL s -> (c = 0 \/ c = 1)%Z -> (192 < 3 * Z.abs (a - b))%Z ->
  c' = (1 - c)%Z ->
  at_state (plain b) 101 c' FM_CHECKER (run_state jpeg screen (lead a b) s).
Proof.
  intros Hs Hc Hab ->. unfold lead. rewrite run_state_app.
  destruct (run_none jpeg online eq_refl a c 98 0%Z FM_FULL s Hs ltac:(discriminate)
              ltac:(lia)) as [(m' & Hm' & H98) _].
  fold (show a) in H98. rewrite (run_state_show jpeg b []), run_state_nil.
  destruct (step_checker jpeg online eq_refl a b _ c m' _ H98 ltac:(lia) Hm' Hc Hab)
    as [H _].
  exact H.
Qed.

Lemma at_pair_cut_once jpeg :
  at_state (plain 255) 101 1 FM_CHECKER (run_state jpeg screen pair_cut_once pump_init).
Proof.
  unfold pair_cut_once. rewrite run_state_show.
  apply (at_lead jpeg 0 255 0 1).
  - apply step_first. reflexivity.
  - left. reflexivity.
  - lia.
  - reflexivity.
Qed.

Lemma at_pair_cut_twice jpeg :
  at_state (plain 0) 101 0 FM_CHECKER (run_state jpeg screen pair_cut_twice pump_init).
Proof.
  unfold pair_cut_twice. rewrite run_state_app, run_state_show.
  apply (at_lead jpeg 255 0 1 0).
  - apply (step_full jpeg online eq_refl (plain 255) 101 1 FM_CHECKER).
    + apply at_pair_cut_once.
    + lia.
  - right. reflexivity.
  - lia.
  - reflexivity.
Qed.

(** * The properties of the specification *)

(** C3.  For the block in row [r], column [c] of two frames [8 * bw] pixels
    wide, [squareDiff] adds up the absolute differences of the three channels
    pixel by pixel and answers 1 (dirty) exactly when the running sum gets
    above 3 * 64 = 192 at some pixel, which is exactly when the sum over the
    whole block is above 192; it answers 0 (clean) exactly when the whole sum
    stays at or below 192.  The scan returns at the first pixel whose running
    sum is above the threshold, with the cursors still on that pixel; only a
    clean block is scanned to its end. *)
Theorem squareDiff_threshold (prev cur : list Z) (bw r c : nat) :
  0 < bw ->
  let o := block_off (8 * bw) r c in
  let stride := 8 * bw * 3 in
  let sum := running_sum prev o cur o stride in
  MIN_SQDIFF = 192%Z
  /\ (squareDiff prev o cur o stride = 1%Z <-> exists p, p < 64 /\ (192 < sum (S p))%Z)
  /\ (squareDiff prev o cur o stride = 1%Z <-> (192 < sum 64%nat)%Z)
  /\ (squareDiff prev o cur o stride = 0%Z <-> (sum 64%nat <= 192)%Z)
  /\ (dirty prev cur (8 * bw) r c = true <-> (192 < sum 64%nat)%Z)
  /\ (forall p, p < 64 -> first_over prev o cur o stride p ->
        squareDiff_run prev o cur o stride = Returned 1%Z (sq_at prev o cur o stride p))
  /\ ((sum 64%nat <= 192)%Z ->
        squareDiff_run prev o cur o stride
        = Running (SqRegs (o + 8 * stride) (o + 8 * stride) (sum 64%nat))).
Proof.
  intros Hbw. cbn zeta.
  set (o := block_off (8 * bw) r c). set (stride := 8 * bw * 3).
  assert (Hs : 8 * 3 <= stride) by (unfold stride; lia).
  pose proof (squareDiff_one_iff prev cur o o stride Hs) as H1.
  pose proof (squareDiff_zero_iff prev cur o o stride Hs) as H0.
  change MIN_SQDIFF with 192%Z in *.
  split; [reflexivity|]. split; [|split; [exact H1|split; [exact H0|split]]].
  - rewrite H1. split.
    + intros H. exists 63. split; [lia|exact H].
    + intros (p & Hp & H).
      pose proof (running_sum_mono prev cur o o stride Hs (S p) 64 ltac:(lia)). lia.
  - unfold dirty. fold o. fold stride. rewrite <- H1.
    destruct (squareDiff_zero_or_one prev cur o o stride Hs) as [E|E]; rewrite E; cbn;
      split; intros; congruence.
  - split.
    + intros p Hp Hf. apply squareDiff_early_exit; assumption.
    + intros H. apply squareDiff_full_scan; assumption.
Qed.

Lemma squareDiff_threshold_witness :
  0 < 1
  /\ squareDiff (replicate 192 0%Z) (block_off 8 0 0) (replicate 192 1%Z) (block_off 8 0 0) 24
     = 0%Z.
Proof.
  split; [lia|].
  destruct (squareDiff_threshold (replicate 192 0%Z) (replicate 192 1%Z) 1 0 0 ltac:(lia))
    as (_ & _ & _ & H & _).
  apply H. vm_compute. discriminate.
Defined.

(** C4.  One run of [imageDiff] on frames of [bw] by [bh] blocks: the count
    it returns is the number of dirty blocks; in the previous-frame buffer
    every dirty block now holds the pixels of the current frame and every
    clean block still holds what it held; the first [192 * count] bytes of
    the packed buffer are the pixels of the dirty blocks of the current frame,
    block after block in scan order (row-major); and the bit of every block
    in the bitmap has been rewritten, 1 for a dirty block and 0 for a clean
    one. *)
Theorem imageDiff_effect (prev buf map cur : list Z) (bw bh : nat) :
  0 < bw ->
  length prev = 8 * bw * (8 * bh) * 3 ->
  8 * 8 * 3 * (bh * bw) <= length buf ->
  bh * bw <= 8 * length map ->
  let w := 8 * bw in
  let s := imageDiff_run prev buf map cur w (8 * bh) in
  let hit := dirty_among prev cur w (all_blocks bw bh) in
  imageDiff prev buf map cur w (8 * bh) = length hit
  /\ length (id_last s) = length prev
  /\ (forall r c i t, r < bh -> c < bw -> i < 8 -> t < 24 ->
        peek (id_last s) (block_off w r c + i * (w * 3) + t)
        = if dirty prev cur w r c
          then peek cur (block_off w r c + i * (w * 3) + t)
          else peek prev (block_off w r c + i * (w * 3) + t))
  /\ take (192 * length hit) (id_buf s) = packed cur w hit
  /\ length (id_map s) = length map
  /\ (forall r c, r < bh -> c < bw ->
        map_bit (id_map s) (r * bw + c) = dirty prev cur w r c).
Proof.
  intros Hbw Hp Hb Hm. cbn zeta.
  pose proof (imageDiff_run_inv prev buf map cur bw bh Hbw Hp Hb Hm) as I.
  unfold imageDiff, all_blocks.
  split; [apply (inv_count _ _ _ _ _ _ _ _ I)|].
  split; [apply (inv_last_len _ _ _ _ _ _ _ _ I)|].
  split.
  { intros r c i t Hr Hc Hi Ht.
    rewrite (inv_last _ _ _ _ _ _ _ _ I) by assumption.
    rewrite before_end by exact Hr. reflexivity. }
  split.
  { rewrite <- (inv_count _ _ _ _ _ _ _ _ I). apply (inv_buf _ _ _ _ _ _ _ _ I). }
  split; [apply (inv_map_len _ _ _ _ _ _ _ _ I)|].
  intros r c Hr Hc. apply (inv_bits _ _ _ _ _ _ _ _ I); [exact Hc|].
  apply before_end. exact Hr.
Qed.

Lemma imageDiff_effect_witness :
  imageDiff (replicate 384 0%Z) (replicate 384 7%Z) [255%Z]
            (replicate 24 9%Z ++ replicate 360 0%Z) (8 * 2) (8 * 1) = 1
  /\ take (192 * 1)
          (id_buf (imageDiff_run (replicate 384 0%Z) (replicate 384 7%Z) [255%Z]
                     (replicate 24 9%Z ++ replicate 360 0%Z) (8 * 2) (8 * 1)))
     = replicate 24 9%Z ++ replicate 168 0%Z.
Proof.
  destruct (imageDiff_effect (replicate 384 0%Z) (replicate 384 7%Z) [255%Z]
              (replicate 24 9%Z ++ replicate 360 0%Z) 2 1)
    as (Hn & _ & _ & Hb & _).
  - lia.
  - vm_compute. reflexivity.
  - vm_compute. lia.
  - vm_compute. lia.
  - assert (E : length (dirty_among (replicate 384 0%Z)
                          (replicate 24 9%Z ++ replicate 360 0%Z) (8 * 2) (all_blocks 2 1)) = 1)
      by (vm_compute; reflexivity).
    rewrite E in Hn, Hb. split; [exact Hn|].
    rewrite Hb. vm_compute. reflexivity.
Defined.

(** C1.  The mode of a call that brings a frame.  When a previous-frame
    buffer exists: FULL if [forceFrameCount > 100]; otherwise CHECKER_COMPL if
    the last mode was CHECKER; otherwise the differencer runs and the mode is
    CHECKER when its count is above 400 (a third of the 1200 blocks of the
    fixed grid), DIFF when the count is between 1 and 400, NONE when it is 0 -
    the count being the number of dirty blocks.  When no previous-frame buffer
    exists (the first call) the mode is FULL and the buffer becomes a copy of
    the frame. *)
Theorem mode_selection (jpeg : encoder) (lay : layout) (frame : list Z) (e : env) (s : pump) :
  let s' := out_state (processFrameData jpeg lay (Some frame) e s) in
  let mode := lastFrameMode s' in
  240 / 8 * (320 / 8) = 1200 /\ 1200 / 3 = 400
  /\ (lastImage s = None ->
        mode = FM_FULL
        /\ lastImage s' = Some (take (width lay * height lay * 3) frame)
        /\ (length frame = width lay * height lay * 3 -> lastImage s' = Some frame))
  /\ (forall prev, lastImage s = Some prev ->
        let n := imageDiff prev (diffBuf s) (diffMap s) frame (width lay) (height lay) in
        ((100 < forceFrameCount s)%Z -> mode = FM_FULL)
        /\ ((forceFrameCount s <= 100)%Z -> lastFrameMode s = FM_CHECKER ->
              mode = FM_CHECKER_COMPL)
        /\ ((forceFrameCount s <= 100)%Z -> lastFrameMode s <> FM_CHECKER ->
              lastImage s'
              = Some (id_last (imageDiff_run prev (diffBuf s) (diffMap s) frame
                                 (width lay) (height lay)))
              /\ (400 < n -> mode = FM_CHECKER)
              /\ (0 < n <= 400 -> mode = FM_DIFF)
              /\ (n = 0 -> mode = FM_NONE))
        /\ (forall bw bh, width lay = 8 * bw -> height lay = 8 * bh -> 0 < bw ->
              length prev = 8 * bw * (8 * bh) * 3 ->
              8 * 8 * 3 * (bh * bw) <= length (diffBuf s) ->
              bh * bw <= 8 * length (diffMap s) ->
              n = length (dirty_among prev frame (8 * bw) (all_blocks bw bh)))).
Proof.
  cbn zeta. unfold processFrameData. cbn [out_state lastFrameMode lastImage].
  rewrite select_mode_eq.
  split; [reflexivity|]. split; [reflexivity|]. split.
  - intros ->. cbn [sel_mode sel_last]. split; [reflexivity|]. split; [reflexivity|].
    intros Hlen. rewrite take_ge by lia. reflexivity.
  - intros prev ->. split; [|split; [|split]].
    + intros H. destruct (Z.gtb_spec (forceFrameCount s) 100); [reflexivity|lia].
    + intros H E. destruct (Z.gtb_spec (forceFrameCount s) 100); [lia|].
      rewrite E. reflexivity.
    + intros H E. destruct (Z.gtb_spec (forceFrameCount s) 100); [lia|].
      destruct (Z.eqb_spec (lastFrameMode s) FM_CHECKER); [contradiction|].
      cbn zeta. cbn [sel_mode sel_last]. unfold imageDiff.
      split; [reflexivity|]. split; [|split].
      * intros Hn. destruct (Nat.ltb_spec 400 (numSqDiff
          (imageDiff_run prev (diffBuf s) (diffMap s) frame (width lay) (height lay))));
          [reflexivity|lia].
      * intros Hn. destruct (Nat.ltb_spec 400 (numSqDiff
          (imageDiff_run prev (diffBuf s) (diffMap s) frame (width lay) (height lay))));
          [lia|].
        destruct (Nat.ltb_spec 0 (numSqDiff
          (imageDiff_run prev (diffBuf s) (diffMap s) frame (width lay) (height lay))));
          [reflexivity|lia].
      * intros Hn. rewrite Hn. reflexivity.
    + intros bw bh -> -> Hbw Hp Hb Hm.
      pose proof (imageDiff_run_inv prev (diffBuf s) (diffMap s) frame bw bh Hbw Hp Hb Hm) as I.
      unfold imageDiff, all_blocks. apply (inv_count _ _ _ _ _ _ _ _ I).
Qed.

(** C5.  The counters after a call that brings a frame: [forceFrameCount] is
    0 after FULL, one more after NONE, five more after DIFF, three more after
    either checker phase; [checker] flips between 0 and 1 after either checker
    phase and is left alone by every other mode.  A call without a frame
    leaves both alone. *)
Theorem counters_update (jpeg : encoder) (lay : layout) (frame : list Z) (e : env) (s : pump) :
  let s' := out_state (processFrameData jpeg lay (Some frame) e s) in
  let mode := lastFrameMode s' in
  (mode = FM_NONE \/ mode = FM_FULL \/ mode = FM_DIFF \/ mode = FM_CHECKER
   \/ mode = FM_CHECKER_COMPL)
  /\ (mode = FM_FULL -> forceFrameCount s' = 0%Z)
  /\ (mode = FM_NONE -> forceFrameCount s' = (forceFrameCount s + 1)%Z)
  /\ (mode = FM_DIFF -> forceFrameCount s' = (forceFrameCount s + 5)%Z)
  /\ (mode = FM_CHECKER \/ mode = FM_CHECKER_COMPL ->
        forceFrameCount s' = (forceFrameCount s + 3)%Z
        /\ checker s' = Z.land (checker s + 1) 1
        /\ (checker s = 0%Z -> checker s' = 1%Z)
        /\ (checker s = 1%Z -> checker s' = 0%Z))
  /\ (mode <> FM_CHECKER -> mode <> FM_CHECKER_COMPL -> checker s' = checker s)
  /\ (let p := out_state (processFrameData jpeg lay None e s) in
      forceFrameCount p = forceFrameCount s /\ checker p = checker s
      /\ lastFrameMode p = lastFrameMode s).
Proof.
  cbn zeta. unfold processFrameData.
  cbn [out_state lastFrameMode forceFrameCount checker].
  rewrite transmit_force, transmit_checker.
  pose proof (sel_mode_range lay frame s) as R. cbn zeta in R.
  set (m := sel_mode (select_mode lay frame s)) in *.
  split; [exact R|].
  unfold FM_NONE, FM_FULL, FM_DIFF, FM_CHECKER, FM_CHECKER_COMPL in *.
  repeat split; intros;
    destruct R as [R|[R|[R|[R|R]]]]; rewrite R in *; cbn;
    try reflexivity; try lia; try congruence;
    repeat match goal with H : _ \/ _ |- _ => destruct H end; try lia; try congruence;
    match goal with H : checker s = _ |- _ => rewrite H; reflexivity end.
Qed.

(** C10.  With a previous-frame buffer [prev] in place, a call that sends
    FULL or CHECKER_COMPL, and a call without a frame, leave the buffer as it
    is; the other modes leave in it what the differencer run made of [prev].
    So when a FULL is forced ([forceFrameCount > 100]), the call after it
    runs the differencer against [prev], the reference from before the FULL,
    and not against the frame that was sent in full. *)
Theorem previous_frame_mutation (jpeg : encoder) (lay : layout) (frame : list Z) (e : env)
    (s : pump) (prev : list Z) :
  lastImage s = Some prev ->
  let s' := out_state (processFrameData jpeg lay (Some frame) e s) in
  let ran f := imageDiff_run prev (diffBuf s) (diffMap s) f (width lay) (height lay) in
  (lastFrameMode s' = FM_FULL \/ lastFrameMode s' = FM_CHECKER_COMPL ->
     lastImage s' = Some prev /\ diffBuf s' = diffBuf s /\ diffMap s' = diffMap s)
  /\ (lastFrameMode s' = FM_NONE \/ lastFrameMode s' = FM_DIFF \/ lastFrameMode s' = FM_CHECKER ->
        lastImage s' = Some (id_last (ran frame)))
  /\ lastImage (out_state (processFrameData jpeg lay None e s)) = Some prev
  /\ ((100 < forceFrameCount s)%Z ->
        lastFrameMode s' = FM_FULL
        /\ lastImage s' = Some prev
        /\ forall frame2 e2,
             let s2 := out_state (processFrameData jpeg lay (Some frame2) e2 s') in
             lastImage s2 = Some (id_last (ran frame2))
             /\ diffBuf s2 = id_buf (ran frame2)
             /\ diffMap s2 = id_map (ran frame2)).
Proof.
  intros Hprev. cbn zeta. unfold processFrameData.
  cbn [out_state lastFrameMode lastImage diffBuf diffMap forceFrameCount].
  rewrite !select_mode_eq, Hprev.
  unfold FM_NONE, FM_FULL, FM_DIFF, FM_CHECKER, FM_CHECKER_COMPL.
  destruct (Z.gtb_spec (forceFrameCount s) 100) as [Hf|Hf].
  - cbn [sel_mode sel_last sel_buf sel_map lastImage diffBuf diffMap forceFrameCount
         lastFrameMode].
    split; [intros _; repeat split|]. split; [intros [H|[H|H]]; discriminate H|].
    split; [reflexivity|]. intros _. split; [reflexivity|]. split; [reflexivity|].
    intros frame2 e2. rewrite transmit_force. cbn [sel_mode]. cbn.
    repeat split.
  - destruct (Z.eqb_spec (lastFrameMode s) 3) as [Hm|Hm].
    + cbn [sel_mode sel_last sel_buf sel_map].
      split; [intros _; repeat split|]. split; [intros [H|[H|H]]; discriminate H|].
      split; [reflexivity|]. intros H. lia.
    + cbn zeta. cbn [sel_mode sel_last sel_buf sel_map].
      split.
      * intros [H|H]; destruct (400 <? _); try discriminate H;
          destruct (0 <? _); discriminate H.
      * split; [intros _; reflexivity|]. split; [reflexivity|]. intros H. lia.
Qed.

Lemma previous_frame_mutation_witness :
  lastImage (Pump (Some (replicate 192 0%Z)) (replicate 192 0%Z) [0%Z] 101 0 FM_NONE 0
                  (Socket true []))
  = Some (replicate 192 0%Z)
  /\ lastImage
       (out_state
          (processFrameData (fun _ _ _ _ => []) (Layout 8 8) (Some (replicate 192 200%Z))
             (Env true true [])
             (Pump (Some (replicate 192 0%Z)) (replicate 192 0%Z) [0%Z] 101 0 FM_NONE 0
                   (Socket true []))))
     = Some (replicate 192 0%Z).
Proof.
  split; [reflexivity|].
  destruct (previous_frame_mutation (fun _ _ _ _ => []) (Layout 8 8) (replicate 192 200%Z)
              (Env true true [])
              (Pump (Some (replicate 192 0%Z)) (replicate 192 0%Z) [0%Z] 101 0 FM_NONE 0
                    (Socket true []))
              (replicate 192 0%Z) eq_refl) as (_ & _ & _ & H).
  destruct H as (_ & H & _); [cbn; lia|exact H].
Defined.

(** C2, as the code has it.  In a session that starts at program start, every
    102 frame-supplying calls in a row hold a call that sends FULL, whatever
    the frames and whatever the network does: a call sends FULL as soon as
    [forceFrameCount] is above 100, and the counter, 0 after a FULL, grows by
    at least one with every other frame. *)
Theorem full_every_102 (jpeg : encoder) (lay : layout) (calls : list call) :
  full_in_every_window 102 (frame_modes jpeg lay calls pump_init).
Proof. apply full_in_102. cbn. lia. Qed.

(** C2 as stated fails: 102 calls with the same frame send FULL first and
    then NONE 101 times, so the last 101 calls hold no FULL. *)
Lemma full_every_101_counterexample :
  length (frame_modes (fun _ _ _ _ => []) (Layout 8 8)
            (replicate 102 (Call (Some (replicate 192 0%Z)) (Env true true []))) pump_init)
  = 102
  /\ ~ full_in_every_window 101
         (frame_modes (fun _ _ _ _ => []) (Layout 8 8)
            (replicate 102 (Call (Some (replicate 192 0%Z)) (Env true true []))) pump_init).
Proof.
  assert (E : frame_modes (fun _ _ _ _ => []) (Layout 8 8)
                (replicate 102 (Call (Some (replicate 192 0%Z)) (Env true true []))) pump_init
              = FM_FULL :: replicate 101 FM_NONE) by (vm_compute; reflexivity).
  rewrite E. split; [reflexivity|].
  intros H. destruct (H 1) as (k & Hk & Hfull).
  - cbn [length]. rewrite length_replicate. lia.
  - destruct k as [|k]; [lia|].
    change (replicate 101 FM_NONE !! k = Some FM_FULL) in Hfull.
    rewrite lookup_replicate_2 in Hfull by lia. discriminate Hfull.
Qed.

(** C6.  On a frame of even width the checkerboard loop run with phase [c]
    stores the pixels at the positions (row [j], column [i]) with
    [c + j + i] even, row after row, [width / 2] of them in every row.  Each
    position of the frame is taken by exactly one of the phases 0 and 1.  A
    call that sends a checker mode samples with the phase held in [checker]
    and flips it, so two checker transmissions in a row use the two phases. *)
Theorem checkerboard_completeness (frame : list Z) (w h : nat) :
  Nat.even w = true ->
  (forall c, c < 2 ->
     checker_sample frame w h (Z.of_nat c) = pixels_at frame w (sampled_positions c w h))
  /\ (forall c j i,
        In (j, i) (sampled_positions c w h) <-> j < h /\ i < w /\ Nat.even (c + j + i) = true)
  /\ (forall c, List.NoDup (sampled_positions c w h))
  /\ (forall c j, length (sampled_cols c j w) = w / 2)
  /\ (forall j i, j < h -> i < w ->
        (In (j, i) (sampled_positions 0 w h) /\ ~ In (j, i) (sampled_positions 1 w h))
        \/ (~ In (j, i) (sampled_positions 0 w h) /\ In (j, i) (sampled_positions 1 w h)))
  /\ (forall jpeg e s,
        let o := processFrameData jpeg (Layout w h) (Some frame) e s in
        (checker s = 0 \/ checker s = 1)%Z ->
        lastFrameMode (out_state o) = FM_CHECKER
        \/ lastFrameMode (out_state o) = FM_CHECKER_COMPL ->
        In (EvCompress (checker_sample frame w h (checker s)) (w / 2) h 70) (out_events o)
        /\ checker (out_state o) = (1 - checker s)%Z).
Proof.
  intros Hw. split; [|split; [|split; [|split; [|split]]]].
  - intros c Hc. rewrite <- checker_sample_spec by exact Hw.
    destruct c as [|[|c]]; [reflexivity|reflexivity|lia].
  - intros c j i. apply elem_of_sampled_positions.
  - intros c. apply NoDup_sampled_positions.
  - intros c j. apply Nat.even_spec in Hw as [n ->].
    rewrite length_sampled_cols. lia.
  - intros j i Hj Hi. rewrite !elem_of_sampled_positions.
    pose proof (sampled_flip 0 j i) as F.
    destruct (sampled 0 j i); cbn [negb] in F; [left|right]; (split; [|try tauto]).
    + tauto.
    + intros (_ & _ & H). congruence.
    + intros (_ & _ & H). congruence.
  - intros jpeg e s o Hck Hm. subst o. rewrite process_events.
    unfold processFrameData in *. cbn [out_state lastFrameMode checker] in *.
    rewrite transmit_checker. split.
    + apply in_or_app. right. unfold transmit.
      destruct Hm as [Hm|Hm]; rewrite Hm; cbn [Z.eqb orb width height FM_CHECKER FM_NONE
        FM_FULL FM_DIFF FM_CHECKER_COMPL Pos.eqb]; left; reflexivity.
    + destruct Hm as [Hm|Hm]; rewrite Hm; destruct Hck as [-> | ->]; reflexivity.
Qed.

Lemma checkerboard_completeness_witness :
  Nat.even 4 = true
  /\ checker_sample [1; 2; 3; 4; 5; 6; 7; 8; 9; 10; 11; 12;
                     13; 14; 15; 16; 17; 18; 19; 20; 21; 22; 23; 24]%Z 4 2 (Z.of_nat 1)
     = pixels_at [1; 2; 3; 4; 5; 6; 7; 8; 9; 10; 11; 12;
                  13; 14; 15; 16; 17; 18; 19; 20; 21; 22; 23; 24]%Z 4
                 (sampled_positions 1 4 2).
Proof.
  split; [reflexivity|].
  apply (checkerboard_completeness
           [1; 2; 3; 4; 5; 6; 7; 8; 9; 10; 11; 12;
            13; 14; 15; 16; 17; 18; 19; 20; 21; 22; 23; 24]%Z 4 2 eq_refl).
  lia.
Defined.

(** C7.  A call that sends DIFF over a connected socket: the differencer
    found between 1 and 400 dirty blocks; the packed buffer is compressed as
    an image 8 pixels wide and [8 * count] pixels high, that is its first
    [192 * count] bytes; and the bytes written are, in this order, the mode
    code 2 on two bytes, the 16-bit length of the compressed data on two
    bytes, the 150 bytes of the bitmap, and the compressed data (all of it
    when its length fits in 16 bits). *)
Theorem diff_transmission (jpeg : encoder) (lay : layout) (frame : list Z) (e : env)
    (s : pump) :
  let o := processFrameData jpeg lay (Some frame) e s in
  let s' := out_state o in
  lastFrameMode s' = FM_DIFF ->
  connected (sock s') = true ->
  length (diffMap s) = 150 ->
  exists prev, lastImage s = Some prev
  /\ let n := imageDiff prev (diffBuf s) (diffMap s) frame (width lay) (height lay) in
     let jpg := jpeg (take (192 * n) (diffBuf s')) 8 (8 * n) 70%Z in
     let size := (Z.of_nat (length jpg) mod 65536)%Z in
     0 < n <= 400
     /\ out_events o
        = up_events (maintain e s)
          ++ [EvCompress (diffBuf s') 8 (8 * n) 70; EvWrite [2; 0]%Z; EvWrite (le16 size);
              EvWrite (diffMap s'); EvWrite (take (Z.to_nat size) jpg)]
     /\ length (diffMap s') = 150
     /\ wire (out_events o) = [2; 0]%Z ++ le16 size ++ diffMap s' ++ take (Z.to_nat size) jpg
     /\ ((Z.of_nat (length jpg) < 65536)%Z ->
           wire (out_events o)
           = [2; 0]%Z ++ le16 (Z.of_nat (length jpg)) ++ diffMap s' ++ jpg).
Proof.
  cbn zeta. intros Hmode Hconn Hmap.
  rewrite connected_after in Hconn. rewrite process_events.
  pose proof (length_sel_map lay frame s) as Hlen. rewrite Hmap in Hlen.
  unfold processFrameData in *. cbn [out_state lastFrameMode diffBuf diffMap] in *.
  pose proof (transmit_diff_events jpeg lay frame (up_sock (maintain e s))
                (select_mode lay frame s) (forceFrameCount s) (checker s) Hmode Hconn) as Hev.
  cbn zeta in Hev. rewrite Hev. clear Hev.
  rewrite (take_ge (sel_map (select_mode lay frame s)) 150) by lia.
  change (le16 2) with [2; 0]%Z.
  revert Hmode Hlen. rewrite select_mode_eq.
  destruct (lastImage s) as [prev|]; [|discriminate].
  destruct (forceFrameCount s >? 100)%Z; [discriminate|].
  destruct (lastFrameMode s =? FM_CHECKER)%Z; [discriminate|].
  cbn zeta. cbn [sel_mode sel_numSq sel_buf sel_map]. unfold imageDiff.
  set (r := imageDiff_run prev (diffBuf s) (diffMap s) frame (width lay) (height lay)).
  intros Hmode Hlen. exists prev. split; [reflexivity|].
  assert (Hn : 0 < numSqDiff r <= 400).
  { destruct (Nat.ltb_spec 400 (numSqDiff r)); [discriminate|].
    destruct (Nat.ltb_spec 0 (numSqDiff r)); [lia|discriminate]. }
  replace (8 * (8 * numSqDiff r) * 3) with (192 * numSqDiff r) by lia.
  set (jpg := jpeg (take (192 * numSqDiff r) (id_buf r)) 8 (8 * numSqDiff r) 70%Z).
  assert (Hw : wire (up_events (maintain e s)
                 ++ [EvCompress (id_buf r) 8 (8 * numSqDiff r) 70; EvWrite [2; 0]%Z;
                     EvWrite (le16 (Z.of_nat (length jpg) mod 65536));
                     EvWrite (id_map r);
                     EvWrite (take (Z.to_nat (Z.of_nat (length jpg) mod 65536)) jpg)])
               = [2; 0]%Z ++ le16 (Z.of_nat (length jpg) mod 65536) ++ id_map r
                 ++ take (Z.to_nat (Z.of_nat (length jpg) mod 65536)) jpg).
  { rewrite wire_app. destruct (maintain_quiet e s) as [-> _].
    cbn [wire flat_map app]. rewrite app_nil_r. reflexivity. }
  split; [exact Hn|]. split; [reflexivity|]. split; [exact Hlen|]. split; [exact Hw|].
  intros Hsmall. rewrite Hw. subst jpg r.
  rewrite Z.mod_small by lia. rewrite Nat2Z.id, firstn_all. reflexivity.
Qed.

Lemma diff_transmission_witness :
  wire (out_events
          (processFrameData (fun d _ _ _ => take 3 d) (Layout 16 8)
             (Some (replicate 24 9%Z ++ replicate 360 0%Z)) (Env true true [])
             (Pump (Some (replicate 384 0%Z)) (replicate 384 0%Z) (replicate 150 0%Z)
                   0 0 FM_NONE 0 (Socket true []))))
  = [2; 0; 3; 0; 1]%Z ++ replicate 149 0%Z ++ [9; 9; 9]%Z.
Proof.
  destruct (diff_transmission (fun d _ _ _ => take 3 d) (Layout 16 8)
              (replicate 24 9%Z ++ replicate 360 0%Z) (Env true true [])
              (Pump (Some (replicate 384 0%Z)) (replicate 384 0%Z) (replicate 150 0%Z)
                    0 0 FM_NONE 0 (Socket true [])))
    as (prev & Hprev & _ & _ & _ & H & _).
  - vm_compute. reflexivity.
  - vm_compute. reflexivity.
  - vm_compute. reflexivity.
  - cbn [lastImage] in Hprev. injection Hprev as <-.
    rewrite H. vm_compute. reflexivity.
Defined.

(** C8.  [socketSend] on a socket that is not connected writes nothing and
    returns 0, so a call made while the socket is down hands no byte to the
    socket: the frame is dropped, and nothing of it is kept for a later
    attempt.  Only the connection is retried: a call that finds the socket
    down tries to connect exactly when the wait counter is 0, and arms it to
    300; otherwise it only counts down.  After a failed attempt the next 300
    calls neither try nor write, and the call after them tries again. *)
Theorem send_while_disconnected (jpeg : encoder) (lay : layout)
    (frameData : option (list Z)) (e : env) (s : pump) :
  let o := processFrameData jpeg lay frameData e s in
  (forall sk data sz, connected sk = false -> socketSend sk data sz = ([], 0%Z))
  /\ (connected (sock (out_state o)) = false ->
        writes (out_events o) = false /\ wire (out_events o) = [])
  /\ (connected (sock s) && still_up e = true ->
        attempts (out_events o) = false /\ waitConnection (out_state o) = waitConnection s)
  /\ (connected (sock s) && still_up e = false ->
        attempts (out_events o) = (waitConnection s =? 0)
        /\ waitConnection (out_state o)
           = (if waitConnection s =? 0 then 300 else waitConnection s - 1)
        /\ connected (sock (out_state o))
           = (if waitConnection s =? 0 then connect_ok e else false))
  /\ (connected (sock s) && still_up e = false -> waitConnection s = 0 ->
      connect_ok e = false ->
        forall calls c, length calls = 300 ->
          Forall (fun o' => attempts (out_events o') = false /\ writes (out_events o') = false)
                 (run jpeg lay calls (out_state o))
          /\ connected (sock (run_state jpeg lay calls (out_state o))) = false
          /\ waitConnection (run_state jpeg lay calls (out_state o)) = 0
          /\ attempts (out_events (processFrameData jpeg lay (c_frame c) (c_env c)
                                     (run_state jpeg lay calls (out_state o)))) = true).
Proof.
  cbn zeta.
  assert (Htx : attempts (match frameData with
                          | None => []
                          | Some frame =>
                              tx_events (transmit jpeg lay frame (up_sock (maintain e s))
                                           (select_mode lay frame s) (forceFrameCount s)
                                           (checker s))
                          end) = false).
  { destruct frameData; [apply transmit_no_attempt|reflexivity]. }
  split; [intros sk data sz H; apply socketSend_off; exact H|].
  split; [|split; [|split]].
  - rewrite connected_after, process_events, writes_app, wire_app. intros Hc.
    destruct (maintain_quiet e s) as [-> ->].
    destruct frameData as [frame|]; [|split; reflexivity].
    destruct (transmit_off jpeg lay frame (up_sock (maintain e s)) (select_mode lay frame s)
                (forceFrameCount s) (checker s) Hc) as (-> & _ & ->).
    split; reflexivity.
  - intros Hup. rewrite process_events, attempts_app, process_wait, Htx.
    rewrite (maintain_up e s Hup). split; reflexivity.
  - intros Hdown. rewrite process_events, attempts_app, process_wait, connected_after, Htx.
    destruct (maintain_down e s Hdown) as (-> & -> & ->).
    rewrite orb_false_r. repeat split.
  - intros Hdown Hw0 Hfail calls c Hlen.
    set (o := processFrameData jpeg lay frameData e s).
    destruct (maintain_down e s Hdown) as (_ & Hw & Hk).
    rewrite Hw0 in Hw, Hk. cbn [Nat.eqb] in Hw, Hk. rewrite Hfail in Hk.
    assert (Hc1 : connected (sock (out_state o)) = false)
      by (unfold o; rewrite connected_after; exact Hk).
    assert (Hw1 : waitConnection (out_state o) = 300)
      by (unfold o; rewrite process_wait; exact Hw).
    destruct (quiet_countdown jpeg lay calls (out_state o) Hc1 ltac:(lia)) as (Q1 & Q2 & Q3).
    split; [exact Q1|]. split; [exact Q3|]. split; [lia|].
    rewrite process_events, attempts_app.
    assert (Hdown' : connected (sock (run_state jpeg lay calls (out_state o)))
                     && still_up (c_env c) = false) by (rewrite Q3; reflexivity).
    destruct (maintain_down _ _ Hdown') as (-> & _ & _).
    replace (waitConnection (run_state jpeg lay calls (out_state o))) with 0 by lia.
    reflexivity.
Qed.

(** C9.  A call that sends a checker mode writes the code [3 + checker] (the
    phase counter as it is before the call), whichever of CHECKER and
    CHECKER_COMPL was selected, and flips the counter; from program start the
    counter is therefore the parity of the number of checker transmissions
    made so far.  Hence, when a checker pair is half done (last mode CHECKER)
    and the refresh is due, the next frame is sent FULL and leaves the phase
    counter alone; every later call up to the next checker mode leaves it
    alone too; that next checker mode is CHECKER, the state records CHECKER
    as the last mode, and the code written is [3 + checker]: 4, the code of
    CHECKER_COMPL, when the counter is 1, and 3 when the counter is 0. *)
Theorem checker_wire_code (jpeg : encoder) (lay : layout) :
  (forall frame e s,
     let o := processFrameData jpeg lay (Some frame) e s in
     lastFrameMode (out_state o) = FM_CHECKER
     \/ lastFrameMode (out_state o) = FM_CHECKER_COMPL ->
     connected (sock (out_state o)) = true ->
     (checker s = 0 \/ checker s = 1)%Z ->
     take 2 (wire (out_events o)) = le16 (3 + checker s)
     /\ le16 (3 + checker s) = [(3 + checker s)%Z; 0%Z]
     /\ checker (out_state o) = (1 - checker s)%Z)
  /\ (forall calls,
        let s := run_state jpeg lay calls pump_init in
        (checker s = 0 \/ checker s = 1)%Z
        /\ checker s
           = Z.of_nat (checker_sends (frame_modes jpeg lay calls pump_init) mod 2))
  /\ (forall s frameB eB calls frameC eC,
        lastFrameMode s = FM_CHECKER -> (checker s = 0 \/ checker s = 1)%Z ->
        (100 < forceFrameCount s)%Z -> lastImage s <> None ->
        let sB := out_state (processFrameData jpeg lay (Some frameB) eB s) in
        let sC := run_state jpeg lay calls sB in
        let oC := processFrameData jpeg lay (Some frameC) eC sC in
        Forall (fun o => lastFrameMode (out_state o) <> FM_CHECKER
                         /\ lastFrameMode (out_state o) <> FM_CHECKER_COMPL)
               (run jpeg lay calls sB) ->
        (lastFrameMode (out_state oC) = FM_CHECKER
         \/ lastFrameMode (out_state oC) = FM_CHECKER_COMPL) ->
        connected (sock (out_state oC)) = true ->
        lastFrameMode sB = FM_FULL /\ checker sB = checker s
        /\ lastFrameMode (out_state oC) = FM_CHECKER
        /\ take 2 (wire (out_events oC)) = [(3 + checker s)%Z; 0%Z]
        /\ (checker s = 1%Z -> take 2 (wire (out_events oC)) = [FM_CHECKER_COMPL; 0%Z])
        /\ (checker s = 0%Z -> take 2 (wire (out_events oC)) = [FM_CHECKER; 0%Z])).
Proof.
  assert (P1 : forall frame e s,
     let o := processFrameData jpeg lay (Some frame) e s in
     lastFrameMode (out_state o) = FM_CHECKER
     \/ lastFrameMode (out_state o) = FM_CHECKER_COMPL ->
     connected (sock (out_state o)) = true ->
     (checker s = 0 \/ checker s = 1)%Z ->
     take 2 (wire (out_events o)) = le16 (3 + checker s)
     /\ le16 (3 + checker s) = [(3 + checker s)%Z; 0%Z]
     /\ checker (out_state o) = (1 - checker s)%Z).
  { intros frame e s o Hm Hc Hck. subst o.
    rewrite connected_after in Hc. rewrite process_events, wire_app.
    destruct (maintain_quiet e s) as [-> _].
    unfold processFrameData in *. cbn [out_state lastFrameMode checker] in *.
    rewrite (transmit_checker_events jpeg lay frame _ _ _ _ Hm Hc), transmit_checker.
    cbn zeta. cbn [wire flat_map app take].
    destruct Hm as [Hm|Hm]; rewrite Hm; destruct Hck as [-> | ->]; repeat split. }
  split; [exact P1|]. split.
  { intros calls. cbn zeta.
    pose proof (checker_parity jpeg lay calls pump_init (or_introl eq_refl)) as Hp.
    change (checker pump_init) with 0%Z in Hp. rewrite Hp. lia. }
  intros s frameB eB calls frameC eC Hlast Hchk Hforce Himg sB sC oC Hquiet HmC HcC.
  assert (HB : lastFrameMode sB = FM_FULL /\ checker sB = checker s).
  { subst sB. unfold processFrameData. cbn [out_state lastFrameMode checker].
    rewrite transmit_checker, select_mode_eq.
    destruct (lastImage s); [|contradiction].
    destruct (Z.gtb_spec (forceFrameCount s) 100); [|lia].
    cbn [sel_mode]. split; reflexivity. }
  destruct HB as [HBm HBc].
  assert (HCc : checker sC = checker s).
  { subst sC. rewrite (checker_kept jpeg lay calls sB Hquiet). exact HBc. }
  assert (HCm : lastFrameMode sC <> FM_CHECKER).
  { subst sC. apply last_mode_kept; [rewrite HBm; discriminate|exact Hquiet]. }
  assert (HmC' : lastFrameMode (out_state oC) = FM_CHECKER).
  { destruct HmC as [H|H]; [exact H|]. exfalso. revert H. subst oC.
    unfold processFrameData. cbn [out_state lastFrameMode]. rewrite select_mode_eq.
    destruct (lastImage sC); [|discriminate].
    destruct (forceFrameCount sC >? 100)%Z; [discriminate|].
    destruct (Z.eqb_spec (lastFrameMode sC) FM_CHECKER); [contradiction|].
    cbn zeta. cbn [sel_mode]. destruct (400 <? _); [discriminate|].
    destruct (0 <? _); discriminate. }
  destruct (P1 frameC eC sC HmC HcC ltac:(rewrite HCc; exact Hchk)) as (Hw & Hle & _).
  fold oC in Hw. rewrite HCc in Hw, Hle. rewrite Hle in Hw.
  split; [exact HBm|]. split; [exact HBc|]. split; [exact HmC'|]. split; [exact Hw|].
  split; intros E; rewrite Hw, E; reflexivity.
Qed.

(** The first pair that the refresh cuts in a session (FULL, 98 times NONE,
    CHECKER written with code 3, then the forced FULL and 98 times NONE):
    the next CHECKER is written with code 4. *)
Lemma checker_wire_code_witness :
  lastFrameMode
    (out_state
       (processFrameData silent screen (Some (plain 0)) online
          (run_state silent screen (replicate 98 (show 255))
             (out_state
                (processFrameData silent screen (Some (plain 255)) online
                   (run_state silent screen pair_cut_once pump_init))))))
  = FM_CHECKER
  /\ take 2
       (wire
          (out_events
             (processFrameData silent screen (Some (plain 0)) online
                (run_state silent screen (replicate 98 (show 255))
                   (out_state
                      (processFrameData silent screen (Some (plain 255)) online
                         (run_state silent screen pair_cut_once pump_init)))))))
     = [FM_CHECKER_COMPL; 0%Z].
Proof.
  pose proof (at_pair_cut_once silent) as H1.
  pose proof (step_full silent online eq_refl _ _ _ _ (plain 255) _ H1 ltac:(lia)) as HB.
  destruct (run_none silent online eq_refl 255 1 98 0%Z FM_FULL _ HB ltac:(discriminate)
              ltac:(lia)) as [(m' & Hm' & HC) Hquiet].
  destruct (step_checker silent online eq_refl 255 0 _ 1 m' _ HC ltac:(lia) Hm'
              ltac:(right; reflexivity) ltac:(lia)) as [HD _].
  destruct H1 as (Hi1 & Hf1 & Hc1 & Hm1 & _).
  destruct HD as (_ & _ & _ & HmD & HkD & _).
  destruct (checker_wire_code silent screen) as (_ & _ & P3).
  destruct (P3 (run_state silent screen pair_cut_once pump_init) (plain 255) online
              (replicate 98 (show 255)) (plain 0) online
              Hm1 ltac:(right; exact Hc1) ltac:(rewrite Hf1; lia)
              ltac:(rewrite Hi1; discriminate) Hquiet (or_introl HmD) HkD)
    as (_ & _ & Q3 & _ & Q5 & _).
  split; [exact Q3|exact (Q5 Hc1)].
Defined.

(** C9 as stated fails at the second pair that the refresh cuts.  The session
    [pair_cut_twice] is: FULL, 98 times NONE, CHECKER (written with code 3,
    phase 1 afterwards), the forced FULL, 98 times NONE, CHECKER (written with
    code 4, phase 0 afterwards).  The last mode is CHECKER and the count is
    101, so the next call sends FULL in place of the second half of the pair;
    the call after that brings a frame that differs everywhere, selects
    CHECKER, and is written with code 3, not 4. *)
Lemma checker_wire_code_counterexample :
  lastFrameMode (run_state silent screen pair_cut_twice pump_init) = FM_CHECKER
  /\ (100 < forceFrameCount (run_state silent screen pair_cut_twice pump_init))%Z
  /\ lastFrameMode (run_state silent screen (pair_cut_twice ++ [show 0]) pump_init) = FM_FULL
  /\ lastFrameMode
       (out_state
          (processFrameData silent screen (Some (plain 255)) online
             (run_state silent screen (pair_cut_twice ++ [show 0]) pump_init)))
     = FM_CHECKER
  /\ take 2
       (wire
          (out_events
             (processFrameData silent screen (Some (plain 255)) online
                (run_state silent screen (pair_cut_twice ++ [show 0]) pump_init))))
     = [FM_CHECKER; 0%Z]
  /\ take 2
       (wire
          (out_events
             (processFrameData silent screen (Some (plain 255)) online
                (run_state silent screen (pair_cut_twice ++ [show 0]) pump_init))))
     <> [FM_CHECKER_COMPL; 0%Z].
Proof.
  pose proof (at_pair_cut_twice silent) as H2.
  pose proof (step_full silent online eq_refl _ _ _ _ (plain 0) _ H2 ltac:(lia)) as HB.
  rewrite run_state_app, (run_state_show silent 0 []), run_state_nil.
  destruct (step_checker silent online eq_refl 0 255 _ 0 FM_FULL _ HB ltac:(lia)
              ltac:(discriminate) ltac:(left; reflexivity) ltac:(lia)) as [HC Hw].
  destruct H2 as (_ & Hf2 & _ & Hm2 & _).
  destruct HB as (_ & _ & _ & HmB & _).
  destruct HC as (_ & _ & _ & HmC & _).
  split; [exact Hm2|]. split; [rewrite Hf2; lia|]. split; [exact HmB|].
  split; [exact HmC|]. rewrite Hw. split; [reflexivity|discriminate].
Qed.

(** * Further properties of the code *)

(** X1.  [squareDiff] does not care which of the two blocks is the old one:
    exchanging the two images (with their block offsets) gives the same
    answer, and the scan stops at the same pixel with the same sum. *)
Theorem squareDiff_symmetric (b1 : list Z) (o1 : nat) (b2 : list Z) (o2 rowStride : nat) :
  squareDiff b2 o2 b1 o1 rowStride = squareDiff b1 o1 b2 o2 rowStride
  /\ squareDiff_run b2 o2 b1 o1 rowStride = flow_swap (squareDiff_run b1 o1 b2 o2 rowStride).
Proof.
  assert (E : squareDiff_run b2 o2 b1 o1 rowStride
              = flow_swap (squareDiff_run b1 o1 b2 o2 rowStride)).
  { unfold squareDiff_run. change (SqRegs o2 o1 0) with (sq_swap (SqRegs o1 o2 0)).
    apply sq_rows_swap. }
  split; [|exact E]. unfold squareDiff. rewrite E.
  destruct (squareDiff_run b1 o1 b2 o2 rowStride); reflexivity.
Qed.

(** X2.  On buffers of bytes the sum that [squareDiff] keeps in its [int]
    never gets above 192 + 3 * 255 = 957, whether the scan returns early or
    runs to the end: the scan stops at the first pixel that lifts the sum
    over 192, and one pixel adds at most 765. *)
Theorem squareDiff_sum_bounded (b1 : list Z) (o1 : nat) (b2 : list Z) (o2 rowStride : nat) :
  bytes b1 -> bytes b2 -> 8 * 3 <= rowStride ->
  match squareDiff_run b1 o1 b2 o2 rowStride with
  | Returned r s => r = 1%Z /\ (192 < diff s <= 957)%Z
  | Running s => (0 <= diff s <= 192)%Z
  end.
Proof.
  intros H1 H2 Hs.
  pose proof (squareDiff_run_spec b1 b2 o1 o2 rowStride Hs) as H.
  destruct (squareDiff_run b1 o1 b2 o2 rowStride) as [r s|s].
  - destruct H as [-> (p & Hp & [Hlo Hhi] & ->)]. split; [reflexivity|].
    unfold sq_at. cbn [diff]. unfold MIN_SQDIFF in *. split; [lia|].
    cbn [running_sum].
    pose proof (px_diff_le b1 b2 (px_addr rowStride o1 p) (px_addr rowStride o2 p) H1 H2).
    destruct p as [|q].
    + cbn [running_sum]. lia.
    + specialize (Hlo q ltac:(lia)). lia.
  - destruct H as [Hlo ->]. cbn [diff]. unfold MIN_SQDIFF in *.
    pose proof (running_sum_nonneg b1 b2 o1 o2 rowStride Hs 64).
    specialize (Hlo 63 ltac:(lia)). lia.
Qed.

Lemma squareDiff_sum_bounded_witness :
  match squareDiff_run (replicate 192 0%Z) 0 (replicate 192 255%Z) 0 24 with
  | Returned r s => r = 1%Z /\ (192 < diff s <= 957)%Z
  | Running s => (0 <= diff s <= 192)%Z
  end.
Proof.
  apply (squareDiff_sum_bounded (replicate 192 0%Z) 0 (replicate 192 255%Z) 0 24).
  - apply Forall_replicate. lia.
  - apply Forall_replicate. lia.
  - lia.
Defined.

(** X3.  When no block of the current frame differs from the previous-frame
    buffer by more than the threshold (sum of absolute differences at most
    192 in every block), [imageDiff] returns 0, leaves the previous-frame
    buffer and the packed buffer exactly as they were, and clears the bit of
    every block: changes below the threshold are neither reported nor taken
    into the reference. *)
Theorem imageDiff_below_threshold (prev buf map cur : list Z) (bw bh : nat) :
  0 < bw ->
  length prev = 8 * bw * (8 * bh) * 3 ->
  8 * 8 * 3 * (bh * bw) <= length buf ->
  bh * bw <= 8 * length map ->
  (forall r c, r < bh -> c < bw ->
     (running_sum prev (block_off (8 * bw) r c) cur (block_off (8 * bw) r c) (8 * bw * 3) 64
      <= 192)%Z) ->
  let s := imageDiff_run prev buf map cur (8 * bw) (8 * bh) in
  imageDiff prev buf map cur (8 * bw) (8 * bh) = 0
  /\ id_last s = prev /\ id_buf s = buf /\ length (id_map s) = length map
  /\ (forall r c, r < bh -> c < bw -> map_bit (id_map s) (r * bw + c) = false).
Proof.
  intros Hbw Hp Hb Hm Hsum.
  apply (imageDiff_run_clean prev buf map cur bw bh Hbw Hp Hb Hm).
  intros r c Hr Hc. unfold dirty.
  rewrite (proj2 (squareDiff_zero_iff prev cur _ _ (8 * bw * 3) ltac:(lia)) (Hsum r c Hr Hc)).
  reflexivity.
Qed.

Lemma imageDiff_below_threshold_witness :
  imageDiff (replicate 384 0%Z) (replicate 384 7%Z) [255%Z] (replicate 384 1%Z)
            (8 * 2) (8 * 1) = 0
  /\ id_last (imageDiff_run (replicate 384 0%Z) (replicate 384 7%Z) [255%Z]
                (replicate 384 1%Z) (8 * 2) (8 * 1))
     = replicate 384 0%Z.
Proof.
  destruct (imageDiff_below_threshold (replicate 384 0%Z) (replicate 384 7%Z) [255%Z]
              (replicate 384 1%Z) 2 1) as (H1 & H2 & _).
  - lia.
  - reflexivity.
  - cbn. lia.
  - cbn. lia.
  - intros r c Hr Hc. assert (r = 0) as -> by lia.
    destruct c as [|[|c]]; [vm_compute; discriminate|vm_compute; discriminate|lia].
  - split; [exact H1|exact H2].
Defined.

(** X4.  Running the differencer a second time on the same current frame
    finds nothing: it returns 0 and changes neither the previous-frame buffer
    nor the packed buffer.  After one run every block of the reference is
    within the threshold of the current frame. *)
Theorem imageDiff_idempotent (prev buf map cur : list Z) (bw bh : nat) :
  0 < bw ->
  length prev = 8 * bw * (8 * bh) * 3 ->
  8 * 8 * 3 * (bh * bw) <= length buf ->
  bh * bw <= 8 * length map ->
  let s1 := imageDiff_run prev buf map cur (8 * bw) (8 * bh) in
  let s2 := imageDiff_run (id_last s1) (id_buf s1) (id_map s1) cur (8 * bw) (8 * bh) in
  numSqDiff s2 = 0 /\ id_last s2 = id_last s1 /\ id_buf s2 = id_buf s1
  /\ (forall r c, r < bh -> c < bw -> map_bit (id_map s2) (r * bw + c) = false).
Proof.
  intros Hbw Hp Hb Hm. cbn zeta.
  pose proof (imageDiff_run_inv prev buf map cur bw bh Hbw Hp Hb Hm) as I.
  set (s1 := imageDiff_run prev buf map cur (8 * bw) (8 * bh)) in *.
  destruct (imageDiff_run_clean (id_last s1) (id_buf s1) (id_map s1) cur bw bh Hbw)
    as (H1 & H2 & H3 & _ & H5).
  - rewrite (inv_last_len _ _ _ _ _ _ _ _ I). exact Hp.
  - rewrite (inv_buf_len _ _ _ _ _ _ _ _ I). exact Hb.
  - rewrite (inv_map_len _ _ _ _ _ _ _ _ I). exact Hm.
  - intros r c Hr Hc. unfold dirty.
    destruct (dirty prev cur (8 * bw) r c) eqn:Ed.
    + rewrite (squareDiff_ext (id_last s1) cur _ cur cur _ (8 * bw * 3)); [|lia| |reflexivity].
      * rewrite squareDiff_same by lia. reflexivity.
      * intros i t Hi Ht. rewrite (inv_last _ _ _ _ _ _ _ _ I) by assumption.
        rewrite (before_end bh r c Hr), Ed. reflexivity.
    + rewrite (squareDiff_ext (id_last s1) prev _ cur cur _ (8 * bw * 3)); [|lia| |reflexivity].
      * exact Ed.
      * intros i t Hi Ht. rewrite (inv_last _ _ _ _ _ _ _ _ I) by assumption.
        rewrite (before_end bh r c Hr), Ed. reflexivity.
  - repeat split; assumption.
Qed.

Lemma imageDiff_idempotent_witness :
  numSqDiff
    (imageDiff_run
       (id_last (imageDiff_run (replicate 384 0%Z) (replicate 384 7%Z) [255%Z]
                   (replicate 24 9%Z ++ replicate 360 0%Z) (8 * 2) (8 * 1)))
       (id_buf (imageDiff_run (replicate 384 0%Z) (replicate 384 7%Z) [255%Z]
                  (replicate 24 9%Z ++ replicate 360 0%Z) (8 * 2) (8 * 1)))
       (id_map (imageDiff_run (replicate 384 0%Z) (replicate 384 7%Z) [255%Z]
                  (replicate 24 9%Z ++ replicate 360 0%Z) (8 * 2) (8 * 1)))
       (replicate 24 9%Z ++ replicate 360 0%Z) (8 * 2) (8 * 1))
  = 0.
Proof.
  apply (imageDiff_idempotent (replicate 384 0%Z) (replicate 384 7%Z) [255%Z]
           (replicate 24 9%Z ++ replicate 360 0%Z) 2 1).
  - lia.
  - reflexivity.
  - cbn. lia.
  - cbn. lia.
Defined.

(** X5.  What one run of [imageDiff] leaves behind is enough to rebuild the
    new previous-frame buffer from the old one: the packed buffer is the
    dirty blocks of the current frame in scan order followed by its old
    contents; the number of bits set in the bitmap is the returned count; a
    block whose bit is set holds, in the new previous-frame buffer, the 192
    bytes found in the packed buffer at 192 times the number of bits set
    before its own; a block whose bit is clear holds what it held. *)
Theorem imageDiff_decodable (prev buf map cur : list Z) (bw bh : nat) :
  0 < bw ->
  length prev = 8 * bw * (8 * bh) * 3 ->
  8 * 8 * 3 * (bh * bw) <= length buf ->
  bh * bw <= 8 * length map ->
  let w := 8 * bw in
  let s := imageDiff_run prev buf map cur w (8 * bh) in
  id_buf s = packed cur w (dirty_among prev cur w (all_blocks bw bh))
             ++ drop (192 * numSqDiff s) buf
  /\ bits_before (id_map s) (bh * bw) = numSqDiff s
  /\ (forall r c, r < bh -> c < bw ->
        let k := bits_before (id_map s) (r * bw + c) in
        if map_bit (id_map s) (r * bw + c)
        then k < numSqDiff s
             /\ block_bytes (id_last s) (block_off w r c) (w * 3)
                = take 192 (drop (192 * k) (id_buf s))
        else block_bytes (id_last s) (block_off w r c) (w * 3)
             = block_bytes prev (block_off w r c) (w * 3)).
Proof.
  intros Hbw Hp Hb Hm. cbn zeta.
  pose proof (imageDiff_run_inv prev buf map cur bw bh Hbw Hp Hb Hm) as I.
  split; [apply (imageDiff_run_buf prev buf map cur bw bh Hbw Hp Hb Hm)|].
  split; [apply (bits_before_total prev buf map cur bw bh Hbw Hp Hb Hm)|].
  intros r c Hr Hc.
  rewrite (inv_bits _ _ _ _ _ _ _ _ I r c Hc (before_end bh r c Hr)).
  rewrite (imageDiff_run_block prev buf map cur bw bh Hbw Hp Hb Hm r c Hr Hc).
  rewrite (bits_before_rank prev buf map cur bw bh Hbw Hp Hb Hm r c Hr Hc).
  destruct (dirty prev cur (8 * bw) r c) eqn:Ed; [|reflexivity].
  destruct (packed_chunk prev buf map cur bw bh Hbw Hp Hb Hm r c Hr Hc Ed) as [Hk Hchunk].
  split; [exact Hk|]. symmetry. exact Hchunk.
Qed.

Lemma imageDiff_decodable_witness :
  bits_before
    (id_map (imageDiff_run (replicate 384 0%Z) (replicate 384 7%Z) [255%Z]
               (replicate 24 9%Z ++ replicate 360 0%Z) (8 * 2) (8 * 1)))
    (1 * 2)
  = numSqDiff (imageDiff_run (replicate 384 0%Z) (replicate 384 7%Z) [255%Z]
                 (replicate 24 9%Z ++ replicate 360 0%Z) (8 * 2) (8 * 1)).
Proof.
  apply (imageDiff_decodable (replicate 384 0%Z) (replicate 384 7%Z) [255%Z]
           (replicate 24 9%Z ++ replicate 360 0%Z) 2 1).
  - lia.
  - reflexivity.
  - cbn. lia.
  - cbn. lia.
Defined.

(** X6.  Whatever the calls of a session are, the state stays in range:
    [forceFrameCount] between 0 and 105, [checker] 0 or 1, the last mode one
    of the five codes, the wait counter at most 300, and [diffMap] and
    [diffBuf] at their declared sizes of 150 and 230400 bytes.  Once a call
    has brought a frame there is a previous-frame buffer and it is never
    released. *)
Theorem session_invariants (jpeg : encoder) (lay : layout) (calls : list call) :
  let s := run_state jpeg lay calls pump_init in
  (0 <= forceFrameCount s <= 105)%Z
  /\ (checker s = 0 \/ checker s = 1)%Z
  /\ (0 <= lastFrameMode s <= 4)%Z
  /\ waitConnection s <= 300
  /\ length (diffMap s) = 150
  /\ length (diffBuf s) = 240 * 320 * 3
  /\ ((exists c, In c calls /\ c_frame c <> None) -> lastImage s <> None).
Proof.
  cbn zeta.
  destruct (pump_ok_run jpeg lay calls pump_init pump_ok_init)
    as (H1 & H2 & H3 & H4 & H5 & H6).
  split; [exact H1|]. split; [exact H2|]. split; [exact H3|]. split; [exact H4|].
  split; [exact H5|]. split; [exact H6|]. apply last_image_after_frame.
Qed.

(** X7.  The order of the modes that the frame-supplying calls of a session
    select, that is, of the values they leave in [lastFrameMode]: the first
    call selects FULL; CHECKER_COMPL is selected only by the call right after
    one that selected CHECKER; and the call right after one that selected
    CHECKER selects CHECKER_COMPL, or FULL when the refresh is due.  Calls
    without a frame in between change nothing of this.  This is the order of
    the modes selected, not of the codes written to the socket: a checker
    mode is written with the code [3 + checker], whichever of the two was
    selected. *)
Theorem mode_order (jpeg : encoder) (lay : layout) (calls : list call) :
  let modes := frame_modes jpeg lay calls pump_init in
  (forall m, modes !! 0 = Some m -> m = FM_FULL)
  /\ (forall k a b, modes !! k = Some a -> modes !! S k = Some b ->
        (b = FM_CHECKER_COMPL -> a = FM_CHECKER)
        /\ (a = FM_CHECKER -> b = FM_CHECKER_COMPL \/ b = FM_FULL)).
Proof.
  cbn zeta. split.
  - intros m H. apply (frame_modes_first jpeg lay calls pump_init m); [reflexivity|exact H].
  - intros k a b Ha Hb. exact (frame_modes_adjacent jpeg lay calls pump_init k a b Ha Hb).
Qed.

(** X8.  What a call that brings a frame writes to a connected socket can
    always be cut into messages again.  NONE is the two bytes 0, 0.  Every
    other mode writes its code on two bytes, a 16-bit length, for DIFF the
    150 bytes of the bitmap, and then exactly as many bytes as the length
    says: the first bytes of what the encoder returned at quality 70.  When
    the encoder returns 65536 bytes or more the length is taken modulo 65536
    and the data is cut to that length; otherwise all of it is sent. *)
Theorem message_framing (jpeg : encoder) (lay : layout) (frame : list Z) (e : env)
    (s : pump) :
  let o := processFrameData jpeg lay (Some frame) e s in
  let mode := lastFrameMode (out_state o) in
  connected (sock (out_state o)) = true ->
  length (diffMap s) = 150 ->
  (mode = FM_NONE -> wire (out_events o) = [0; 0]%Z)
  /\ (mode <> FM_NONE ->
        exists data w h,
          let jpg := jpeg (take (w * h * 3) data) w h 70%Z in
          let size := (Z.of_nat (length jpg) mod 65536)%Z in
          let code := if (mode =? FM_FULL)%Z || (mode =? FM_DIFF)%Z then mode
                      else to_u16 (3 + checker s) in
          let payload := take (Z.to_nat size) jpg in
          In (EvCompress data w h 70) (out_events o)
          /\ wire (out_events o)
             = le16 code ++ le16 size
               ++ (if (mode =? FM_DIFF)%Z then diffMap (out_state o) else [])
               ++ payload
          /\ le16_value (le16 size) = size
          /\ Z.of_nat (length payload) = size
          /\ ((Z.of_nat (length jpg) < 65536)%Z -> payload = jpg)
          /\ ((65536 <= Z.of_nat (length jpg))%Z -> length payload < length jpg)).
Proof.
  cbn zeta. intros Hconn Hmap.
  rewrite connected_after in Hconn. rewrite process_events, wire_app.
  destruct (maintain_quiet e s) as [-> _].
  pose proof (length_sel_map lay frame s) as Hlen. rewrite Hmap in Hlen.
  unfold processFrameData. cbn [out_state lastFrameMode diffMap app].
  set (sel := select_mode lay frame s) in *.
  set (sk := up_sock (maintain e s)) in *.
  assert (Hfacts : forall jpg : list Z,
    le16_value (le16 (Z.of_nat (length jpg) mod 65536)) = (Z.of_nat (length jpg) mod 65536)%Z
    /\ Z.of_nat (length (take (Z.to_nat (Z.of_nat (length jpg) mod 65536)) jpg))
       = (Z.of_nat (length jpg) mod 65536)%Z
    /\ ((Z.of_nat (length jpg) < 65536)%Z ->
          take (Z.to_nat (Z.of_nat (length jpg) mod 65536)) jpg = jpg)
    /\ ((65536 <= Z.of_nat (length jpg))%Z ->
          length (take (Z.to_nat (Z.of_nat (length jpg) mod 65536)) jpg) < length jpg)).
  { intros jpg. split; [apply le16_value_le16; lia|]. split; [apply length_take_mod|].
    split.
    - intros H. rewrite Z.mod_small by lia. rewrite Nat2Z.id. apply firstn_all.
    - intros H. rewrite length_take. lia. }
  split.
  - intros Hm. rewrite (transmit_none_events jpeg lay frame sk sel _ _ Hm Hconn). reflexivity.
  - intros Hm.
    destruct (sel_mode_range lay frame s) as [R|[R|[R|[R|R]]]]; cbn zeta in R; fold sel in R.
    + contradiction.
    + pose proof (transmit_full_events jpeg lay frame sk sel (forceFrameCount s) (checker s)
                    R Hconn) as Hev. cbn zeta in Hev.
      exists frame, (width lay), (height lay). rewrite Hev, R.
      split; [apply in_or_app; right; left; reflexivity|].
      split; [|apply Hfacts].
      cbn [wire flat_map app Z.eqb Pos.eqb FM_FULL orb]. rewrite app_nil_r. reflexivity.
    + pose proof (transmit_diff_events jpeg lay frame sk sel (forceFrameCount s) (checker s)
                    R Hconn) as Hev. cbn zeta in Hev.
      exists (sel_buf sel), 8, (8 * sel_numSq sel). rewrite Hev, R.
      split; [apply in_or_app; right; left; reflexivity|].
      split; [|apply Hfacts].
      rewrite (take_ge (sel_map sel) 150) by lia.
      cbn [wire flat_map app Z.eqb Pos.eqb FM_DIFF]. rewrite app_nil_r. reflexivity.
    + pose proof (transmit_checker_events jpeg lay frame sk sel (forceFrameCount s) (checker s)
                    (or_introl R) Hconn) as Hev. cbn zeta in Hev.
      exists (checker_sample frame (width lay) (height lay) (checker s)),
             (width lay / 2), (height lay). rewrite Hev, R.
      split; [apply in_or_app; right; left; reflexivity|].
      split; [|apply Hfacts].
      cbn [wire flat_map app Z.eqb Pos.eqb FM_CHECKER FM_FULL FM_DIFF orb].
      rewrite app_nil_r. reflexivity.
    + pose proof (transmit_checker_events jpeg lay frame sk sel (forceFrameCount s) (checker s)
                    (or_intror R) Hconn) as Hev. cbn zeta in Hev.
      exists (checker_sample frame (width lay) (height lay) (checker s)),
             (width lay / 2), (height lay). rewrite Hev, R.
      split; [apply in_or_app; right; left; reflexivity|].
      split; [|apply Hfacts].
      cbn [wire flat_map app Z.eqb Pos.eqb FM_CHECKER_COMPL FM_FULL FM_DIFF orb].
      rewrite app_nil_r. reflexivity.
Qed.

Lemma message_framing_witness :
  wire (out_events
          (processFrameData (fun d _ _ _ => take 3 d) (Layout 8 8)
             (Some (replicate 192 5%Z)) (Env true true [])
             (Pump (Some (replicate 192 5%Z)) (replicate 192 0%Z) (replicate 150 0%Z)
                   0 0 FM_FULL 300 (Socket true []))))
  = [0; 0]%Z.
Proof.
  destruct (message_framing (fun d _ _ _ => take 3 d) (Layout 8 8) (replicate 192 5%Z)
              (Env true true [])
              (Pump (Some (replicate 192 5%Z)) (replicate 192 0%Z) (replicate 150 0%Z)
                    0 0 FM_FULL 300 (Socket true []))) as [H _].
  - vm_compute. reflexivity.
  - vm_compute. reflexivity.
  - apply H. vm_compute. reflexivity.
Defined.


(** X10.  On a frame of even width the checkerboard loop stores exactly
    [width * height * 3 / 2] bytes, the size of the array [buf] it fills, and
    the image handed to the encoder, [width / 2] by [height] pixels, is all
    of it. *)
Theorem checker_sample_fills_buf (frame : list Z) (w h c : nat) :
  Nat.even w = true -> c < 2 ->
  length (checker_sample frame w h (Z.of_nat c)) = w * h * 3 / 2
  /\ length (checker_sample frame w h (Z.of_nat c)) = w / 2 * h * 3
  /\ take (w / 2 * h * 3) (checker_sample frame w h (Z.of_nat c))
     = checker_sample frame w h (Z.of_nat c).
Proof.
  intros Hw Hc.
  assert (E : Z.of_nat c = skip_of c) by (destruct c as [|[|c]]; [reflexivity|reflexivity|lia]).
  rewrite E, checker_sample_spec by exact Hw.
  apply Nat.even_spec in Hw as [n ->].
  assert (L : length (pixels_at frame (2 * n) (sampled_positions c (2 * n) h)) = 2 * n / 2 * h * 3).
  { rewrite length_pixels_at, length_sampled_positions.
    replace (2 * n / 2) with n by lia. lia. }
  split; [|split; [exact L|]].
  - rewrite L. replace (2 * n / 2) with n by lia.
    replace (2 * n * h * 3) with (2 * (n * h * 3)) by lia. lia.
  - apply take_ge. rewrite L. lia.
Qed.

Lemma checker_sample_fills_buf_witness :
  length (checker_sample [1; 2; 3; 4; 5; 6; 7; 8; 9; 10; 11; 12]%Z 4 1 (Z.of_nat 1))
  = 4 * 1 * 3 / 2.
Proof.
  apply (checker_sample_fills_buf [1; 2; 3; 4; 5; 6; 7; 8; 9; 10; 11; 12]%Z 4 1 1 eq_refl).
  lia.
Defined.

(** X11.  A session that starts at program start and brings the same frame
    (of a size made of whole blocks, at most 1200 of them) with every call:
    call number [k], counted from 0, sends FULL when [k] is a multiple of 102
    and NONE otherwise, whatever the network does; the previous-frame buffer
    is that frame from the first call on, and after [n] calls
    [forceFrameCount] is [(n - 1) mod 102]. *)
Theorem same_frame_session (jpeg : encoder) (bw bh : nat) (frame : list Z)
    (envs : list env) :
  0 < bw -> bh * bw <= 1200 -> length frame = 8 * bw * (8 * bh) * 3 ->
  let lay := Layout (8 * bw) (8 * bh) in
  let calls := same_frame_calls frame envs in
  frame_modes jpeg lay calls pump_init
  = map (fun k => if k mod 102 =? 0 then FM_FULL else FM_NONE) (seq 0 (length envs))
  /\ (envs <> [] ->
        lastImage (run_state jpeg lay calls pump_init) = Some frame
        /\ forceFrameCount (run_state jpeg lay calls pump_init)
           = Z.of_nat ((length envs - 1) mod 102)).
Proof.
  intros Hbw Hblocks Hlen. cbn zeta.
  destruct envs as [|e envs]; [split; [reflexivity|congruence]|].
  cbn [same_frame_calls map frame_modes run_state length c_frame c_env].
  set (s1 := out_state (processFrameData jpeg (Layout (8 * bw) (8 * bh)) (Some frame) e
                          pump_init)).
  assert (Hs1 : settled bw bh frame 0 s1).
  { unfold settled, s1, processFrameData.
    cbn [out_state lastFrameMode lastImage forceFrameCount diffBuf diffMap].
    rewrite transmit_force, length_sel_buf, length_sel_map, select_mode_eq.
    cbn [pump_init lastImage sel_mode sel_last width height diffBuf diffMap forceFrameCount].
    rewrite take_ge by lia. rewrite !length_replicate.
    split; [reflexivity|]. split; [discriminate|]. split; [reflexivity|]. lia. }
  assert (Hm1 : lastFrameMode s1 = FM_FULL).
  { unfold s1, processFrameData. cbn [out_state lastFrameMode].
    rewrite select_mode_eq. reflexivity. }
  destruct (settled_session jpeg bw bh frame Hbw Hlen envs s1 0 Hs1) as [Hmodes Hfin].
  fold (same_frame_calls frame envs). rewrite Hmodes, Hm1. split.
  - cbn [seq map]. f_equal.
    rewrite <- seq_shift, map_map. apply map_ext. intros j. reflexivity.
  - intros _. destruct Hfin as (Himg & _ & Hforce & _).
    split; [exact Himg|]. rewrite Hforce. do 2 f_equal. lia.
Qed.

Lemma same_frame_session_witness :
  frame_modes (fun _ _ _ _ => []) (Layout (8 * 1) (8 * 1))
    (same_frame_calls (replicate 192 9%Z)
       [Env true true []; Env false false [1%Z]; Env true true []]) pump_init
  = [FM_FULL; FM_NONE; FM_NONE].
Proof.
  apply (same_frame_session (fun _ _ _ _ => []) 1 1 (replicate 192 9%Z)
           [Env true true []; Env false false [1%Z]; Env true true []]).
  - lia.
  - lia.
  - reflexivity.
Defined.

(** X12.  [RequestCTroll3D] keeps the last request and does not leak: after
    any run of requests, from a state whose heap is well formed, the slot
    holds the data, callback and layout of the last request, the stored
    address is a block that holds the last address string, the live blocks
    are that one block together with the blocks that did not belong to the
    slot before the run (every address duplicated in between has been freed),
    no block was freed that was not live, and the screenshot slot is
    untouched. *)
Theorem ctroll3d_last_request_wins (v : video_core) (reqs : list ctroll_request)
    (r : ctroll_request) :
  heap_ok v ->
  let v' := foldl ctroll v (reqs ++ [r]) in
  g_ctroll3d_bits v' = cr_data r
  /\ g_ctroll3d_complete_callback v' = cr_callback r
  /\ g_ctroll3d_framebuffer_layout v' = cr_layout r
  /\ (exists p, g_ctroll3d_addr v' = Some p
        /\ others v !! p = None
        /\ h_live (vc_heap v') = <[p := cr_address r]> (others v))
  /\ h_bad_free (vc_heap v') = h_bad_free (vc_heap v)
  /\ g_renderer_screenshot_requested v' = g_renderer_screenshot_requested v
  /\ g_screenshot_bits v' = g_screenshot_bits v
  /\ g_screenshot_complete_callback v' = g_screenshot_complete_callback v
  /\ g_screenshot_framebuffer_layout v' = g_screenshot_framebuffer_layout v.
Proof.
  intros Hv. cbn zeta. rewrite foldl_snoc.
  destruct (ctroll_run reqs v Hv) as (Hv1 & Ho1 & Hb1).
  destruct (ctroll_step (foldl ctroll v reqs) r Hv1) as (_ & _ & Hb & p & Hp & Hl & Hf).
  destruct (ctroll_run_shot_fields reqs v) as (S1 & S2 & S3 & S4).
  destruct (ctroll_shot_fields (foldl ctroll v reqs) r) as (T1 & T2 & T3 & T4).
  rewrite T1, T2, T3, T4, S1, S2, S3, S4, Hb, Hb1.
  split; [reflexivity|]. split; [reflexivity|]. split; [reflexivity|].
  split; [|auto 6].
  exists p. rewrite <- Ho1. auto.
Qed.

Lemma ctroll3d_last_request_wins_witness :
  heap_ok vc_init
  /\ g_ctroll3d_bits
       (foldl ctroll vc_init
          ([CtrollRequest 1 1 [49%Z] (Layout 240 320)]
           ++ [CtrollRequest 2 2 [50%Z] (Layout 240 320)])) = 2.
Proof.
  assert (H : heap_ok vc_init).
  { split.
    - intros k [x Hx]. cbn in Hx. rewrite lookup_empty in Hx. discriminate.
    - intros p Hp. discriminate. }
  split; [exact H|].
  apply (ctroll3d_last_request_wins vc_init
           [CtrollRequest 1 1 [49%Z] (Layout 240 320)]
           (CtrollRequest 2 2 [50%Z] (Layout 240 320)) H).
Defined.

(** X13.  [RequestScreenshot] keeps the first request while one is pending:
    a run of requests leaves the state as it was when a request was already
    pending, and otherwise as the first request alone leaves it, with the
    slot holding that request and the flag set; the CTroll3D slot and the
    heap are never touched. *)
Theorem screenshot_first_request_wins (v : video_core) (reqs : list shot_request) :
  let v' := foldl shot v reqs in
  v' = (if g_renderer_screenshot_requested v then v
        else match reqs with
             | [] => v
             | r :: _ =>
                 VideoCore true (sr_data r) (sr_callback r) (sr_layout r)
                   (g_ctroll3d_bits v) (g_ctroll3d_complete_callback v)
                   (g_ctroll3d_framebuffer_layout v) (g_ctroll3d_addr v) (vc_heap v)
             end)
  /\ g_ctroll3d_bits v' = g_ctroll3d_bits v
  /\ g_ctroll3d_complete_callback v' = g_ctroll3d_complete_callback v
  /\ g_ctroll3d_framebuffer_layout v' = g_ctroll3d_framebuffer_layout v
  /\ g_ctroll3d_addr v' = g_ctroll3d_addr v
  /\ vc_heap v' = vc_heap v.
Proof.
  cbn zeta.
  assert (E : foldl shot v reqs
              = (if g_renderer_screenshot_requested v then v
                 else match reqs with
                      | [] => v
                      | r :: _ =>
                          VideoCore true (sr_data r) (sr_callback r) (sr_layout r)
                            (g_ctroll3d_bits v) (g_ctroll3d_complete_callback v)
                            (g_ctroll3d_framebuffer_layout v) (g_ctroll3d_addr v)
                            (vc_heap v)
                      end)).
  { destruct (g_renderer_screenshot_requested v) eqn:Hv.
    - apply shot_pending, Hv.
    - destruct reqs as [|r reqs]; [reflexivity|].
      cbn [foldl]. rewrite shot_pending.
      + unfold shot, RequestScreenshot. rewrite Hv. reflexivity.
      + unfold shot, RequestScreenshot. rewrite Hv. reflexivity. }
  split; [exact E|]. rewrite E.
  destruct (g_renderer_screenshot_requested v); [auto 6|].
  destruct reqs; cbn; auto 6.
Qed.

(** X14.  [FirstFrameDisplayed] is emitted at most once per
    [InitRenderTarget] (and once more when the flag starts down): over any run
    of [PollEvents] and [InitRenderTarget] calls the number of signals is at
    most the number of [InitRenderTarget] calls plus one if [first_frame] was
    false at the start; a poll that directly follows a poll emits nothing,
    and a poll that directly follows an [InitRenderTarget] emits the
    signal. *)
Theorem first_frame_once (ops : list window_op) (first_frame : bool) :
  length (snd (window_run ops first_frame))
    <= count_inits ops + (if first_frame then 0 else 1)
  /\ snd (window_run (ops ++ [OpPollEvents; OpPollEvents]) first_frame)
     = snd (window_run (ops ++ [OpPollEvents]) first_frame)
  /\ snd (window_run (ops ++ [OpInitRenderTarget; OpPollEvents]) first_frame)
     = snd (window_run ops first_frame) ++ [FirstFrameDisplayed]
  /\ fst (window_run (ops ++ [OpPollEvents]) first_frame) = true.
Proof.
  split; [apply window_run_bound|].
  rewrite !window_run_app. cbn [fst snd].
  destruct (fst (window_run ops first_frame)); cbn; auto.
Qed.
